(** * mk_atlas: sprite trimming and guillotine packing

    A shallow embedding of [src/mk_atlas/mk_atlas.go] and of the few
    functions of Go's [image] package it calls, followed by the
    properties of the trimmer, of the packing tree and of the packer,
    and of what surrounds them: the loader, the canvas, the metadata
    and the names written for ActionScript.

    Conventions.
    - Go's [int] is modelled as [Z] with the 64-bit two's-complement
      wrap-around written out ([wrap]): the arithmetic of the source on
      coordinates, sizes and buffer offsets is [iadd], [isub], [imul].
      Loop counters and slice indices, which a length bounds, are plain
      numbers.
    - A call that can panic or recurse without bound returns an
      [outcome]: [Ret v], [Panic], or [OutOfFuel] when the fuel given to
      the model did not suffice.
    - A [*node] inside the packing tree is a path from the root; writing
      through the pointer is a functional update at that path.
    - What the program gets from the file system, from the decoders and
      from [draw.Draw] and [filepath] is a variable of the section that
      models the caller. *)

From Stdlib Require Import ZArith Lia Bool List.
From Stdlib Require Strings.Byte Strings.String Strings.Ascii.
From stdpp Require Import base tactics option list numbers.
From stdpp Require strings gmap.

Import String.StringSyntax.

Local Open Scope Z_scope.

(** ** Machine integers *)

Definition int_min : Z := - 2 ^ 63.
Definition int_max : Z := 2 ^ 63 - 1.

Definition wrap (z : Z) : Z := (z + 2 ^ 63) mod 2 ^ 64 - 2 ^ 63.

Definition is_int (z : Z) : Prop := int_min <= z <= int_max.

Definition iadd (a b : Z) : Z := wrap (a + b).
Definition isub (a b : Z) : Z := wrap (a - b).
Definition imul (a b : Z) : Z := wrap (a * b).

(** ** Outcomes of calls that may panic or run out of fuel *)

Inductive outcome (A : Type) : Type :=
| Ret (a : A)
| Panic
| OutOfFuel.

Arguments Ret {A} a.
Arguments Panic {A}.
Arguments OutOfFuel {A}.

#[global] Instance outcome_bind : MBind outcome :=
  fun A B (k : A -> outcome B) (m : outcome A) =>
    match m with
    | Ret a => k a
    | Panic => Panic
    | OutOfFuel => OutOfFuel
    end.

(** ** Go's [image] geometry *)

Module image.

Record Point : Type := Pt { X : Z; Y : Z }.

Record Rectangle : Type := mkRectangle { Min : Point; Max : Point }.

(** [image.Rect]: the corners are put in order. *)
Definition Rect (x0 y0 x1 y1 : Z) : Rectangle :=
  let '(x0, x1) := if x1 <? x0 then (x1, x0) else (x0, x1) in
  let '(y0, y1) := if y1 <? y0 then (y1, y0) else (y0, y1) in
  mkRectangle (Pt x0 y0) (Pt x1 y1).

Definition ZR : Rectangle := mkRectangle (Pt 0 0) (Pt 0 0).

Definition Add (p q : Point) : Point := Pt (iadd (X p) (X q)) (iadd (Y p) (Y q)).
Definition Sub (p q : Point) : Point := Pt (isub (X p) (X q)) (isub (Y p) (Y q)).

Definition Dx (r : Rectangle) : Z := isub (X (Max r)) (X (Min r)).
Definition Dy (r : Rectangle) : Z := isub (Y (Max r)) (Y (Min r)).
Definition Size (r : Rectangle) : Point := Pt (Dx r) (Dy r).

Definition Empty (r : Rectangle) : bool :=
  (X (Max r) <=? X (Min r)) || (Y (Max r) <=? Y (Min r)).

Definition Intersect (r s : Rectangle) : Rectangle :=
  let minx := if X (Min r) <? X (Min s) then X (Min s) else X (Min r) in
  let miny := if Y (Min r) <? Y (Min s) then Y (Min s) else Y (Min r) in
  let maxx := if X (Max s) <? X (Max r) then X (Max s) else X (Max r) in
  let maxy := if Y (Max s) <? Y (Max r) then Y (Max s) else Y (Max r) in
  let r' := mkRectangle (Pt minx miny) (Pt maxx maxy) in
  if Empty r' then ZR else r'.

(** [image.RGBA]: [Bounds] is the struct's [Rect] field. *)
Record RGBA : Type := mkRGBA { Pix : list Byte.byte; Stride : Z; Bounds : Rectangle }.

(** Any [image.Image]: an [*image.RGBA], or another implementation,
    of which only the bounds matter here. *)
Inductive Image : Type :=
| ImageRGBA (p : RGBA)
| ImageOther (bounds : Rectangle).

Definition PixOffset (p : RGBA) (x y : Z) : Z :=
  iadd (imul (isub y (Y (Min (Bounds p)))) (Stride p))
       (imul (isub x (X (Min (Bounds p)))) 4).

(** [s[i]]: out of range panics. *)
Definition index (s : list Byte.byte) (i : Z) : outcome Byte.byte :=
  if i <? 0 then Panic
  else match s !! Z.to_nat i with Some b => Ret b | None => Panic end.

(** [s[i:]]: out of range panics. *)
Definition sliceFrom (s : list Byte.byte) (i : Z) : outcome (list Byte.byte) :=
  if (i <? 0) || (Z.of_nat (length s) <? i) then Panic
  else Ret (drop (Z.to_nat i) s).

Definition SubImage (p : RGBA) (r : Rectangle) : outcome RGBA :=
  let r := Intersect r (Bounds p) in
  if Empty r then Ret (mkRGBA [] 0 ZR)
  else
    pix ← sliceFrom (Pix p) (PixOffset p (X (Min r)) (Y (Min r)));
    Ret (mkRGBA pix (Stride p) r).

End image.

Import image.

(** A pixel position lies in a rectangle ([Point.In]). *)
Definition inRect (x y : Z) (r : Rectangle) : Prop :=
  X (Min r) <= x < X (Max r) /\ Y (Min r) <= y < Y (Max r).

(** Two rectangles share no pixel. *)
Definition disjoint (r s : Rectangle) : Prop :=
  forall x y, ~ (inRect x y r /\ inRect x y s).

(** [r] lies inside [s]. *)
Definition within (r s : Rectangle) : Prop :=
  forall x y, inRect x y r -> inRect x y s.

(** A rectangle as Go code holds it: ordered corners, 64-bit coordinates. *)
Definition int_point (p : Point) : Prop := is_int (X p) /\ is_int (Y p).

Definition canon (r : Rectangle) : Prop :=
  X (Min r) <= X (Max r) /\ Y (Min r) <= Y (Max r).

Definition int_rect (r : Rectangle) : Prop :=
  int_point (Min r) /\ int_point (Max r).

(** ** The packing tree *)

#[local] Unset Elimination Schemes.
Inductive node : Type :=
  mkNode { Left : option node; Right : option node; Rect : Rectangle; Used : bool }.
#[local] Set Elimination Schemes.

Inductive dir : Type := L | R.

#[global] Instance dir_eq_dec : EqDecision dir.
Proof. solve_decision. Defined.

(** A pointer to a node of the tree: the way down from the root. *)
Definition path : Type := list dir.

Record nodeCandidate : Type := mkCandidate { Candidate : path; Score : Z }.

(** [node{Rect: r}]: a fresh, unused node without children. *)
Definition fresh (r : Rectangle) : node := mkNode None None r false.

Definition under (d : dir) (c : nodeCandidate) : nodeCandidate :=
  mkCandidate (d :: Candidate c) (Score c).

(** [FindInsertCandidates]: the candidates in the order they are sent on
    the channel. A node with a left but no right child makes the second
    recursive call dereference nil. *)
Fixpoint FindInsertCandidates (size : Point) (n : node) : outcome (list nodeCandidate) :=
  if (X size <=? Dx (Rect n)) && (Y size <=? Dy (Rect n)) then
    match Left n with
    | Some l =>
        cl ← FindInsertCandidates size l;
        match Right n with
        | Some r =>
            cr ← FindInsertCandidates size r;
            Ret (map (under L) cl ++ map (under R) cr)
        | None => Panic
        end
    | None =>
        if negb (Used n) then
          let ds := Sub (Size (Rect n)) size in
          if Y ds <=? X ds
          then Ret [mkCandidate [] (Y ds)]
          else Ret [mkCandidate [] (X ds)]
        else Ret []
    end
  else Ret [].

(** The two rectangles a split of [r] for [size] creates, given the
    leftover [ds]. *)
Definition splitRects (r : Rectangle) (size ds : Point) : Rectangle * Rectangle :=
  if Y ds <=? X ds then
    (image.Rect (X (Min r)) (Y (Min r)) (iadd (X (Min r)) (X size)) (Y (Max r)),
     image.Rect (iadd (X (Min r)) (X size)) (Y (Min r)) (X (Max r)) (Y (Max r)))
  else
    (image.Rect (X (Min r)) (Y (Min r)) (X (Max r)) (iadd (Y (Min r)) (Y size)),
     image.Rect (X (Min r)) (iadd (Y (Min r)) (Y size)) (X (Max r)) (Y (Max r))).

(** [Insert]: the updated node and the rectangle returned. *)
Fixpoint Insert (fuel : nat) (size : Point) (n : node) : outcome (node * Rectangle) :=
  match fuel with
  | O => OutOfFuel
  | S fuel' =>
      if Used n then Panic
      else
        let ds := Sub (Size (Rect n)) size in
        if (X ds <? 0) || (Y ds <? 0) then Panic
        else if (X ds =? 0) && (Y ds =? 0) then
          Ret (mkNode (Left n) (Right n) (Rect n) true, Rect n)
        else
          let '(lr, rr) := splitRects (Rect n) size ds in
          '(l', res) ← Insert fuel' size (fresh lr);
          Ret (mkNode (Some l') (Some (fresh rr)) (Rect n) true, res)
  end.

(** The child a step of a path leads to. *)
Definition child (d : dir) (n : node) : option node :=
  match d with L => Left n | R => Right n end.

Definition setChild (d : dir) (c : node) (n : node) : node :=
  match d with
  | L => mkNode (Some c) (Right n) (Rect n) (Used n)
  | R => mkNode (Left n) (Some c) (Rect n) (Used n)
  end.

(** The node a pointer designates. *)
Fixpoint deref (p : path) (t : node) : option node :=
  match p with
  | [] => Some t
  | d :: p' => match child d t with Some c => deref p' c | None => None end
  end.

(** [p.Insert(size)] for a pointer [p] into the tree [t]. *)
Fixpoint InsertAt (fuel : nat) (p : path) (size : Point) (t : node)
  : outcome (node * Rectangle) :=
  match p with
  | [] => Insert fuel size t
  | d :: p' =>
      match child d t with
      | Some c =>
          '(c', res) ← InsertAt fuel p' size c;
          Ret (setChild d c' t, res)
      | None => Panic
      end
  end.

(** ** Loops *)

(** [for v := 0; v < n; v++ { s = body(v, s) }] *)
Definition upto (n : Z) : list Z := map Z.of_nat (seq 0 (Z.to_nat n)).

Fixpoint forM {S : Type} (vs : list Z) (body : Z -> S -> outcome S) (s : S) : outcome S :=
  match vs with
  | [] => Ret s
  | v :: vs' => s' ← body v s; forM vs' body s'
  end.

(** [for cond(s) { s = body(s) }] *)
Fixpoint while {S : Type} (fuel : nat) (cond : S -> outcome bool) (body : S -> S) (s : S)
  : outcome S :=
  match fuel with
  | O => OutOfFuel
  | S fuel' =>
      b ← cond s;
      if b : bool then while fuel' cond body (body s) else Ret s
  end.

(** ** The trimmer *)

Definition uint32 (b : Byte.byte) : Z := Z.of_N (Byte.to_N b).

Definition ImageMaxAlpha (rawimage : image.Image) : outcome Z :=
  match rawimage with
  | ImageRGBA i =>
      let b := Bounds i in
      forM (upto (Dy b)) (fun y maxAlpha =>
        forM (upto (Dx b)) (fun x maxAlpha =>
          a ← index (Pix i) (iadd (iadd (imul x 4) (imul y (Stride i))) 3);
          Ret (if maxAlpha <? uint32 a then uint32 a else maxAlpha))
          maxAlpha) 0
  | ImageOther _ => Panic
  end.

(** The guard of each of the four loops of [TrimImage]: the extent is
    above one and the strip has no visible pixel. *)
Definition stripIsClear (src : RGBA) (extent : Z) (strip : Rectangle) : outcome bool :=
  if 1 <? extent then
    s ← SubImage src strip;
    a ← ImageMaxAlpha (ImageRGBA s);
    Ret (a =? 0)
  else Ret false.

Definition setMaxX (r : Rectangle) (v : Z) : Rectangle :=
  mkRectangle (Min r) (Pt v (Y (Max r))).
Definition setMinX (r : Rectangle) (v : Z) : Rectangle :=
  mkRectangle (Pt v (Y (Min r))) (Max r).
Definition setMaxY (r : Rectangle) (v : Z) : Rectangle :=
  mkRectangle (Min r) (Pt (X (Max r)) v).
Definition setMinY (r : Rectangle) (v : Z) : Rectangle :=
  mkRectangle (Pt (X (Min r)) v) (Max r).

Definition trimRight (fuel : nat) (src : RGBA) : Rectangle -> outcome Rectangle :=
  while fuel
    (fun trim => stripIsClear src (isub (X (Max trim)) (X (Min trim)))
       (image.Rect (isub (X (Max trim)) 1) (Y (Min trim)) (X (Max trim)) (Y (Max trim))))
    (fun trim => setMaxX trim (isub (X (Max trim)) 1)).

Definition trimLeft (fuel : nat) (src : RGBA) : Rectangle -> outcome Rectangle :=
  while fuel
    (fun trim => stripIsClear src (isub (X (Max trim)) (X (Min trim)))
       (image.Rect (X (Min trim)) (Y (Min trim)) (iadd (X (Min trim)) 1) (Y (Max trim))))
    (fun trim => setMinX trim (iadd (X (Min trim)) 1)).

Definition trimBottom (fuel : nat) (src : RGBA) : Rectangle -> outcome Rectangle :=
  while fuel
    (fun trim => stripIsClear src (isub (Y (Max trim)) (Y (Min trim)))
       (image.Rect (X (Min trim)) (isub (Y (Max trim)) 1) (X (Max trim)) (Y (Max trim))))
    (fun trim => setMaxY trim (isub (Y (Max trim)) 1)).

Definition trimTop (fuel : nat) (src : RGBA) : Rectangle -> outcome Rectangle :=
  while fuel
    (fun trim => stripIsClear src (isub (Y (Max trim)) (Y (Min trim)))
       (image.Rect (X (Min trim)) (Y (Min trim)) (X (Max trim)) (iadd (Y (Min trim)) 1)))
    (fun trim => setMinY trim (iadd (Y (Min trim)) 1)).

(** The rectangle [trim] holds when the four loops are over. *)
Definition trimRect (fuel : nat) (src : RGBA) : outcome Rectangle :=
  trim ← trimRight fuel src (Bounds src);
  trim ← trimLeft fuel src trim;
  trim ← trimBottom fuel src trim;
  trimTop fuel src trim.

Definition TrimImage (fuel : nat) (src : RGBA) : outcome RGBA :=
  trim ← trimRect fuel src;
  SubImage src trim.

(** ** The atlas and the packer *)

Record AtlasImage : Type := mkAtlasImage {
  Path : String.string;
  OrgBounds : Rectangle;
  Image : RGBA;
  AtlasPos : Point
}.

Record Atlas : Type := mkAtlas { Images : list AtlasImage }.

Inductive error : Type := Errorf (msg : String.string).

Definition setAtlasPos (img : AtlasImage) (p : Point) : AtlasImage :=
  mkAtlasImage (Path img) (OrgBounds img) (Image img) p.

(** [img.Image.Bounds().Size().Add(image.Pt(1, 1))] *)
Definition paddedSize (img : AtlasImage) : Point :=
  Add (Size (Bounds (Image img))) (Pt 1 1).

(** The variables of the loop of [PackImages]: the slice [images] of
    pointers into [a.Images] (as indices), [a.Images] itself, and the
    tree. *)
Record packState : Type := mkPackState {
  images : list nat;
  store : list AtlasImage;
  root : node
}.

(** Reading through a pointer or a slice index. *)
Definition load {A : Type} (s : list A) (i : nat) : outcome A :=
  match s !! i with Some a => Ret a | None => Panic end.

(** The running best of a round: [bestImage] and [bestCandidate]. *)
Definition best : Type := (Z * nodeCandidate)%type.

Definition noBest : best := (-1, mkCandidate [] 0).

(** The receive loop over one sprite's candidates. *)
Definition scanCandidates (i : Z) (cs : list nodeCandidate) (b : best) : best :=
  fold_left
    (fun '(bestImage, bestCandidate) candidate =>
       if (bestImage <? 0) || (Score candidate <? Score bestCandidate)
       then (i, candidate)
       else (bestImage, bestCandidate))
    cs b.

(** The loop over [images], from index [i] on. *)
Fixpoint scanImages (st : list AtlasImage) (t : node) (imgs : list nat) (i : Z) (b : best)
  : outcome best :=
  match imgs with
  | [] => Ret b
  | p :: imgs' =>
      img ← load st p;
      cs ← FindInsertCandidates (paddedSize img) t;
      scanImages st t imgs' (i + 1) (scanCandidates i cs b)
  end.

(** One turn of the outer loop: [None] when no sprite has a candidate. *)
Definition round (fuel : nat) (s : packState) : outcome (option packState) :=
  '(bestImage, bestCandidate) ← scanImages (store s) (root s) (images s) 0 noBest;
  if bestImage <? 0 then Ret None
  else
    p ← load (images s) (Z.to_nat bestImage);
    img ← load (store s) p;
    '(root', r) ← InsertAt fuel (Candidate bestCandidate) (paddedSize img) (root s);
    let store' := <[p := setAtlasPos img (Min r)]> (store s) in
    last ← load (images s) (length (images s) - 1)%nat;
    let images' := take (length (images s) - 1)%nat (<[Z.to_nat bestImage := last]> (images s)) in
    Ret (Some (mkPackState images' store' root')).

#[local] Open Scope string_scope.
Definition fitError : error := Errorf "Failed to fit all images".
#[local] Close Scope string_scope.

Fixpoint packLoop (fuel : nat) (n : nat) (s : packState) : outcome (packState * option error) :=
  match images s with
  | [] => Ret (s, None)
  | _ :: _ =>
      match n with
      | O => OutOfFuel
      | S n' =>
          next ← round fuel s;
          match next with
          | None => Ret (s, Some fitError)
          | Some s' => packLoop fuel n' s'
          end
      end
  end.

Definition initState (a : Atlas) (atlasSize : Point) : packState :=
  mkPackState (seq 0 (length (Images a))) (Images a)
    (fresh (image.Rect 1 1 (X atlasSize) (Y atlasSize))).

Definition PackImages (fuel : nat) (a : Atlas) (atlasSize : Point)
  : outcome (Atlas * option error) :=
  '(s, err) ← packLoop fuel fuel (initState a atlasSize);
  Ret (mkAtlas (store s), err).

(** ** Trees reachable by commits *)

(** The trees that a sequence of successful [Insert] calls, each through
    some pointer into the tree and for a size satisfying [sizeOk], makes
    of the one-node tree over [r0]. *)
Inductive reachable (sizeOk : Point -> Prop) (r0 : Rectangle) : node -> Prop :=
| reachable_fresh : reachable sizeOk r0 (fresh r0)
| reachable_Insert t fuel p size t' r :
    reachable sizeOk r0 t ->
    sizeOk size ->
    InsertAt fuel p size t = Ret (t', r) ->
    reachable sizeOk r0 t'.


(** A size: two non-negative 64-bit integers. *)
Definition isSize (size : Point) : Prop :=
  int_point size /\ 0 <= X size /\ 0 <= Y size.

(** [P] holds of every node of the tree. *)
Definition everyNode (P : node -> Prop) (t : node) : Prop :=
  forall p n, deref p t = Some n -> P n.

Definition hasChildren (n : node) : Prop := is_Some (Left n) \/ is_Some (Right n).

(** The leaves in left-to-right order; as in [FindInsertCandidates], a
    leaf is a node without left child. *)
Fixpoint leaves (t : node) : list node :=
  match Left t with
  | None => [t]
  | Some l => leaves l ++ match Right t with Some r => leaves r | None => [] end
  end.

(** [l] and [r] cut [parent] in two: no gap, no overlap. *)
Definition cuts (parent l r : Rectangle) : Prop :=
  disjoint l r /\ forall x y, inRect x y parent <-> inRect x y l \/ inRect x y r.

(** A node that was split carries the used flag. *)
Definition splitUsed (n : node) : Prop := hasChildren n -> Used n = true.

(** ** Commit, in the words of its contract *)

(** [size] fits in [r], as the code tests it. *)
Definition fits (size : Point) (r : Rectangle) : Prop :=
  X size <= Dx r /\ Y size <= Dy r.

(** [size] passes the test of [Insert]: no negative leftover. *)
Definition roomy (size : Point) (r : Rectangle) : Prop :=
  0 <= X (Sub (Size r) size) /\ 0 <= Y (Sub (Size r) size).

(** What [r] leaves over on each axis once [size] is taken. *)
Definition slackX (r : Rectangle) (size : Point) : Z := X (Max r) - X (Min r) - X size.
Definition slackY (r : Rectangle) (size : Point) : Z := Y (Max r) - Y (Min r) - Y size.

(** A vertical cut: the left part has the requested width and the full
    height, the right part has the remaining width. *)
Definition leftOfV (r : Rectangle) (size : Point) : Rectangle :=
  mkRectangle (Min r) (Pt (X (Min r) + X size) (Y (Max r))).
Definition rightOfV (r : Rectangle) (size : Point) : Rectangle :=
  mkRectangle (Pt (X (Min r) + X size) (Y (Min r))) (Max r).

(** A horizontal cut: the top part has the requested height and the full
    width, the bottom part has the remaining height. *)
Definition topOfH (r : Rectangle) (size : Point) : Rectangle :=
  mkRectangle (Min r) (Pt (X (Max r)) (Y (Min r) + Y size)).
Definition bottomOfH (r : Rectangle) (size : Point) : Rectangle :=
  mkRectangle (Pt (X (Min r)) (Y (Min r) + Y size)) (Max r).

(** The rectangle of [size] in the minimum corner of [r]. *)
Definition cornerOf (r : Rectangle) (size : Point) : Rectangle :=
  mkRectangle (Min r) (Pt (X (Min r) + X size) (Y (Min r) + Y size)).

Definition markUsed (n : node) : node := mkNode (Left n) (Right n) (Rect n) true.

(** The number of axes on which [r] is larger than [size]. *)
Definition looseAxes (r : Rectangle) (size : Point) : nat :=
  (if slackX r size =? 0 then 0%nat else 1%nat) +
  (if slackY r size =? 0 then 0%nat else 1%nat).

(** ** The shape of reachable trees *)

(** [l] and [r] are what one straight cut through [parent] leaves. *)
Definition guillotine (parent l r : Rectangle) : Prop :=
  exists size,
    (0 <= X size <= X (Max parent) - X (Min parent) /\
     l = leftOfV parent size /\ r = rightOfV parent size) \/
    (0 <= Y size <= Y (Max parent) - Y (Min parent) /\
     l = topOfH parent size /\ r = bottomOfH parent size).

(** A node is well formed: an ordered 64-bit rectangle, and no child or
    two children that a cut of the rectangle made. *)
Definition nodeOk (n : node) : Prop :=
  canon (Rect n) /\ int_rect (Rect n) /\
  match Left n, Right n with
  | None, None => True
  | Some l, Some r => guillotine (Rect n) (Rect l) (Rect r)
  | _, _ => False
  end.

(** The rectangles of a list share no pixel, two by two. *)
Definition pairwiseDisjoint (ns : list node) : Prop :=
  forall i j a b, i <> j -> ns !! i = Some a -> ns !! j = Some b ->
    disjoint (Rect a) (Rect b).

(** [r] lies inside [s], corner by corner. *)
Definition inside (r s : Rectangle) : Prop :=
  X (Min s) <= X (Min r) /\ X (Max r) <= X (Max s) /\
  Y (Min s) <= Y (Min r) /\ Y (Max r) <= Y (Max s).

(** ** Candidates, in the words of the contract *)

Definition downTo (d : dir) (pn : path * node) : path * node := (d :: fst pn, snd pn).

(** The leaves with the pointers to them, left to right. *)
Fixpoint leafPaths (t : node) : list (path * node) :=
  match Left t with
  | None => [([], t)]
  | Some l =>
      map (downTo L) (leafPaths l) ++
      match Right t with Some r => map (downTo R) (leafPaths r) | None => [] end
  end.

(** The candidate a leaf makes for [size]: none if it is used or too
    small, else itself with the smaller of the two slacks as score. *)
Definition candidateOf (size : Point) (pn : path * node) : option nodeCandidate :=
  if negb (Used (snd pn)) && (X size <=? Dx (Rect (snd pn))) && (Y size <=? Dy (Rect (snd pn)))
  then Some (mkCandidate (fst pn)
               (Z.min (slackX (Rect (snd pn)) size) (slackY (Rect (snd pn)) size)))
  else None.

Definition candidatesOf (size : Point) (t : node) : list nodeCandidate :=
  omap (candidateOf size) (leafPaths t).

(** The extents of a split node are what Go's [Dx] and [Dy] return for
    it without wrap-around. *)
Definition splitRepr (n : node) : Prop :=
  hasChildren n -> 0 <= Dx (Rect n) /\ 0 <= Dy (Rect n).

(** ** A round of the packer, in the words of the contract *)

(** A sprite the packer can handle: extents that Go's [Dx] and [Dy]
    report as non-negative and that leave room for the padding. *)
Definition spriteOk (img : AtlasImage) : Prop :=
  0 <= Dx (Bounds (Image img)) < int_max /\ 0 <= Dy (Bounds (Image img)) < int_max.

(** The choice between the running best and the next pair met. *)
Definition pick (b q : best) : best :=
  if (fst b <? 0) || (Score (snd q) <? Score (snd b)) then q else b.

(** All (sprite index, candidate) pairs of a round in the order the two
    loops meet them, the sprites counted from [i]. *)
Fixpoint pairsFrom (st : list AtlasImage) (t : node) (imgs : list nat) (i : Z) : list best :=
  match imgs with
  | [] => []
  | p :: imgs' =>
      match st !! p with
      | Some img => map (pair i) (candidatesOf (paddedSize img) t)
      | None => []
      end ++ pairsFrom st t imgs' (i + 1)
  end.

Definition roundPairs (s : packState) : list best :=
  pairsFrom (store s) (root s) (images s) 0.

(** [b] is the first pair of lowest score in [ps]. *)
Definition firstLowest (b : best) (ps : list best) : Prop :=
  exists pre post,
    ps = pre ++ b :: post /\
    (forall q, q ∈ pre -> Score (snd b) < Score (snd q)) /\
    (forall q, q ∈ post -> Score (snd b) <= Score (snd q)).

(** [images[bestImage] = images[len(images)-1]; images = images[0:len(images)-1]] *)
Definition swapRemove (imgs : list nat) (i : nat) (last : nat) : list nat :=
  take (length imgs - 1)%nat (<[i := last]> imgs).

(** ** The state of the packer between rounds *)

(** The padded rectangle of a placed sprite: from its position, its
    size plus one on each axis. *)
Definition paddedRect (img : AtlasImage) : Rectangle :=
  cornerOf (mkRectangle (AtlasPos img) (AtlasPos img)) (paddedSize img).

(** The same sprite but for its position. *)
Definition sameSprite (x y : AtlasImage) : Prop :=
  Path x = Path y /\ OrgBounds x = OrgBounds y /\ Image x = Image y.

(** Sprite [i] sits in the used leaf that [p] points to. *)
Definition placedAt (s : packState) (i : nat) (p : path) : Prop :=
  exists img leaf,
    store s !! i = Some img /\ deref p (root s) = Some leaf /\
    Used leaf = true /\ Left leaf = None /\ Right leaf = None /\
    Rect leaf = paddedRect img.

(** What holds of the state of [PackImages] on [a] and [atlasSize]
    before and after every round. *)
Record packInv (a : Atlas) (atlasSize : Point) (s : packState) : Prop := mkPackInv {
  inv_store : Forall2 sameSprite (Images a) (store s);
  inv_nodup : NoDup (images s);
  inv_unplaced : forall i, i ∈ images s ->
    is_Some (Images a !! i) /\ store s !! i = Images a !! i;
  inv_tree : everyNode nodeOk (root s);
  inv_used : everyNode splitUsed (root s);
  inv_repr : everyNode splitRepr (root s);
  inv_root : Rect (root s) = image.Rect 1 1 (X atlasSize) (Y atlasSize);
  inv_placed : exists f : nat -> path,
    (forall i, (i < length (Images a))%nat -> i ∉ images s -> placedAt s i (f i)) /\
    (forall i j, (i < length (Images a))%nat -> (j < length (Images a))%nat ->
       i ∉ images s -> j ∉ images s -> i <> j -> f i <> f j)
}.

(** [s'] is the state some rounds after [s]. *)
Inductive rounds (fuel : nat) (s : packState) : packState -> Prop :=
| rounds_none : rounds fuel s s
| rounds_more s' s'' :
    rounds fuel s s' -> round fuel s' = Ret (Some s'') -> rounds fuel s s''.

(** The state a round leaves when it commits the pair [b]: sprite [p],
    until then [img], into the leaf [leaf]. *)
Definition roundCommits (fuel : nat) (s : packState) (b : best) (p : nat) (img : AtlasImage)
    (leaf : node) (s' : packState) : Prop :=
  images s !! Z.to_nat (fst b) = Some p /\
  store s !! p = Some img /\
  deref (Candidate (snd b)) (root s) = Some leaf /\
  Left leaf = None /\ Used leaf = false /\ fits (paddedSize img) (Rect leaf) /\
  exists root' last,
    InsertAt fuel (Candidate (snd b)) (paddedSize img) (root s) =
      Ret (root', cornerOf (Rect leaf) (paddedSize img)) /\
    images s !! (length (images s) - 1)%nat = Some last /\
    s' = mkPackState (swapRemove (images s) (Z.to_nat (fst b)) last)
           (<[p := setAtlasPos img (Min (Rect leaf))]> (store s)) root'.

(** ** The canvas ([SaveAtlasImage]) *)

(** [image.Rect(0, 0, atlasSize.X, atlasSize.Y)] *)
Definition canvasRect (atlasSize : Point) : Rectangle :=
  image.Rect 0 0 (X atlasSize) (Y atlasSize).

(** The rectangle of the canvas a sprite is drawn into. *)
Definition dstrect (img : AtlasImage) : Rectangle :=
  image.Rect (X (AtlasPos img)) (Y (AtlasPos img))
    (iadd (X (AtlasPos img)) (Dx (Bounds (Image img))))
    (iadd (Y (AtlasPos img)) (Dy (Bounds (Image img)))).

(** ** Sample inputs *)

(** [image.NewRGBA(image.Rect(0, 0, w, h))]: all pixels transparent. *)
Definition blankRGBA (w h : Z) : RGBA :=
  mkRGBA (replicate (Z.to_nat (4 * w * h)) Byte.x00) (4 * w) (image.Rect 0 0 w h).

(** A [w] by [h] sprite not yet placed. *)
Definition blankSprite (w h : Z) : AtlasImage :=
  mkAtlasImage String.EmptyString (image.Rect 0 0 w h) (blankRGBA w h) (Pt 0 0).

(** Every node of [t] is still in [t'], at the same place and with the
    same rectangle, and used if it was. *)
Definition treeKeeps (t t' : node) : Prop :=
  forall q n, deref q t = Some n ->
    exists n', deref q t' = Some n' /\ Rect n' = Rect n /\ (Used n = true -> Used n' = true).

(** ** Pixels, in the words of the contract *)

(** Where the pixel at [(x, y)] starts in [Pix], without wrap-around. *)
Definition offsetOf (p : RGBA) (x y : Z) : Z :=
  (y - Y (Min (Bounds p))) * Stride p + (x - X (Min (Bounds p))) * 4.

(** The four bytes of the pixel at [(x, y)]. *)
Definition pixelAt (p : RGBA) (x y : Z) : list Byte.byte :=
  take 4 (drop (Z.to_nat (offsetOf p x y)) (Pix p)).

(** Its alpha. *)
Definition alphaAt (p : RGBA) (x y : Z) : Z :=
  match Pix p !! Z.to_nat (offsetOf p x y + 3) with
  | Some a => uint32 a
  | None => 0
  end.

(** A pixel of the image that is not fully transparent. *)
Definition visible (p : RGBA) (x y : Z) : Prop :=
  inRect x y (Bounds p) /\ alphaAt p x y <> 0.

(** An image with at least one pixel whose buffer holds all its rows:
    what [image.NewRGBA] and [SubImage] make. *)
Definition wfRGBA (p : RGBA) : Prop :=
  let b := Bounds p in
  let w := X (Max b) - X (Min b) in
  let h := Y (Max b) - Y (Min b) in
  int_rect b /\ 1 <= w /\ 1 <= h /\
  is_int (Stride p) /\ 4 * w <= Stride p /\
  (h - 1) * Stride p + 4 * w <= Z.of_nat (length (Pix p)) /\
  Z.of_nat (length (Pix p)) <= int_max.

(** [m] is the largest alpha of the image. *)
Definition isMaxAlpha (p : RGBA) (m : Z) : Prop :=
  (forall x y, inRect x y (Bounds p) -> alphaAt p x y <= m) /\
  (exists x y, inRect x y (Bounds p) /\ alphaAt p x y = m).

(** [r] is a rectangle of at least one pixel inside [b]. *)
Definition subRect (r b : Rectangle) : Prop :=
  inside r b /\ X (Min r) < X (Max r) /\ Y (Min r) < Y (Max r).

(** ** The four trimming loops, in the words of the contract *)

Inductive edge : Type := RightE | LeftE | BottomE | TopE.

(** The extent of [t] on the axis the edge moves along. *)
Definition extentOf (e : edge) (t : Rectangle) : Z :=
  match e with
  | RightE | LeftE => X (Max t) - X (Min t)
  | BottomE | TopE => Y (Max t) - Y (Min t)
  end.

(** The strip of [t], one pixel thick, just inside the edge. *)
Definition stripOf (e : edge) (t : Rectangle) : Rectangle :=
  match e with
  | RightE => mkRectangle (Pt (X (Max t) - 1) (Y (Min t))) (Max t)
  | LeftE => mkRectangle (Min t) (Pt (X (Min t) + 1) (Y (Max t)))
  | BottomE => mkRectangle (Pt (X (Min t)) (Y (Max t) - 1)) (Max t)
  | TopE => mkRectangle (Min t) (Pt (X (Max t)) (Y (Min t) + 1))
  end.

(** [t] with the edge moved one pixel inward. *)
Definition shrink (e : edge) (t : Rectangle) : Rectangle :=
  match e with
  | RightE => setMaxX t (X (Max t) - 1)
  | LeftE => setMinX t (X (Min t) + 1)
  | BottomE => setMaxY t (Y (Max t) - 1)
  | TopE => setMinY t (Y (Min t) + 1)
  end.

(** [t] is [t0] but for the place of the edge. *)
Definition sameBut (e : edge) (t0 t : Rectangle) : Prop :=
  match e with
  | RightE => Min t = Min t0 /\ Y (Max t) = Y (Max t0)
  | LeftE => Max t = Max t0 /\ Y (Min t) = Y (Min t0)
  | BottomE => Min t = Min t0 /\ X (Max t) = X (Max t0)
  | TopE => Max t = Max t0 /\ X (Min t) = X (Min t0)
  end.

(** The loop of [TrimImage] that moves the edge. *)
Definition trimEdge (e : edge) : nat -> RGBA -> Rectangle -> outcome Rectangle :=
  match e with
  | RightE => trimRight
  | LeftE => trimLeft
  | BottomE => trimBottom
  | TopE => trimTop
  end.

(** The guard and the body of that loop, as the code computes them. *)
Definition edgeGuard (e : edge) (src : RGBA) (trim : Rectangle) : outcome bool :=
  match e with
  | RightE =>
      stripIsClear src (isub (X (Max trim)) (X (Min trim)))
        (image.Rect (isub (X (Max trim)) 1) (Y (Min trim)) (X (Max trim)) (Y (Max trim)))
  | LeftE =>
      stripIsClear src (isub (X (Max trim)) (X (Min trim)))
        (image.Rect (X (Min trim)) (Y (Min trim)) (iadd (X (Min trim)) 1) (Y (Max trim)))
  | BottomE =>
      stripIsClear src (isub (Y (Max trim)) (Y (Min trim)))
        (image.Rect (X (Min trim)) (isub (Y (Max trim)) 1) (X (Max trim)) (Y (Max trim)))
  | TopE =>
      stripIsClear src (isub (Y (Max trim)) (Y (Min trim)))
        (image.Rect (X (Min trim)) (Y (Min trim)) (X (Max trim)) (iadd (Y (Min trim)) 1))
  end.

Definition edgeBody (e : edge) (trim : Rectangle) : Rectangle :=
  match e with
  | RightE => setMaxX trim (isub (X (Max trim)) 1)
  | LeftE => setMinX trim (iadd (X (Min trim)) 1)
  | BottomE => setMaxY trim (isub (Y (Max trim)) 1)
  | TopE => setMinY trim (iadd (Y (Min trim)) 1)
  end.

(** The outcome of a guard as a truth value. *)
Definition holds (c : outcome bool) : bool :=
  match c with Ret b => b | _ => false end.

(** A 4 by 3 image with two visible pixels, at (1,1) and (2,1). *)
Definition sampleRGBA : RGBA :=
  mkRGBA
    (flat_map (fun a => [Byte.x10; Byte.x20; Byte.x30; a])
       [Byte.x00; Byte.x00; Byte.x00; Byte.x00;
        Byte.x00; Byte.x01; Byte.xff; Byte.x00;
        Byte.x00; Byte.x00; Byte.x00; Byte.x00])
    16 (image.Rect 0 0 4 3).

(** A 2 by 2 image without transparency. *)
Definition opaqueRGBA : RGBA :=
  mkRGBA (flat_map (fun a => [Byte.x10; Byte.x20; Byte.x30; a])
            [Byte.xff; Byte.xff; Byte.xff; Byte.xff])
    8 (image.Rect 0 0 2 2).

(** ** Areas *)

(** The number of pixels of a rectangle with ordered corners. *)
Definition area (r : Rectangle) : Z :=
  (X (Max r) - X (Min r)) * (Y (Max r) - Y (Min r)).

Definition sumZ (l : list Z) : Z := foldr Z.add 0 l.

(** The pixels a sprite takes with its padding. *)
Definition paddedArea (img : AtlasImage) : Z :=
  (Dx (Bounds (Image img)) + 1) * (Dy (Bounds (Image img)) + 1).

(** The area of the node a pointer designates. *)
Definition areaAt (t : node) (p : path) : Z :=
  match deref p t with Some n => area (Rect n) | None => 0 end.

(** [Rectangle.Inset]: [n] taken off each side, or the middle of an
    axis that is too short; the division rounds towards zero. *)
Definition Inset (r : Rectangle) (n : Z) : Rectangle :=
  let '(x0, x1) :=
    if Dx r <? imul 2 n
    then let m := Z.quot (iadd (X (Min r)) (X (Max r))) 2 in (m, m)
    else (iadd (X (Min r)) n, isub (X (Max r)) n) in
  let '(y0, y1) :=
    if Dy r <? imul 2 n
    then let m := Z.quot (iadd (Y (Min r)) (Y (Max r))) 2 in (m, m)
    else (iadd (Y (Min r)) n, isub (Y (Max r)) n) in
  mkRectangle (Pt x0 y0) (Pt x1 y1).

(** The rectangle [SaveAtlasImage] clears around a sprite when the
    padding is drawn: [dstrect.Inset(-1)]. *)
Definition outline (img : AtlasImage) : Rectangle := Inset (dstrect img) (-1).

(** The part of the canvas the packer hands out. *)
Definition usable (atlasSize : Point) : Rectangle :=
  image.Rect 1 1 (X atlasSize) (Y atlasSize).

(** ** Loading sprites *)

(** [Image.Bounds] *)
Definition boundsOf (i : image.Image) : Rectangle :=
  match i with
  | ImageRGBA p => Bounds p
  | ImageOther b => b
  end.

(** [image.NewRGBA]: a buffer of [4*w*h] zero bytes, which [make]
    refuses when the length is negative. *)
Definition NewRGBA (r : Rectangle) : outcome RGBA :=
  let w := Dx r in
  let h := Dy r in
  let n := imul (imul 4 w) h in
  if n <? 0 then Panic
  else Ret (mkRGBA (replicate (Z.to_nat n) Byte.x00) (imul 4 w) r).

Definition PixelArea (i : AtlasImage) : Z :=
  imul (Dx (Bounds (Image i))) (Dy (Bounds (Image i))).

Definition ManhattenSize (i : AtlasImage) : Z :=
  iadd (Dx (Bounds (Image i))) (Dy (Bounds (Image i))).

Definition NewAtlas : Atlas := mkAtlas [].

Section Files.

(** What the program gets from outside the source:
    - [decodeFile path]: [os.Open] followed by [image.Decode], the error
      of the one or of the other, or the decoded image;
    - [drawOver dst src]: the bytes of [dst.Pix] after
      [draw.Draw(dst, dst.Bounds(), src, image.ZP, draw.Over)];
    - [Glob]: [filepath.Glob]. *)
Variable decodeFile : String.string -> error + image.Image.
Variable drawOver : RGBA -> image.Image -> list Byte.byte.
Variable Glob : String.string -> error + list String.string.

(** [a.AddImage(path)]: the atlas afterwards and the error returned. *)
Definition AddImage (fuel : nat) (a : Atlas) (path : String.string)
  : outcome (Atlas * option error) :=
  match decodeFile path with
  | inl err => Ret (a, Some err)
  | inr rawimg =>
      blank ← NewRGBA (boundsOf rawimg);
      let converted := mkRGBA (drawOver blank rawimg) (Stride blank) (Bounds blank) in
      trimmed ← TrimImage fuel converted;
      let img := mkAtlasImage path (boundsOf rawimg) trimmed (Pt 0 0) in
      Ret (mkAtlas (Images a ++ [img]), None)
  end.

(** The loop of [AddImages] over the matches. *)
Fixpoint addMatches (fuel : nat) (a : Atlas) (matches : list String.string)
  : outcome (Atlas * option error) :=
  match matches with
  | [] => Ret (a, None)
  | m :: matches' =>
      '(a', err) ← AddImage fuel a m;
      match err with
      | Some e => Ret (a', Some e)
      | None => addMatches fuel a' matches'
      end
  end.

Definition AddImages (fuel : nat) (a : Atlas) (pattern : String.string)
  : outcome (Atlas * option error) :=
  match Glob pattern with
  | inl err => Ret (a, Some err)
  | inr matches => addMatches fuel a matches
  end.

(** The loop of [main] over the arguments: an error makes it panic. *)
Fixpoint addArgs (fuel : nat) (a : Atlas) (args : list String.string) : outcome Atlas :=
  match args with
  | [] => Ret a
  | arg :: args' =>
      '(a', err) ← AddImages fuel a arg;
      match err with
      | Some _ => Panic
      | None => addArgs fuel a' args'
      end
  end.

End Files.

(** A decoded image the loader can take: at least one pixel, 64-bit
    corners, and a buffer of four bytes a pixel whose length is an
    [int]. *)
Definition decodedOk (rawimg : image.Image) : Prop :=
  let b := boundsOf rawimg in
  let w := X (Max b) - X (Min b) in
  let h := Y (Max b) - Y (Min b) in
  int_rect b /\ 1 <= w /\ 1 <= h /\ 4 * w * h <= int_max.

(** A sprite as [AddImage] makes it: not yet placed, trimmed to a
    rectangle of at least one pixel inside the bounds of the original,
    whose extents are 64-bit integers. *)
Definition loaded (img : AtlasImage) : Prop :=
  AtlasPos img = Pt 0 0 /\ wfRGBA (Image img) /\
  subRect (Bounds (Image img)) (OrgBounds img) /\
  is_int (X (Max (OrgBounds img)) - X (Min (OrgBounds img))) /\
  is_int (Y (Max (OrgBounds img)) - Y (Min (OrgBounds img))).

(** A decoder for the samples: every file holds the same 4 by 3 image. *)
Definition sampleDecode (path : String.string) : error + image.Image :=
  inr (ImageRGBA sampleRGBA).

(** A [draw.Draw] for the samples, which copies the pixels of an RGBA
    source of the same buffer length. *)
Definition sampleDraw (dst : RGBA) (src : image.Image) : list Byte.byte :=
  match src with
  | ImageRGBA p => if (length (Pix p) =? length (Pix dst))%nat then Pix p else Pix dst
  | ImageOther _ => Pix dst
  end.

#[local] Open Scope string_scope.
Definition samplePath : String.string := "a.png".
Definition samplePattern : String.string := "*.png".
Definition sampleMatches : list String.string := ["a.png"; "b.png"].
#[local] Close Scope string_scope.

Definition sampleGlob (pattern : String.string) : error + list String.string :=
  inr sampleMatches.

(** ** The metadata *)

(** The records of the package that go to the JSON file. Its [Point] is
    not [image.Point]. *)
Module meta.

Record Dimension : Type := mkDimension { Width : Z; Height : Z }.

Record Point : Type := mkPoint { X : Z; Y : Z }.

Record ImageMeta : Type := mkImageMeta {
  Position : Point;
  Size : Dimension;
  OriginalSize : Dimension;
  Offset : Point
}.

Module AtlasMeta.
Record t : Type := mk {
  Size : Dimension;
  Images : gmap.gmap String.string ImageMeta
}.
End AtlasMeta.

End meta.

(** [strings.Split(s, sep)] for a separator of one byte. *)
Fixpoint Split (s : String.string) (sep : Ascii.ascii) : list String.string :=
  match s with
  | String.EmptyString => [String.EmptyString]
  | String.String c s' =>
      if Ascii.eqb c sep then String.EmptyString :: Split s' sep
      else match Split s' sep with
           | [] => [String.String c String.EmptyString]
           | p :: ps => String.String c p :: ps
           end
  end.

(** [s[i:]] on a slice of strings: out of range panics. *)
Definition partsFrom (s : list String.string) (i : Z) : outcome (list String.string) :=
  if (i <? 0) || (Z.of_nat (length s) <? i) then Panic
  else Ret (drop (Z.to_nat i) s).

(** The record [AtlasMeta] writes for a sprite. *)
Definition metaOf (img : AtlasImage) : meta.ImageMeta :=
  meta.mkImageMeta
    (meta.mkPoint (X (AtlasPos img)) (Y (AtlasPos img)))
    (meta.mkDimension (Dx (Bounds (Image img))) (Dy (Bounds (Image img))))
    (meta.mkDimension (Dx (OrgBounds img)) (Dy (OrgBounds img)))
    (meta.mkPoint (X (Min (Bounds (Image img)))) (Y (Min (Bounds (Image img))))).

Section Meta.

(** What depends on the platform and on Go's library:
    [filepath.Separator], one byte, and [filepath.Join]. *)
Variable Separator : Ascii.ascii.
Variable filepathJoin : list String.string -> String.string.

(** The key of a sprite in [meta.Images]. *)
Definition metaPath (strip : Z) (img : AtlasImage) : outcome String.string :=
  parts ← partsFrom (Split (Path img) Separator) strip;
  Ret (filepathJoin parts).

(** The loop of [AtlasMeta] over the sprites. *)
Fixpoint metaImages (strip : Z) (imgs : list AtlasImage)
    (m : gmap.gmap String.string meta.ImageMeta)
  : outcome (gmap.gmap String.string meta.ImageMeta) :=
  match imgs with
  | [] => Ret m
  | img :: imgs' =>
      path ← metaPath strip img;
      metaImages strip imgs' (<[path := metaOf img]> m)
  end.

Definition AtlasMeta (a : Atlas) (strip : Z) (atlasSize : Point) : outcome meta.AtlasMeta.t :=
  images ← metaImages strip (Images a) ∅;
  Ret (meta.AtlasMeta.mk (meta.mkDimension (X atlasSize) (Y atlasSize)) images).

End Meta.

(** The number of separators in a path. *)
Fixpoint separators (s : String.string) (sep : Ascii.ascii) : nat :=
  match s with
  | String.EmptyString => 0
  | String.String c s' => (if Ascii.eqb c sep then 1 else 0) + separators s' sep
  end.

(** [strip] elements can be taken off the path of the sprite. *)
Definition strippable (sep : Ascii.ascii) (strip : Z) (img : AtlasImage) : Prop :=
  0 <= strip <= Z.of_nat (separators (Path img) sep) + 1.

(** The key of a sprite whose path is long enough. *)
Definition keyOf (sep : Ascii.ascii) (filepathJoin : list String.string -> String.string)
    (strip : Z) (img : AtlasImage) : String.string :=
  filepathJoin (drop (Z.to_nat strip) (Split (Path img) sep)).

(** The last sprite of a list that has the key [k]. *)
Definition lastWithKey (key : AtlasImage -> String.string) (k : String.string)
    (imgs : list AtlasImage) : option AtlasImage :=
  list.last (filter (fun img => key img = k) imgs).

(** A separator and two paths for the samples. *)
Definition slash : Ascii.ascii := Ascii.ascii_of_nat 47.

#[local] Open Scope string_scope.
Definition deepPath : String.string := "gfx/ui/ok.png".
Definition otherPath : String.string := "img/ui/ok.png".
Definition strippedPath : String.string := "ui/ok.png".
#[local] Close Scope string_scope.

(** A [filepath.Join] for the samples: the elements with the separator
    between them. *)
Definition sampleJoin (elem : list String.string) : String.string :=
  String.concat (String.String slash String.EmptyString) elem.

(** Two loaded sprites. *)
Definition sampleAtlas : Atlas :=
  mkAtlas [mkAtlasImage deepPath (image.Rect 0 0 4 3) sampleRGBA (Pt 0 0);
           mkAtlasImage otherPath (image.Rect 0 0 2 2) opaqueRGBA (Pt 0 0)].

(** ** Names for ActionScript *)

(** A string as the bytes it holds, and back. *)
Definition bytesOf (s : String.string) : list Z :=
  map (fun c => Z.of_N (Ascii.N_of_ascii c)) (String.list_ascii_of_string s).

Definition stringOf (bs : list Z) : String.string :=
  String.string_of_list_ascii (map (fun b => Ascii.ascii_of_N (Z.to_N b)) bs).

Definition inRange (lo hi b : Z) : bool := (lo <=? b) && (b <=? hi).

(** [utf8.RuneError] *)
Definition RuneError : Z := 65533.

(** The second bytes that the leading byte [b0] of a sequence of three
    or four bytes accepts. *)
Definition second (b0 b1 : Z) : bool :=
  if b0 =? 224 then inRange 160 191 b1
  else if b0 =? 237 then inRange 128 159 b1
  else if b0 =? 240 then inRange 144 191 b1
  else if b0 =? 244 then inRange 128 143 b1
  else inRange 128 191 b1.

Definition continuation (b : Z) : bool := inRange 128 191 b.

(** [[]rune(s)]: the runes of the UTF-8 sequences in [s]; a byte that
    starts no valid sequence gives [RuneError] and is passed alone. *)
Fixpoint toRunes (s : list Z) : list Z :=
  match s with
  | [] => []
  | b0 :: s1 =>
      if b0 <? 128 then b0 :: toRunes s1
      else if inRange 194 223 b0 then
        match s1 with
        | b1 :: s2 =>
            if continuation b1
            then Z.lor (Z.shiftl (Z.land b0 31) 6) (Z.land b1 63) :: toRunes s2
            else RuneError :: toRunes s1
        | _ => RuneError :: toRunes s1
        end
      else if inRange 224 239 b0 then
        match s1 with
        | b1 :: b2 :: s3 =>
            if second b0 b1 && continuation b2
            then Z.lor (Z.shiftl (Z.land b0 15) 12)
                   (Z.lor (Z.shiftl (Z.land b1 63) 6) (Z.land b2 63)) :: toRunes s3
            else RuneError :: toRunes s1
        | _ => RuneError :: toRunes s1
        end
      else if inRange 240 244 b0 then
        match s1 with
        | b1 :: b2 :: b3 :: s4 =>
            if second b0 b1 && continuation b2 && continuation b3
            then Z.lor (Z.shiftl (Z.land b0 7) 18)
                   (Z.lor (Z.shiftl (Z.land b1 63) 12)
                      (Z.lor (Z.shiftl (Z.land b2 63) 6) (Z.land b3 63))) :: toRunes s4
            else RuneError :: toRunes s1
        | _ => RuneError :: toRunes s1
        end
      else RuneError :: toRunes s1
  end.

(** The UTF-8 sequence of a rune, that of [RuneError] for what is no
    code point. *)
Definition encodeRune (r : Z) : list Z :=
  if inRange 0 127 r then [r]
  else if inRange 128 2047 r then
    [Z.lor 192 (Z.shiftr r 6); Z.lor 128 (Z.land r 63)]
  else if (r <? 0) || (1114111 <? r) || inRange 55296 57343 r then [239; 191; 189]
  else if r <=? 65535 then
    [Z.lor 224 (Z.shiftr r 12); Z.lor 128 (Z.land (Z.shiftr r 6) 63); Z.lor 128 (Z.land r 63)]
  else
    [Z.lor 240 (Z.shiftr r 18); Z.lor 128 (Z.land (Z.shiftr r 12) 63);
     Z.lor 128 (Z.land (Z.shiftr r 6) 63); Z.lor 128 (Z.land r 63)].

(** [string(r)] *)
Definition ofRunes (r : list Z) : String.string := stringOf (concat (map encodeRune r)).

(** [r[i]] and [r[i] = c]: out of range panics. *)
Definition runeAt (r : list Z) (i : Z) : outcome Z :=
  if i <? 0 then Panic
  else match r !! Z.to_nat i with Some c => Ret c | None => Panic end.

Definition setRune (r : list Z) (i : Z) (c : Z) : outcome (list Z) :=
  if (i <? 0) || (Z.of_nat (length r) <=? i) then Panic
  else Ret (<[Z.to_nat i := c]> r).

(** The test of the loop of [PathAsASVarName]: an ASCII letter or digit. *)
Definition isAlnum (c : Z) : bool :=
  inRange 65 90 c || inRange 97 122 c || inRange 48 57 c.

Definition PathAsASVarName (path : String.string) : outcome String.string :=
  let r := toRunes (bytesOf path) in
  r ← forM (upto (Z.of_nat (length r)))
        (fun i r =>
           c ← runeAt r i;
           if negb (isAlnum c) then setRune r i 95 else Ret r)
        r;
  Ret (ofRunes r).

(** [strings.Replace(s, old, new, -1)] for [old] and [new] of one byte. *)
Fixpoint Replace (s : String.string) (old new : Ascii.ascii) : String.string :=
  match s with
  | String.EmptyString => String.EmptyString
  | String.String c s' =>
      String.String (if Ascii.eqb c old then new else c) (Replace s' old new)
  end.

Definition backslash : Ascii.ascii := Ascii.ascii_of_nat 92.

Definition CleanASPath (path : String.string) : String.string :=
  Replace path backslash slash.

(** The rune the loop leaves in the place of [c]. *)
Definition asVarRune (c : Z) : Z := if isAlnum c then c else 95.

(** [strings.Join(elems, sep)] *)
Definition Join (elems : list String.string) (sep : String.string) : String.string :=
  String.concat sep elems.

(** [s[:i]] and [s[i]] on a slice of strings: out of range panics. *)
Definition partsUpTo (s : list String.string) (i : Z) : outcome (list String.string) :=
  if (i <? 0) || (Z.of_nat (length s) <? i) then Panic
  else Ret (take (Z.to_nat i) s).

Definition partAt (s : list String.string) (i : Z) : outcome String.string :=
  if i <? 0 then Panic
  else match s !! Z.to_nat i with Some p => Ret p | None => Panic end.

Definition dot : Ascii.ascii := Ascii.ascii_of_nat 46.

Definition dotString : String.string := String.String dot String.EmptyString.

(** The package and the class name that [SaveAtlasMetaAsActionScript]
    hands to its templates. *)
Definition as3Names (name : String.string) : outcome (String.string * String.string) :=
  let nameparts := Split name dot in
  package ← partsUpTo nameparts (Z.of_nat (length nameparts) - 1);
  class ← partAt nameparts (Z.of_nat (length nameparts) - 1);
  Ret (Join package dotString, class).

(** A rectangle without pixel: no width or no height. *)
Definition noPixel (r : Rectangle) : Prop :=
  X (Max r) = X (Min r) \/ Y (Max r) = Y (Min r).

(** A rectangle whose corners and extents are 64-bit integers. *)
Definition smallRect (r : Rectangle) : Prop :=
  int_rect r /\ canon r /\
  X (Max r) - X (Min r) <= int_max /\ Y (Max r) - Y (Min r) <= int_max.

(** ** The canvas before the sprites are drawn *)

(** [s[i] = v] on bytes: out of range panics. *)
Definition setByte (s : list Byte.byte) (i : Z) (v : Byte.byte) : outcome (list Byte.byte) :=
  if (i <? 0) || (Z.of_nat (length s) <=? i) then Panic
  else Ret (<[Z.to_nat i := v]> s).

(** [fillRed], [fillGreen], [fillBlue] and [fillAlpha]. *)
Definition fillColour (drawpadding : bool) : list Byte.byte :=
  if drawpadding then [Byte.xff; Byte.x00; Byte.x00; Byte.xff]
  else [Byte.x00; Byte.x00; Byte.x00; Byte.x00].

(** The first part of [SaveAtlasImage]: the new image and the two loops
    that fill it with one colour. *)
Definition fillCanvas (atlasSize : Point) (drawpadding : bool) : outcome RGBA :=
  dstimg ← NewRGBA (image.Rect 0 0 (X atlasSize) (Y atlasSize));
  let fillRed := if drawpadding then Byte.xff else Byte.x00 in
  let fillGreen := Byte.x00 in
  let fillBlue := Byte.x00 in
  let fillAlpha := if drawpadding then Byte.xff else Byte.x00 in
  pix ← forM (upto (Y atlasSize)) (fun y pix =>
           forM (upto (X atlasSize)) (fun x pix =>
             let o := iadd (imul x 4) (imul y (Stride dstimg)) in
             pix ← setByte pix (iadd o 0) fillRed;
             pix ← setByte pix (iadd o 1) fillGreen;
             pix ← setByte pix (iadd o 2) fillBlue;
             setByte pix (iadd o 3) fillAlpha)
             pix)
         (Pix dstimg);
  Ret (mkRGBA pix (Stride dstimg) (Bounds dstimg)).

(** The bytes of [pix] at the places [ks] set to what [g] gives there. *)
Definition paint (g : nat -> Byte.byte) (pix : list Byte.byte) (ks : list nat)
  : list Byte.byte :=
  fold_left (fun pix i => <[i := g i]> pix) ks pix.

(** The byte of a colour that goes to the place [i] of a buffer. *)
Definition channel (colour : list Byte.byte) (i : nat) : Byte.byte :=
  nth (i mod 4) colour Byte.x00.

(** The four places of the pixel in column [x] of row [y]. *)
Definition places (stride : Z) (y x : Z) : list nat :=
  let o := Z.to_nat (x * 4 + y * stride) in [o; (o + 1)%nat; (o + 2)%nat; (o + 3)%nat].

(** ** The atlas image *)

(** What [draw.Draw] reads in [SaveAtlasImage]: an RGBA image, or the
    uniform image of one colour. *)
Inductive drawSource : Type :=
| FromRGBA (p : RGBA)
| FromUniform (colour : list Byte.byte).

(** An image with its buffer rewritten. *)
Definition withPix (p : RGBA) (pix : list Byte.byte) : RGBA :=
  mkRGBA pix (Stride p) (Bounds p).

Definition transparent : list Byte.byte := [Byte.x00; Byte.x00; Byte.x00; Byte.x00].

Section Canvas.

(** [drawSrc dst r src sp]: the bytes of [dst.Pix] after
    [draw.Draw(dst, r, src, sp, draw.Src)]. *)
Variable drawSrc : RGBA -> Rectangle -> drawSource -> Point -> list Byte.byte.

(** One turn of the loop of [SaveAtlasImage] over the sprites. *)
Definition drawSprite (drawpadding : bool) (img : AtlasImage) (dstimg : RGBA) : RGBA :=
  let dstimg :=
    if drawpadding
    then withPix dstimg (drawSrc dstimg (Inset (dstrect img) (-1)) (FromUniform transparent)
                           (Pt 0 0))
    else dstimg in
  withPix dstimg (drawSrc dstimg (dstrect img) (FromRGBA (Image img)) (Min (Bounds (Image img)))).

(** [SaveAtlasImage] up to the image it hands to [png.Encode]. *)
Definition atlasCanvas (a : Atlas) (atlasSize : Point) (drawpadding : bool) : outcome RGBA :=
  dstimg ← fillCanvas atlasSize drawpadding;
  forM (upto (Z.of_nat (length (Images a))))
    (fun i dstimg =>
       img ← load (Images a) (Z.to_nat i);
       Ret (drawSprite drawpadding img dstimg))
    dstimg.

End Canvas.

(** What [draw.Draw] with [draw.Src] does to an RGBA destination: the
    buffer keeps its length; a pixel outside [r] keeps its colour; a
    pixel of [r] gets the colour of the source at the point that lies
    as far from [sp] as the pixel lies from the corner of [r], where
    the source has that point. The bounds of a uniform image are
    -1e9 and 1e9 on both axes. *)
Definition drawsSrc (drawSrc : RGBA -> Rectangle -> drawSource -> Point -> list Byte.byte)
  : Prop :=
  (forall dst r src sp, length (drawSrc dst r src sp) = length (Pix dst)) /\
  (forall dst r src sp x y,
     wfRGBA dst -> inRect x y (Bounds dst) -> ~ inRect x y r ->
     pixelAt (withPix dst (drawSrc dst r src sp)) x y = pixelAt dst x y) /\
  (forall dst r p sp x y,
     wfRGBA dst -> wfRGBA p -> inRect x y (Bounds dst) -> inRect x y r ->
     inRect (X sp + (x - X (Min r))) (Y sp + (y - Y (Min r))) (Bounds p) ->
     pixelAt (withPix dst (drawSrc dst r (FromRGBA p) sp)) x y =
       pixelAt p (X sp + (x - X (Min r))) (Y sp + (y - Y (Min r)))) /\
  (forall dst r colour sp x y,
     wfRGBA dst -> length colour = 4%nat -> inRect x y (Bounds dst) -> inRect x y r ->
     -10^9 <= X sp + (x - X (Min r)) < 10^9 -> -10^9 <= Y sp + (y - Y (Min r)) < 10^9 ->
     pixelAt (withPix dst (drawSrc dst r (FromUniform colour) sp)) x y = colour).

(** The point of the image of a sprite that is drawn at [(x, y)]. *)
Definition spriteX (img : AtlasImage) (x : Z) : Z :=
  X (Min (Bounds (Image img))) + (x - X (AtlasPos img)).
Definition spriteY (img : AtlasImage) (y : Z) : Z :=
  Y (Min (Bounds (Image img))) + (y - Y (AtlasPos img)).

(** The canvas after the first [k] of the sprites [imgs] are drawn. *)
Definition drawn (imgs : list AtlasImage) (atlasSize : Point) (drawpadding : bool)
    (k : nat) (c : RGBA) : Prop :=
  wfRGBA c /\ Bounds c = canvasRect atlasSize /\
  (forall j img x y, (j < k)%nat -> imgs !! j = Some img -> inRect x y (dstrect img) ->
     pixelAt c x y = pixelAt (Image img) (spriteX img x) (spriteY img y)) /\
  (forall x y, inRect x y (canvasRect atlasSize) ->
     (forall j img, (j < k)%nat -> imgs !! j = Some img -> ~ inRect x y (dstrect img)) ->
     (drawpadding = true ->
      (forall j img, (j < k)%nat -> imgs !! j = Some img -> ~ inRect x y (outline img)) ->
      pixelAt c x y = fillColour true) /\
     (drawpadding = false \/
      (exists j img, (j < k)%nat /\ imgs !! j = Some img /\ inRect x y (outline img)) ->
      pixelAt c x y = transparent)).

(** The sprites lie on the canvas, apart from one another. *)
Definition laidOut (imgs : list AtlasImage) (atlasSize : Point) : Prop :=
  (forall i img, imgs !! i = Some img ->
     wfRGBA (Image img) /\
     dstrect img = mkRectangle (AtlasPos img)
                     (Pt (X (AtlasPos img) + (X (Max (Bounds (Image img))) -
                                              X (Min (Bounds (Image img)))))
                         (Y (AtlasPos img) + (Y (Max (Bounds (Image img))) -
                                              Y (Min (Bounds (Image img)))))) /\
     inside (dstrect img) (outline img) /\
     inside (outline img) (canvasRect atlasSize)) /\
  (forall i j img_i img_j, i <> j -> imgs !! i = Some img_i -> imgs !! j = Some img_j ->
     disjoint (outline img_i) (dstrect img_j)).

(** [Point.In] as a test. *)
Definition inRectb (x y : Z) (r : Rectangle) : bool :=
  (X (Min r) <=? x) && (x <? X (Max r)) && (Y (Min r) <=? y) && (y <? Y (Max r)).

(** A [draw.Draw] for the samples, byte by byte: the byte [k] of the
    buffer is the channel [c] of the pixel [(x, y)]; it is taken from
    the source if the pixel lies in [r] and the source has its point. *)
Definition sampleDrawByte (dst : RGBA) (r : Rectangle) (src : drawSource) (sp : Point)
    (k : nat) (b : Byte.byte) : Byte.byte :=
  let k := Z.of_nat k in
  let x := X (Min (Bounds dst)) + (k mod Stride dst) / 4 in
  let y := Y (Min (Bounds dst)) + k / Stride dst in
  let c := Z.to_nat ((k mod Stride dst) mod 4) in
  if inRectb x y (Bounds dst) && inRectb x y r then
    match src with
    | FromUniform colour => nth c colour b
    | FromRGBA p =>
        let sx := X sp + (x - X (Min r)) in
        let sy := Y sp + (y - Y (Min r)) in
        if inRectb sx sy (Bounds p)
        then nth (Z.to_nat (offsetOf p sx sy) + c) (Pix p) b
        else b
    end
  else b.

Definition sampleDrawSrc (dst : RGBA) (r : Rectangle) (src : drawSource) (sp : Point)
  : list Byte.byte :=
  imap (sampleDrawByte dst r src sp) (Pix dst).

(** ** Images without alpha channel *)




(** * Properties *)

(** ** Integers and rectangles *)

Ltac int_lia :=
  unfold iadd, isub, imul, wrap, is_int, int_min, int_max in *;
  Z.div_mod_to_equations; lia.

Lemma wrap_is_int (z : Z) : is_int (wrap z).
Proof. int_lia. Qed.

(** ** Induction on trees *)

Section node_induction.
Variable P : node -> Prop.
Hypothesis Hnode : forall l r rc u,
  from_option P True l -> from_option P True r -> P (mkNode l r rc u).

Fixpoint node_ind (n : node) : P n :=
  match n with
  | mkNode l r rc u =>
      Hnode l r rc u
        (match l return from_option P True l with Some l' => node_ind l' | None => I end)
        (match r return from_option P True r with Some r' => node_ind r' | None => I end)
  end.
End node_induction.

Lemma everyNode_here (P : node -> Prop) (t : node) : everyNode P t -> P t.
Proof. intros H; exact (H [] t eq_refl). Qed.

Lemma everyNode_child (P : node -> Prop) (d : dir) (t c : node) :
  everyNode P t -> child d t = Some c -> everyNode P c.
Proof. intros H Hc p n Hp. apply (H (d :: p)). simpl. now rewrite Hc. Qed.

Lemma everyNode_intro (P : node -> Prop) (t : node) :
  P t -> (forall d c, child d t = Some c -> everyNode P c) -> everyNode P t.
Proof.
  intros Ht Hc [|d p] n; simpl.
  - now intros [= <-].
  - destruct (child d t) as [c|] eqn:E; [|discriminate]. intros Hp. exact (Hc d c E p n Hp).
Qed.

Lemma everyNode_fresh (P : node -> Prop) (r : Rectangle) : P (fresh r) -> everyNode P (fresh r).
Proof. intros H. apply everyNode_intro; [exact H|]. intros [] c; discriminate. Qed.

Lemma child_setChild (d d' : dir) (c t : node) :
  child d' (setChild d c t) = if decide (d' = d) then Some c else child d' t.
Proof. destruct d, d'; simpl; try reflexivity; case_decide; congruence. Qed.

(** ** Used flags and children *)

Lemma Insert_splitUsed (fuel : nat) (size : Point) (n n' : node) (r : Rectangle) :
  everyNode splitUsed n ->
  Insert fuel size n = Ret (n', r) ->
  everyNode splitUsed n'.
Proof.
  revert n n' r. induction fuel as [|fuel IH]; intros n n' r Hn; simpl; [discriminate|].
  destruct (Used n); [discriminate|].
  destruct (_ || _); [discriminate|].
  destruct (_ && _).
  - intros [= <- <-]. apply everyNode_intro.
    + intros _. reflexivity.
    + intros d c Hc. apply (everyNode_child _ d n); [exact Hn|]. destruct d; exact Hc.
  - destruct (splitRects _ _ _) as [lr rr].
    destruct (Insert fuel size (fresh lr)) as [[l' res]| |] eqn:E; simpl; try discriminate.
    intros [= <- <-]. apply everyNode_intro.
    + intros _. reflexivity.
    + intros [] c; simpl; intros [= <-].
      * apply (IH _ _ _ (everyNode_fresh splitUsed lr ltac:(intros [[? [=]]|[? [=]]])) E).
      * apply everyNode_fresh. intros [[? [=]]|[? [=]]].
Qed.

Lemma InsertAt_splitUsed (fuel : nat) (p : path) (size : Point) (t t' : node) (r : Rectangle) :
  everyNode splitUsed t ->
  InsertAt fuel p size t = Ret (t', r) ->
  everyNode splitUsed t'.
Proof.
  revert t t' r. induction p as [|d p IH]; intros t t' r Ht; simpl.
  - apply Insert_splitUsed, Ht.
  - destruct (child d t) as [c|] eqn:Ec; [|discriminate].
    destruct (InsertAt fuel p size c) as [[c' res]| |] eqn:E; simpl; try discriminate.
    intros [= <- <-].
    assert (Hu : Used t = true).
    { apply (everyNode_here _ _ Ht). destruct d; simpl in Ec; [left|right]; eauto. }
    apply everyNode_intro.
    + intros _. destruct d; exact Hu.
    + intros d' c0. rewrite child_setChild. case_decide as Hd.
      * intros [= <-]. apply (IH c _ _ (everyNode_child _ _ _ _ Ht Ec) E).
      * intros Hc. apply (everyNode_child _ _ _ _ Ht Hc).
Qed.





(** ** One step of [Insert] *)

Ltac rect_unfold :=
  unfold fits, roomy, isSize, canon, int_rect, int_point, slackX, slackY, leftOfV, rightOfV,
    topOfH, bottomOfH, cornerOf, Sub, Size, Dx, Dy in *; simpl in *.

Lemma fits_roomy (r : Rectangle) (size : Point) :
  canon r -> int_rect r -> isSize size -> fits size r -> roomy size r.
Proof.
  destruct r as [[x0 y0] [x1 y1]], size as [w h]. rect_unfold.
  intros. split; int_lia.
Qed.

Lemma roomy_slack (r : Rectangle) (size : Point) :
  canon r -> int_rect r -> isSize size -> roomy size r ->
  Sub (Size r) size = Pt (slackX r size) (slackY r size) /\
  0 <= slackX r size /\ 0 <= slackY r size /\
  is_int (slackX r size) /\ is_int (slackY r size).
Proof.
  destruct r as [[x0 y0] [x1 y1]], size as [w h]. rect_unfold.
  intros. repeat split; try (f_equal; int_lia); int_lia.
Qed.

Lemma splitRects_roomy (r : Rectangle) (size : Point) :
  canon r -> int_rect r -> isSize size -> roomy size r ->
  splitRects r size (Pt (slackX r size) (slackY r size)) =
    if slackY r size <=? slackX r size
    then (leftOfV r size, rightOfV r size)
    else (topOfH r size, bottomOfH r size).
Proof.
  destruct r as [[x0 y0] [x1 y1]], size as [w h]. rect_unfold.
  intros Hc Hi Hs Hf. unfold splitRects, image.Rect; simpl.
  assert (Hx : iadd x0 w = x0 + w) by int_lia.
  assert (Hy : iadd y0 h = y0 + h) by int_lia.
  rewrite Hx, Hy.
  assert (x0 + w <= x1) by int_lia.
  assert (y0 + h <= y1) by int_lia.
  destruct (_ <=? _);
    repeat match goal with
    | |- context [?a <? ?b] => destruct (Z.ltb_spec a b); try lia
    end; reflexivity.
Qed.

Lemma Insert_unfold (fuel : nat) (size : Point) (n : node) :
  Used n = false ->
  canon (Rect n) -> int_rect (Rect n) -> isSize size -> roomy size (Rect n) ->
  Insert (S fuel) size n =
    if (slackX (Rect n) size =? 0) && (slackY (Rect n) size =? 0)
    then Ret (markUsed n, Rect n)
    else
      let '(lr, rr) :=
        if slackY (Rect n) size <=? slackX (Rect n) size
        then (leftOfV (Rect n) size, rightOfV (Rect n) size)
        else (topOfH (Rect n) size, bottomOfH (Rect n) size) in
      '(l', res) ← Insert fuel size (fresh lr);
      Ret (mkNode (Some l') (Some (fresh rr)) (Rect n) true, res).
Proof.
  intros Hu Hc Hi Hs Hf. cbn [Insert]. rewrite Hu.
  destruct (roomy_slack _ _ Hc Hi Hs Hf) as (-> & H0x & H0y & _). cbv zeta. cbn [X Y].
  destruct (Z.ltb_spec (slackX (Rect n) size) 0); [lia|].
  destruct (Z.ltb_spec (slackY (Rect n) size) 0); [lia|]. cbn [orb].
  destruct (_ && _); [reflexivity|].
  rewrite (splitRects_roomy _ _ Hc Hi Hs Hf). reflexivity.
Qed.

(** The left part of either cut is again a well-formed rectangle in
    which the size fits. *)
Lemma leftOfV_roomy (r : Rectangle) (size : Point) :
  canon r -> int_rect r -> isSize size -> roomy size r ->
  canon (leftOfV r size) /\ int_rect (leftOfV r size) /\ roomy size (leftOfV r size) /\
  slackX (leftOfV r size) size = 0 /\ slackY (leftOfV r size) size = slackY r size.
Proof.
  destruct r as [[x0 y0] [x1 y1]], size as [w h]. rect_unfold.
  intros. repeat split; int_lia.
Qed.

Lemma topOfH_roomy (r : Rectangle) (size : Point) :
  canon r -> int_rect r -> isSize size -> roomy size r ->
  canon (topOfH r size) /\ int_rect (topOfH r size) /\ roomy size (topOfH r size) /\
  slackX (topOfH r size) size = slackX r size /\ slackY (topOfH r size) size = 0.
Proof.
  destruct r as [[x0 y0] [x1 y1]], size as [w h]. rect_unfold.
  intros. repeat split; int_lia.
Qed.

Lemma cornerOf_exact (r : Rectangle) (size : Point) :
  slackX r size = 0 -> slackY r size = 0 -> cornerOf r size = r.
Proof.
  destruct r as [[x0 y0] [x1 y1]], size as [w h]. rect_unfold.
  intros. do 2 f_equal; lia.
Qed.

(** [Insert] returns, within one call per loose axis and one more, the
    corner rectangle of the requested size. *)
Lemma Insert_returns (m fuel : nat) (size : Point) (n : node) :
  Used n = false ->
  canon (Rect n) -> int_rect (Rect n) -> isSize size -> roomy size (Rect n) ->
  (looseAxes (Rect n) size <= m)%nat -> (m < fuel)%nat ->
  exists n', Insert fuel size n = Ret (n', cornerOf (Rect n) size) /\
             Rect n' = Rect n /\ Used n' = true.
Proof.
  revert fuel n. induction m as [|m IH]; intros fuel n Hu Hc Hi Hs Hf Hm Hfuel;
    (destruct fuel as [|fuel]; [lia|]);
    rewrite (Insert_unfold _ _ _ Hu Hc Hi Hs Hf);
    destruct (roomy_slack _ _ Hc Hi Hs Hf) as (_ & H0x & H0y & _);
    unfold looseAxes in Hm;
    destruct (Z.eqb_spec (slackX (Rect n) size) 0) as [Ex|Ex];
    destruct (Z.eqb_spec (slackY (Rect n) size) 0) as [Ey|Ey]; cbn [andb];
    try (exists (markUsed n); rewrite cornerOf_exact by assumption; now auto);
    try (exfalso; simpl in Hm; lia).
  all: destruct (Z.leb_spec (slackY (Rect n) size) (slackX (Rect n) size)) as [Hle|Hlt].
  all: try match goal with
       | |- context [leftOfV ?r ?s] =>
           destruct (leftOfV_roomy r s Hc Hi Hs Hf) as (Hc' & Hi' & Hf' & Ex' & Ey');
           destruct (IH fuel (fresh (leftOfV r s)) eq_refl Hc' Hi' Hs Hf') as (l' & -> & _);
           [unfold looseAxes; cbn [Rect fresh]; rewrite Ex', Ey';
            repeat match goal with |- context [?a =? 0] => destruct (Z.eqb_spec a 0) end;
            simpl in *; lia | lia |];
           eexists; split; [reflexivity | split; reflexivity]
       | |- context [topOfH ?r ?s] =>
           destruct (topOfH_roomy r s Hc Hi Hs Hf) as (Hc' & Hi' & Hf' & Ex' & Ey');
           destruct (IH fuel (fresh (topOfH r s)) eq_refl Hc' Hi' Hs Hf') as (l' & -> & _);
           [unfold looseAxes; cbn [Rect fresh]; rewrite Ex', Ey';
            repeat match goal with |- context [?a =? 0] => destruct (Z.eqb_spec a 0) end;
            simpl in *; lia | lia |];
           eexists; split; [reflexivity | split; reflexivity]
       end.
  all: exfalso; lia.
Qed.

(** C5: for an unused node in whose rectangle the size fits, [Insert]
    returns the rectangle of exactly the requested size in the node's
    minimum corner and marks the node used. On an exact fit the node is
    otherwise unchanged and its own rectangle is returned. Otherwise,
    when the width slack is at least the height slack the node gets a
    left child of the requested width and full height and a fresh right
    child with the remaining width; else a left child of the requested
    height and full width and a fresh right child with the remaining
    height; the left child is what [Insert] makes of the fresh left
    part. *)
Theorem C5_commit_split_rule (fuel : nat) (size : Point) (n : node) :
  Used n = false ->
  canon (Rect n) -> int_rect (Rect n) -> isSize size -> fits size (Rect n) ->
  (3 <= fuel)%nat ->
  let r := Rect n in
  exists n',
    Insert fuel size n = Ret (n', cornerOf r size) /\
    Min (cornerOf r size) = Min r /\ Size (cornerOf r size) = size /\
    Rect n' = r /\ Used n' = true /\
    (slackX r size = 0 /\ slackY r size = 0 ->
       n' = markUsed n /\ cornerOf r size = r) /\
    (~ (slackX r size = 0 /\ slackY r size = 0) -> slackY r size <= slackX r size ->
       exists l',
         n' = mkNode (Some l') (Some (fresh (rightOfV r size))) r true /\
         Insert (fuel - 1) size (fresh (leftOfV r size)) = Ret (l', cornerOf r size) /\
         Rect l' = leftOfV r size) /\
    (~ (slackX r size = 0 /\ slackY r size = 0) -> slackX r size < slackY r size ->
       exists l',
         n' = mkNode (Some l') (Some (fresh (bottomOfH r size))) r true /\
         Insert (fuel - 1) size (fresh (topOfH r size)) = Ret (l', cornerOf r size) /\
         Rect l' = topOfH r size).
Proof.
  intros Hu Hc Hi Hs Hfits Hfuel r.
  pose proof (fits_roomy _ _ Hc Hi Hs Hfits) as Hf.
  destruct fuel as [|fuel]; [lia|].
  replace (S fuel - 1)%nat with fuel by lia.
  assert (Hsz : Size (cornerOf r size) = size).
  { destruct Hs as ((? & ?) & ? & ?). destruct size as [w h].
    destruct (Rect n) as [[x0 y0] [x1 y1]] eqn:E. subst r. rect_unfold.
    f_equal; int_lia. }
  rewrite (Insert_unfold _ _ _ Hu Hc Hi Hs Hf). fold r.
  destruct (Z.eqb_spec (slackX r size) 0) as [Ex|Ex];
    destruct (Z.eqb_spec (slackY r size) 0) as [Ey|Ey]; cbn [andb].
  { exists (markUsed n). rewrite (cornerOf_exact r size Ex Ey).
    rewrite (cornerOf_exact r size Ex Ey) in Hsz.
    repeat split; auto; try tauto. }
  all: destruct (leftOfV_roomy r size Hc Hi Hs Hf) as (HcV & HiV & HfV & ExV & EyV).
  all: destruct (topOfH_roomy r size Hc Hi Hs Hf) as (HcH & HiH & HfH & ExH & EyH).
  all: destruct (Z.leb_spec (slackY r size) (slackX r size)) as [Hle|Hlt].
  all: match goal with
       | |- context [Insert ?f ?s (fresh ?lr)] =>
           destruct (Insert_returns 1 f s (fresh lr) eq_refl) as (l' & Hl & Hrl & _);
           [assumption | assumption | assumption | assumption
           | unfold looseAxes; cbn [Rect fresh]; rewrite ?ExV, ?EyV, ?ExH, ?EyH;
             repeat match goal with |- context [?a =? 0] => destruct (Z.eqb_spec a 0) end;
             simpl; lia
           | lia | ]
       end.
  all: cbn [Rect fresh] in Hl, Hrl; rewrite Hl; cbn.
  all: eexists; split; [reflexivity|].
  all: repeat split; auto; try (intros; exfalso; lia); try tauto.
  all: intros _ _; exists l'; repeat split; auto.
Qed.

(** Closes a goal about concrete numbers by evaluation. *)
Ltac concrete :=
  repeat split; vm_compute; first [reflexivity | discriminate | intros; discriminate].

Lemma C5_commit_split_rule_witness :
  exists n',
    Insert 3 (Pt 2 2) (fresh (image.Rect 1 1 4 4)) = Ret (n', image.Rect 1 1 3 3) /\
    Used n' = true /\
    exists l', n' = mkNode (Some l') (Some (fresh (image.Rect 3 1 4 4)))
                      (image.Rect 1 1 4 4) true.
Proof.
  destruct (C5_commit_split_rule 3 (Pt 2 2) (fresh (image.Rect 1 1 4 4)))
    as (n' & HI & _ & _ & _ & Hu & _ & HV & _); try concrete.
  exists n'. split; [exact HI|]. split; [exact Hu|].
  destruct HV as (l' & Hn & _); try concrete.
  - intros [H _]. revert H. concrete.
  - exists l'. exact Hn.
Defined.

(** ** Cuts *)

Lemma guillotine_cuts (parent l r : Rectangle) :
  canon parent -> guillotine parent l r -> cuts parent l r.
Proof.
  destruct parent as [[x0 y0] [x1 y1]].
  intros Hc [[w h] [(Hs & -> & ->)|(Hs & -> & ->)]]; rect_unfold;
    (split; [intros x y; unfold inRect; simpl; lia|]);
    intros x y; unfold inRect; simpl; lia.
Qed.

Lemma guillotine_inside (parent l r : Rectangle) :
  canon parent -> guillotine parent l r ->
  inside l parent /\ inside r parent /\ canon l /\ canon r.
Proof.
  destruct parent as [[x0 y0] [x1 y1]].
  intros Hc [[w h] [(Hs & -> & ->)|(Hs & -> & ->)]]; unfold inside; rect_unfold; lia.
Qed.

Lemma inside_within (r s : Rectangle) : inside r s -> within r s.
Proof. unfold inside, within, inRect. intros H x y. lia. Qed.

Lemma inside_trans (r s t : Rectangle) : inside r s -> inside s t -> inside r t.
Proof. unfold inside. lia. Qed.

Lemma inside_refl (r : Rectangle) : inside r r.
Proof. unfold inside. lia. Qed.

Lemma disjoint_sym (r s : Rectangle) : disjoint r s -> disjoint s r.
Proof. unfold disjoint. intros H x y [? ?]. apply (H x y). tauto. Qed.

Lemma disjoint_within (r r' s s' : Rectangle) :
  disjoint r s -> within r' r -> within s' s -> disjoint r' s'.
Proof. unfold disjoint, within. intros H Hr Hs x y [? ?]. apply (H x y). auto. Qed.

Lemma rightOfV_ok (r : Rectangle) (size : Point) :
  canon r -> int_rect r -> isSize size -> roomy size r ->
  canon (rightOfV r size) /\ int_rect (rightOfV r size) /\
  guillotine r (leftOfV r size) (rightOfV r size).
Proof.
  destruct r as [[x0 y0] [x1 y1]] eqn:E, size as [w h] eqn:Es. intros Hc Hi Hs Hr.
  split; [|split].
  - rect_unfold. int_lia.
  - rect_unfold. int_lia.
  - exists (Pt w h). left. rect_unfold. split; [int_lia|]. split; reflexivity.
Qed.

Lemma bottomOfH_ok (r : Rectangle) (size : Point) :
  canon r -> int_rect r -> isSize size -> roomy size r ->
  canon (bottomOfH r size) /\ int_rect (bottomOfH r size) /\
  guillotine r (topOfH r size) (bottomOfH r size).
Proof.
  destruct r as [[x0 y0] [x1 y1]] eqn:E, size as [w h] eqn:Es. intros Hc Hi Hs Hr.
  split; [|split].
  - rect_unfold. int_lia.
  - rect_unfold. int_lia.
  - exists (Pt w h). right. rect_unfold. split; [int_lia|]. split; reflexivity.
Qed.

(** ** What a returning [Insert] tells *)

Lemma Insert_Ret_inv (fuel : nat) (size : Point) (n : node) (x : node * Rectangle) :
  Insert fuel size n = Ret x ->
  exists fuel', fuel = S fuel' /\ Used n = false /\ roomy size (Rect n).
Proof.
  destruct fuel as [|fuel]; [discriminate|]. cbn [Insert].
  destruct (Used n); [discriminate|]. cbv zeta.
  destruct (Z.ltb_spec (X (Sub (Size (Rect n)) size)) 0); [discriminate|].
  destruct (Z.ltb_spec (Y (Sub (Size (Rect n)) size)) 0); [discriminate|].
  intros _. exists fuel. unfold roomy. auto.
Qed.

Lemma Insert_Rect (fuel : nat) (size : Point) (n n' : node) (r : Rectangle) :
  Insert fuel size n = Ret (n', r) -> Rect n' = Rect n.
Proof.
  destruct fuel as [|fuel]; [discriminate|]. cbn [Insert].
  destruct (Used n); [discriminate|]. cbv zeta.
  destruct (_ || _); [discriminate|].
  destruct (_ && _); [now intros [= <- _]|].
  destruct (splitRects _ _ _) as [lr rr].
  destruct (Insert fuel size (fresh lr)) as [[l' res]| |]; simpl; try discriminate.
  now intros [= <- _].
Qed.

Lemma InsertAt_Rect (fuel : nat) (p : path) (size : Point) (t t' : node) (r : Rectangle) :
  InsertAt fuel p size t = Ret (t', r) -> Rect t' = Rect t.
Proof.
  destruct p as [|d p]; simpl; [apply Insert_Rect|].
  destruct (child d t) as [c|]; [|discriminate].
  destruct (InsertAt fuel p size c) as [[c' res]| |]; simpl; try discriminate.
  intros [= <- _]. now destruct d.
Qed.

(** A property of nodes that [Insert] keeps on the node a pointer
    designates, and that survives the replacement of a child by one with
    the same rectangle, is kept by [InsertAt]. *)
Lemma InsertAt_everyNode (P Q : node -> Prop) (fuel : nat) (size : Point) :
  (forall n n' r, Q n -> everyNode P n -> Insert fuel size n = Ret (n', r) -> everyNode P n') ->
  (forall d c c' t, P t -> child d t = Some c -> Rect c' = Rect c -> P (setChild d c' t)) ->
  forall p t t' r n0,
    deref p t = Some n0 -> Q n0 -> everyNode P t ->
    InsertAt fuel p size t = Ret (t', r) -> everyNode P t'.
Proof.
  intros HI HS. induction p as [|d p IH]; intros t t' r n0; simpl.
  - intros [= <-]. apply HI.
  - destruct (child d t) as [c|] eqn:Ec; [|discriminate].
    intros Hd HQ Ht.
    destruct (InsertAt fuel p size c) as [[c' res]| |] eqn:E; simpl; try discriminate.
    intros [= <- <-]. apply everyNode_intro.
    + apply (HS d c c' t (everyNode_here _ _ Ht) Ec). apply (InsertAt_Rect _ _ _ _ _ _ E).
    + intros d' c0. rewrite child_setChild. case_decide as Hd'.
      * intros [= <-]. apply (IH c c' res n0 Hd HQ (everyNode_child _ _ _ _ Ht Ec) E).
      * intros Hc. apply (everyNode_child _ _ _ _ Ht Hc).
Qed.

Lemma everyNode_markUsed (P : node -> Prop) (n : node) :
  P (markUsed n) -> everyNode P n -> everyNode P (markUsed n).
Proof.
  intros H Hn. apply everyNode_intro; [exact H|].
  intros d c Hc. apply (everyNode_child _ d n); [exact Hn|]. now destruct d.
Qed.

Lemma everyNode_split (P : node -> Prop) (l : node) (rr rc : Rectangle) (u : bool) :
  P (mkNode (Some l) (Some (fresh rr)) rc u) -> everyNode P l -> P (fresh rr) ->
  everyNode P (mkNode (Some l) (Some (fresh rr)) rc u).
Proof.
  intros H Hl Hr. apply everyNode_intro; [exact H|].
  intros [] c; simpl; intros [= <-]; [exact Hl|]. apply everyNode_fresh, Hr.
Qed.

Lemma nodeOk_fresh (r : Rectangle) : canon r -> int_rect r -> nodeOk (fresh r).
Proof. intros Hc Hi. split; [exact Hc|]. split; [exact Hi|]. exact I. Qed.

Lemma Insert_nodeOk (fuel : nat) (size : Point) (n n' : node) (r : Rectangle) :
  isSize size ->
  everyNode nodeOk n ->
  Insert fuel size n = Ret (n', r) ->
  everyNode nodeOk n'.
Proof.
  intros Hs. revert n n' r. induction fuel as [|fuel IH]; intros n n' r Hn HI; [discriminate|].
  destruct (Insert_Ret_inv _ _ _ _ HI) as (_ & _ & Hu & Hr).
  destruct (everyNode_here _ _ Hn) as (Hc & Hi & Hch).
  rewrite (Insert_unfold _ _ _ Hu Hc Hi Hs Hr) in HI.
  destruct (_ && _).
  { injection HI as <- <-. apply everyNode_markUsed; [|exact Hn].
    split; [exact Hc|]. split; [exact Hi|]. exact Hch. }
  destruct (leftOfV_roomy _ _ Hc Hi Hs Hr) as (HcV & HiV & _).
  destruct (topOfH_roomy _ _ Hc Hi Hs Hr) as (HcH & HiH & _).
  destruct (rightOfV_ok _ _ Hc Hi Hs Hr) as (HcR & HiR & HgV).
  destruct (bottomOfH_ok _ _ Hc Hi Hs Hr) as (HcB & HiB & HgH).
  destruct (_ <=? _);
    match type of HI with
    | context [Insert fuel size (fresh ?lr)] =>
        destruct (Insert fuel size (fresh lr)) as [[l' res]| |] eqn:E; simpl in HI;
        try discriminate; injection HI as <- <-;
        pose proof (Insert_Rect _ _ _ _ _ E) as HR; cbn [Rect fresh] in HR;
        apply everyNode_split;
        [ split; [exact Hc|]; split; [exact Hi|]; cbn [Left Right Rect fresh];
          rewrite HR; assumption
        | apply (IH (fresh lr) l' res); [|exact E];
          apply everyNode_fresh, nodeOk_fresh; assumption
        | apply nodeOk_fresh; assumption ]
    end.
Qed.

Lemma nodeOk_setChild (d : dir) (c c' t : node) :
  nodeOk t -> child d t = Some c -> Rect c' = Rect c -> nodeOk (setChild d c' t).
Proof.
  intros (Hc & Hi & Hch) Hd HR. destruct d; simpl in *; rewrite Hd in Hch;
    (split; [exact Hc|]; split; [exact Hi|]); simpl.
  - destruct (Right t); [|exact Hch]. now rewrite HR.
  - destruct (Left t); [|contradiction]. now rewrite HR.
Qed.

Lemma InsertAt_nodeOk (fuel : nat) (p : path) (size : Point) (t t' : node) (r : Rectangle) :
  isSize size ->
  everyNode nodeOk t ->
  InsertAt fuel p size t = Ret (t', r) ->
  everyNode nodeOk t'.
Proof.
  intros Hs Ht HI.
  assert (Hd : exists n0, deref p t = Some n0).
  { clear Ht. revert t t' r HI. induction p as [|d p IH]; intros t t' r; simpl; [eauto|].
    destruct (child d t) as [c|]; [|discriminate].
    destruct (InsertAt fuel p size c) as [[c' res]| |] eqn:E; simpl; try discriminate.
    intros _. apply (IH _ _ _ E). }
  destruct Hd as [n0 Hd].
  apply (InsertAt_everyNode nodeOk (fun _ => True) fuel size) with (p := p) (t := t) (r := r) (n0 := n0);
    auto.
  - intros n n' r' _. apply Insert_nodeOk, Hs.
  - apply nodeOk_setChild.
Qed.

Lemma reachable_nodeOk (r0 : Rectangle) (t : node) :
  canon r0 -> int_rect r0 -> reachable isSize r0 t ->
  everyNode nodeOk t /\ Rect t = r0.
Proof.
  intros Hc Hi. induction 1 as [|t fuel p size t' r _ [IH IHR] Hs HI].
  - split; [|reflexivity]. apply everyNode_fresh, nodeOk_fresh; assumption.
  - split; [exact (InsertAt_nodeOk _ _ _ _ _ _ Hs IH HI)|].
    rewrite <- IHR. apply (InsertAt_Rect _ _ _ _ _ _ HI).
Qed.

(** ** The leaves partition the root *)

Lemma pairwiseDisjoint_app (l1 l2 : list node) :
  pairwiseDisjoint l1 -> pairwiseDisjoint l2 ->
  (forall a b, a ∈ l1 -> b ∈ l2 -> disjoint (Rect a) (Rect b)) ->
  pairwiseDisjoint (l1 ++ l2).
Proof.
  intros H1 H2 H12 i j a b Hij Hi Hj.
  apply lookup_app_Some in Hi as [Hi|[Hli Hi]];
    apply lookup_app_Some in Hj as [Hj|[Hlj Hj]].
  - exact (H1 i j a b Hij Hi Hj).
  - apply H12; eapply list_elem_of_lookup_2; eassumption.
  - apply disjoint_sym, H12; eapply list_elem_of_lookup_2; eassumption.
  - apply (H2 (i - length l1)%nat (j - length l1)%nat a b); [lia|assumption..].
Qed.

Lemma leaves_partition (t : node) :
  everyNode nodeOk t ->
  pairwiseDisjoint (leaves t) /\
  (forall a, a ∈ leaves t -> inside (Rect a) (Rect t)) /\
  (forall x y, inRect x y (Rect t) <-> exists a, a ∈ leaves t /\ inRect x y (Rect a)).
Proof.
  induction t as [l r rc u IHl IHr] using node_ind. intros Ht.
  destruct (everyNode_here _ _ Ht) as (Hc & Hi & Hch). simpl in Hc, Hi, Hch.
  destruct l as [l|], r as [r|]; try contradiction; simpl in *.
  - destruct (IHl (everyNode_child _ L _ _ Ht eq_refl)) as (Pl & Il & Ul).
    destruct (IHr (everyNode_child _ R _ _ Ht eq_refl)) as (Pr & Ir & Ur).
    destruct (guillotine_cuts _ _ _ Hc Hch) as [Hd Hu].
    destruct (guillotine_inside _ _ _ Hc Hch) as (Hil & Hir & _).
    split; [|split].
    + apply pairwiseDisjoint_app; [exact Pl|exact Pr|].
      intros a b Ha Hb. apply (disjoint_within _ _ _ _ Hd); apply inside_within; auto.
    + intros a [Ha|Ha]%elem_of_app; eapply inside_trans; eauto.
    + intros x y. rewrite Hu, Ul, Ur. split.
      * intros [(a & Ha & Hin)|(a & Ha & Hin)]; exists a; rewrite elem_of_app; auto.
      * intros (a & [Ha|Ha]%elem_of_app & Hin); eauto.
  - split; [|split].
    + intros [|i] [|j] a b Hij; simpl; try discriminate; congruence.
    + intros a ->%list_elem_of_singleton. apply inside_refl.
    + intros x y. split.
      * intros Hin. eexists. split; [apply list_elem_of_singleton; reflexivity|exact Hin].
      * intros (a & ->%list_elem_of_singleton & Hin). exact Hin.
Qed.

(** C2: in every tree that commits of sizes make of a one-leaf root, the
    root keeps its rectangle, the rectangles of the leaves are pairwise
    without common pixel and cover exactly the root's rectangle, and
    the two children of every split node are the two sides of one cut
    through the parent: no gap, no overlap. *)
Theorem C2_partition (r0 : Rectangle) (t : node) :
  canon r0 -> int_rect r0 ->
  reachable isSize r0 t ->
  Rect t = r0 /\
  pairwiseDisjoint (leaves t) /\
  (forall x y, inRect x y r0 <-> exists a, a ∈ leaves t /\ inRect x y (Rect a)) /\
  (forall p n l r, deref p t = Some n -> Left n = Some l -> Right n = Some r ->
     guillotine (Rect n) (Rect l) (Rect r) /\ cuts (Rect n) (Rect l) (Rect r)).
Proof.
  intros Hc Hi Hr. destruct (reachable_nodeOk _ _ Hc Hi Hr) as [Ht HR].
  destruct (leaves_partition _ Ht) as (Hp & _ & Hu). rewrite HR in Hu.
  split; [exact HR|]. split; [exact Hp|]. split; [exact Hu|].
  intros p n l r Hd Hl Hrt.
  destruct (Ht p n Hd) as (Hcn & _ & Hch). rewrite Hl, Hrt in Hch.
  split; [exact Hch|]. apply (guillotine_cuts _ _ _ Hcn Hch).
Qed.

Lemma C2_partition_witness :
  let t := mkNode (Some (mkNode (Some (mkNode None None (image.Rect 1 1 3 3) true))
                                (Some (fresh (image.Rect 1 3 3 4)))
                                (image.Rect 1 1 3 4) true))
                  (Some (fresh (image.Rect 3 1 4 4)))
                  (image.Rect 1 1 4 4) true in
  pairwiseDisjoint (leaves t) /\
  (forall x y, inRect x y (image.Rect 1 1 4 4) <->
               exists a, a ∈ leaves t /\ inRect x y (Rect a)).
Proof.
  intros t.
  destruct (C2_partition (image.Rect 1 1 4 4) t) as (_ & Hp & Hu & _).
  - concrete.
  - concrete.
  - apply (reachable_Insert isSize _ (fresh (image.Rect 1 1 4 4)) 3 [] (Pt 2 2) t
             (image.Rect 1 1 3 3)).
    + apply reachable_fresh.
    + concrete.
    + vm_compute. reflexivity.
  - split; [exact Hp|exact Hu].
Defined.

(** ** Candidate enumeration *)

Lemma leafPaths_leaves (t : node) : map snd (leafPaths t) = leaves t.
Proof.
  induction t as [l r rc u IHl IHr] using node_ind.
  destruct l as [l|]; simpl; [|reflexivity].
  rewrite map_app, map_map. simpl. simpl in IHl. rewrite <- IHl. f_equal.
  destruct r as [r|]; simpl; [|reflexivity]. rewrite map_map. simpl in IHr.
  rewrite <- IHr. reflexivity.
Qed.

Lemma leafPaths_deref (t : node) (p : path) (n : node) :
  (p, n) ∈ leafPaths t -> deref p t = Some n /\ Left n = None.
Proof.
  revert p. induction t as [l r rc u IHl IHr] using node_ind. intros p.
  destruct l as [l|]; simpl.
  - rewrite elem_of_app. intros [H|H].
    + apply list_elem_of_fmap in H as ([q m] & [= -> ->] & H). simpl. apply IHl, H.
    + destruct r as [r|]; [|now apply elem_of_nil in H].
      apply list_elem_of_fmap in H as ([q m] & [= -> ->] & H). simpl. apply IHr, H.
  - intros [= -> ->]%list_elem_of_singleton. auto.
Qed.

Lemma deref_leafPaths (t : node) (p : path) (n : node) :
  everyNode nodeOk t -> deref p t = Some n -> Left n = None -> (p, n) ∈ leafPaths t.
Proof.
  revert p. induction t as [l r rc u IHl IHr] using node_ind. intros p Ht.
  destruct (everyNode_here _ _ Ht) as (_ & _ & Hch). simpl in Hch.
  destruct p as [|d p]; simpl.
  - intros [= <-]. simpl. intros ->. apply list_elem_of_singleton. reflexivity.
  - destruct l as [l|], r as [r|]; try contradiction; destruct d; simpl; try discriminate.
    + intros Hd Hn. apply elem_of_app. left.
      apply list_elem_of_fmap. exists (p, n). split; [reflexivity|].
      apply IHl; auto. apply (everyNode_child _ L _ _ Ht eq_refl).
    + intros Hd Hn. apply elem_of_app. right.
      apply list_elem_of_fmap. exists (p, n). split; [reflexivity|].
      apply IHr; auto. apply (everyNode_child _ R _ _ Ht eq_refl).
Qed.

Lemma omap_downTo (size : Point) (d : dir) (l : list (path * node)) :
  omap (candidateOf size) (map (downTo d) l) = map (under d) (omap (candidateOf size) l).
Proof.
  induction l as [|[p n] l IH]; [reflexivity|].
  cbn [map omap list_omap]. fold (@omap list _ _ _ (candidateOf size)). rewrite IH.
  unfold candidateOf, downTo. cbn [fst snd].
  destruct (_ && _); reflexivity.
Qed.

(** Below a split node no leaf is wider or higher than the node. *)
Lemma leaf_extent_le (t : node) (a : node) :
  everyNode nodeOk t -> 0 <= Dx (Rect t) -> 0 <= Dy (Rect t) ->
  a ∈ leaves t -> nodeOk a ->
  Dx (Rect a) <= Dx (Rect t) /\ Dy (Rect a) <= Dy (Rect t).
Proof.
  intros Ht Hx Hy Ha (Hca & Hia & _).
  destruct (leaves_partition t Ht) as (_ & Hin & _). specialize (Hin a Ha).
  destruct (everyNode_here _ _ Ht) as (Hc & Hi & _).
  destruct (Rect a) as [[a0 b0] [a1 b1]], (Rect t) as [[x0 y0] [x1 y1]].
  unfold inside in Hin. rect_unfold. int_lia.
Qed.

Lemma leaves_nodeOk (t : node) (a : node) :
  everyNode nodeOk t -> a ∈ leaves t -> nodeOk a.
Proof.
  intros Ht Ha. rewrite <- leafPaths_leaves in Ha.
  apply list_elem_of_fmap in Ha as ([p n] & -> & Hp).
  apply leafPaths_deref in Hp as [Hd _]. exact (Ht p n Hd).
Qed.

Lemma candidatesOf_too_small (size : Point) (t : node) :
  everyNode nodeOk t -> everyNode splitRepr t ->
  (X size <=? Dx (Rect t)) && (Y size <=? Dy (Rect t)) = false ->
  candidatesOf size t = [].
Proof.
  intros Ht Hs Hf. unfold candidatesOf.
  destruct (Left t) as [l|] eqn:El.
  - assert (Hrep : 0 <= Dx (Rect t) /\ 0 <= Dy (Rect t)).
    { apply (everyNode_here _ _ Hs). left. rewrite El. eauto. }
    assert (Hall : Forall (fun pn => candidateOf size pn = None) (leafPaths t)).
    { apply Forall_forall. intros [p n] Hp%list_elem_of_In.
      assert (Ha : n ∈ leaves t).
      { rewrite <- leafPaths_leaves. apply list_elem_of_fmap. exists (p, n).
        split; [reflexivity|exact Hp]. }
      destruct (leaf_extent_le t n Ht (proj1 Hrep) (proj2 Hrep) Ha (leaves_nodeOk _ _ Ht Ha)).
      unfold candidateOf. simpl.
      apply andb_false_iff in Hf as [Hf|Hf]; apply Z.leb_gt in Hf.
      + destruct (Z.leb_spec (X size) (Dx (Rect n))); [lia|]. now rewrite andb_false_r.
      + destruct (Z.leb_spec (Y size) (Dy (Rect n))); [lia|]. now rewrite andb_false_r. }
    induction Hall as [|pn l0 H0 _ IH]; simpl; [reflexivity|]. now rewrite H0.
  - destruct t as [l0 r0 rc u]. simpl in *. subst l0. simpl.
    unfold candidateOf. simpl. rewrite <- andb_assoc, Hf, andb_false_r. reflexivity.
Qed.

(** [FindInsertCandidates] sends, left to right, the candidates of the
    unused leaves in which the size fits. *)
Lemma FindInsertCandidates_spec (size : Point) (t : node) :
  isSize size ->
  everyNode nodeOk t -> everyNode splitRepr t ->
  FindInsertCandidates size t = Ret (candidatesOf size t).
Proof.
  intros Hsz. induction t as [l r rc u IHl IHr] using node_ind. intros Ht Hs.
  destruct ((X size <=? Dx rc) && (Y size <=? Dy rc)) eqn:Hf.
  2:{ rewrite (candidatesOf_too_small size _ Ht Hs Hf). simpl. now rewrite Hf. }
  destruct (everyNode_here _ _ Ht) as (Hc & Hi & Hch). simpl in Hc, Hi, Hch.
  destruct l as [l|], r as [r|]; try contradiction; simpl; rewrite Hf.
  - simpl in IHl, IHr.
    rewrite (IHl (everyNode_child _ L _ _ Ht eq_refl) (everyNode_child _ L _ _ Hs eq_refl)).
    simpl.
    rewrite (IHr (everyNode_child _ R _ _ Ht eq_refl) (everyNode_child _ R _ _ Hs eq_refl)).
    simpl. unfold candidatesOf. simpl. rewrite omap_app, !omap_downTo. reflexivity.
  - unfold candidatesOf. simpl. unfold candidateOf. simpl.
    destruct u; simpl; [reflexivity|]. rewrite Hf.
    apply andb_true_iff in Hf as [Hx%Z.leb_le Hy%Z.leb_le].
    assert (Hr : roomy size rc) by (apply fits_roomy; auto; split; assumption).
    destruct (roomy_slack _ _ Hc Hi Hsz Hr) as (E & _).
    unfold Sub, Size in E. injection E as Ex Ey. rewrite Ex, Ey.
    destruct (Z.leb_spec (slackY rc size) (slackX rc size)).
    + rewrite Z.min_r by lia. reflexivity.
    + rewrite Z.min_l by lia. reflexivity.
Qed.

(** ** The choice of a round *)

Lemma scanCandidates_pick (i : Z) (cs : list nodeCandidate) (b : best) :
  scanCandidates i cs b = fold_left pick (map (pair i) cs) b.
Proof.
  unfold scanCandidates. revert b. induction cs as [|c cs IH]; intros [bi bc]; [reflexivity|].
  simpl. rewrite <- IH. reflexivity.
Qed.

Lemma scanImages_pick (st : list AtlasImage) (t : node) (imgs : list nat) (i : Z) (b : best) :
  (forall p, p ∈ imgs -> exists img, st !! p = Some img /\
     FindInsertCandidates (paddedSize img) t = Ret (candidatesOf (paddedSize img) t)) ->
  scanImages st t imgs i b = Ret (fold_left pick (pairsFrom st t imgs i) b).
Proof.
  revert i b. induction imgs as [|p imgs IH]; intros i b H; [reflexivity|].
  destruct (H p) as (img & Hst & HF); [left|].
  simpl. unfold load. rewrite Hst. simpl. rewrite HF. simpl.
  rewrite fold_left_app, <- scanCandidates_pick. apply IH.
  intros q Hq. apply H. now right.
Qed.

Lemma firstLowest_cons (b q : best) (ps : list best) :
  Score (snd b) < Score (snd q) -> firstLowest b ps -> firstLowest b (q :: ps).
Proof.
  intros Hlt (pre & post & -> & Hpre & Hpost). exists (q :: pre), post.
  split; [reflexivity|]. split; [|exact Hpost].
  intros x [->|Hx]%elem_of_cons; auto.
Qed.

Lemma firstLowest_head (b : best) (ps : list best) :
  (forall q, q ∈ ps -> Score (snd b) <= Score (snd q)) -> firstLowest b (b :: ps).
Proof.
  intros H. exists [], ps. split; [reflexivity|]. split; [|exact H].
  intros q Hq. now apply elem_of_nil in Hq.
Qed.

Lemma pick_from (ps : list best) (b : best) :
  0 <= fst b ->
  (forall q, q ∈ ps -> 0 <= fst q) ->
  let b' := fold_left pick ps b in
  (b' = b /\ forall q, q ∈ ps -> Score (snd b) <= Score (snd q)) \/
  (Score (snd b') < Score (snd b) /\ firstLowest b' ps).
Proof.
  revert b. induction ps as [|q ps IH]; intros b Hb Hps; simpl.
  - left. split; [reflexivity|]. intros q Hq. now apply elem_of_nil in Hq.
  - assert (Hq : 0 <= fst q) by (apply Hps; left).
    assert (Hps' : forall x, x ∈ ps -> 0 <= fst x) by (intros x Hx; apply Hps; now right).
    assert (E : pick b q = if Score (snd q) <? Score (snd b) then q else b).
    { unfold pick. destruct (Z.ltb_spec (fst b) 0); [lia|]. reflexivity. }
    rewrite E. clear E.
    destruct (Z.ltb_spec (Score (snd q)) (Score (snd b))) as [Hlt|Hge].
    + right. destruct (IH q Hq Hps') as [[-> Hall]|[Hlt' Hfl]].
      * split; [exact Hlt|]. apply firstLowest_head, Hall.
      * split; [lia|]. apply firstLowest_cons; assumption.
    + destruct (IH b Hb Hps') as [[-> Hall]|[Hlt' Hfl]].
      * left. split; [reflexivity|]. intros x [->|Hx]%elem_of_cons; auto.
      * right. split; [exact Hlt'|]. apply firstLowest_cons; [lia|assumption].
Qed.

(** From no best at all, the loops end on the first pair of lowest
    score, or without a pair when there is none. *)
Lemma pick_noBest (ps : list best) :
  (forall q, q ∈ ps -> 0 <= fst q) ->
  (ps = [] /\ fold_left pick ps noBest = noBest) \/
  (0 <= fst (fold_left pick ps noBest) /\ firstLowest (fold_left pick ps noBest) ps).
Proof.
  destruct ps as [|q ps]; intros Hps; [left; auto|]. right.
  assert (Hq : 0 <= fst q) by (apply Hps; left).
  assert (Hps' : forall x, x ∈ ps -> 0 <= fst x) by (intros x Hx; apply Hps; now right).
  cbn [fold_left]. change (pick noBest q) with q.
  destruct (pick_from ps q Hq Hps') as [[-> Hall]|[Hlt Hfl]].
  - split; [exact Hq|]. apply firstLowest_head, Hall.
  - split.
    + destruct Hfl as (pre & post & E & _). apply Hps'. rewrite E at 2.
      apply elem_of_app. right. left.
    + apply firstLowest_cons; assumption.
Qed.

Lemma pairsFrom_elem (st : list AtlasImage) (t : node) (imgs : list nat) (i : Z) (q : best) :
  q ∈ pairsFrom st t imgs i ->
  exists k p img,
    fst q = i + Z.of_nat k /\ imgs !! k = Some p /\ st !! p = Some img /\
    snd q ∈ candidatesOf (paddedSize img) t.
Proof.
  revert i. induction imgs as [|p imgs IH]; intros i; simpl.
  - intros H. now apply elem_of_nil in H.
  - rewrite elem_of_app. intros [H|H].
    + destruct (st !! p) as [img|] eqn:E; [|now apply elem_of_nil in H].
      apply list_elem_of_fmap in H as (c & -> & Hc).
      exists 0%nat, p, img. simpl. repeat split; auto. lia.
    + destruct (IH _ H) as (k & p' & img & Hq & Hk & Hst & Hc).
      exists (S k), p', img. repeat split; auto. lia.
Qed.

Lemma candidatesOf_elem (size : Point) (t : node) (c : nodeCandidate) :
  c ∈ candidatesOf size t ->
  exists n, deref (Candidate c) t = Some n /\ Left n = None /\ Used n = false /\
            fits size (Rect n) /\
            Score c = Z.min (slackX (Rect n) size) (slackY (Rect n) size).
Proof.
  unfold candidatesOf. rewrite list_elem_of_omap. intros ([p n] & Hp & Hc).
  apply leafPaths_deref in Hp as [Hd Hl].
  unfold candidateOf in Hc. simpl in Hc.
  destruct (Used n) eqn:Hu; simpl in Hc; [discriminate|].
  destruct (Z.leb_spec (X size) (Dx (Rect n))); simpl in Hc; [|discriminate].
  destruct (Z.leb_spec (Y size) (Dy (Rect n))); simpl in Hc; [|discriminate].
  injection Hc as <-. exists n. simpl. repeat split; auto.
Qed.

(** ** A commit through a pointer to a leaf *)

Lemma looseAxes_le_2 (r : Rectangle) (size : Point) : (looseAxes r size <= 2)%nat.
Proof. unfold looseAxes. destruct (_ =? _), (_ =? _); simpl; lia. Qed.

Lemma InsertAt_returns (fuel : nat) (p : path) (size : Point) (t n : node) :
  (3 <= fuel)%nat ->
  deref p t = Some n -> Used n = false ->
  canon (Rect n) -> int_rect (Rect n) -> isSize size -> roomy size (Rect n) ->
  exists t', InsertAt fuel p size t = Ret (t', cornerOf (Rect n) size).
Proof.
  intros Hfuel. revert t. induction p as [|d p IH]; intros t; simpl.
  - intros [= <-] Hu Hc Hi Hs Hr.
    destruct (Insert_returns 2 fuel size t Hu Hc Hi Hs Hr (looseAxes_le_2 _ _) ltac:(lia))
      as (n' & H & _). eauto.
  - destruct (child d t) as [c|]; [|discriminate]. intros Hd Hu Hc Hi Hs Hr.
    destruct (IH c Hd Hu Hc Hi Hs Hr) as (c' & ->). simpl. eauto.
Qed.

Lemma InsertAt_deref (fuel : nat) (p : path) (size : Point) (t t' : node) (r : Rectangle) :
  InsertAt fuel p size t = Ret (t', r) ->
  exists n n', deref p t = Some n /\ Insert fuel size n = Ret (n', r) /\
               forall q, deref (p ++ q) t' = deref q n'.
Proof.
  revert t t'. induction p as [|d p IH]; intros t t'; simpl.
  - intros H. exists t, t'. auto.
  - destruct (child d t) as [c|] eqn:Ec; [|discriminate].
    destruct (InsertAt fuel p size c) as [[c' res]| |] eqn:E; simpl; try discriminate.
    intros [= <- <-]. destruct (IH _ _ E) as (n & n' & Hd & HI & Hq).
    exists n, n'. split; [exact Hd|]. split; [exact HI|].
    intros q. rewrite child_setChild. case_decide; [|congruence]. apply Hq.
Qed.

(** The leaf that holds the committed rectangle. *)
Lemma Insert_corner_leaf (fuel : nat) (size : Point) (n n' : node) (res : Rectangle) :
  canon (Rect n) -> int_rect (Rect n) -> isSize size ->
  Left n = None -> Right n = None ->
  Insert fuel size n = Ret (n', res) ->
  res = cornerOf (Rect n) size /\
  exists q leaf, deref q n' = Some leaf /\ Used leaf = true /\
                 Left leaf = None /\ Right leaf = None /\ Rect leaf = res.
Proof.
  revert n n'. induction fuel as [|fuel IH]; intros n n' Hc Hi Hs Hl Hrt HI; [discriminate|].
  destruct (Insert_Ret_inv _ _ _ _ HI) as (_ & _ & Hu & Hr).
  rewrite (Insert_unfold _ _ _ Hu Hc Hi Hs Hr) in HI.
  destruct (Z.eqb_spec (slackX (Rect n) size) 0) as [Ex|Ex];
    destruct (Z.eqb_spec (slackY (Rect n) size) 0) as [Ey|Ey]; cbn [andb] in HI.
  { injection HI as <- <-. split; [now rewrite cornerOf_exact|].
    exists [], (markUsed n). simpl. auto. }
  all: destruct (leftOfV_roomy _ _ Hc Hi Hs Hr) as (HcV & HiV & _).
  all: destruct (topOfH_roomy _ _ Hc Hi Hs Hr) as (HcH & HiH & _).
  all: destruct (_ <=? _);
    match type of HI with
    | context [Insert ?f ?s (fresh ?lr)] =>
        destruct (Insert f s (fresh lr)) as [[l' res']| |] eqn:E; simpl in HI;
        try discriminate; injection HI as <- <-;
        destruct (IH (fresh lr) l') as (-> & q & leaf & Hq & Hleaf);
        [assumption | assumption | assumption | reflexivity | reflexivity | exact E |];
        split; [reflexivity|]; exists (L :: q), leaf; split; [exact Hq|exact Hleaf]
    end.
Qed.

(** Another leaf is still there after the commit. *)
Lemma InsertAt_other_leaf (fuel : nat) (p : path) (size : Point) (t t' n : node)
    (r : Rectangle) :
  InsertAt fuel p size t = Ret (t', r) ->
  deref p t = Some n -> Left n = None -> Right n = None ->
  forall p' n', deref p' t = Some n' -> Left n' = None -> Right n' = None ->
    p' <> p -> deref p' t' = Some n'.
Proof.
  revert t t'. induction p as [|d p IH]; intros t t' HI Hd Hl Hr p' n' Hd' Hl' Hr' Hne.
  - simpl in Hd. injection Hd as <-. destruct p' as [|d' p']; [congruence|].
    simpl in Hd'. destruct d'; simpl in Hd'; [rewrite Hl in Hd'|rewrite Hr in Hd']; discriminate.
  - simpl in HI, Hd. destruct (child d t) as [c|] eqn:Ec; [|discriminate].
    destruct (InsertAt fuel p size c) as [[c' res]| |] eqn:E; simpl in HI; try discriminate.
    injection HI as <- <-.
    destruct p' as [|d' p'].
    + simpl in Hd'. injection Hd' as <-.
      destruct d; simpl in Ec; congruence.
    + simpl in Hd' |- *. rewrite child_setChild. case_decide as Hdd.
      * subst d'. rewrite Ec in Hd'. apply (IH c c' E Hd Hl Hr p' n' Hd' Hl' Hr'). congruence.
      * exact Hd'.
Qed.

Lemma Insert_splitRepr (fuel : nat) (size : Point) (n n' : node) (r : Rectangle) :
  isSize size ->
  canon (Rect n) -> int_rect (Rect n) -> 0 <= Dx (Rect n) -> 0 <= Dy (Rect n) ->
  everyNode splitRepr n ->
  Insert fuel size n = Ret (n', r) ->
  everyNode splitRepr n'.
Proof.
  intros Hs. revert n n' r.
  induction fuel as [|fuel IH]; intros n n' r Hc Hi Hx Hy Hn HI; [discriminate|].
  destruct (Insert_Ret_inv _ _ _ _ HI) as (_ & _ & Hu & Hr).
  rewrite (Insert_unfold _ _ _ Hu Hc Hi Hs Hr) in HI.
  destruct (_ && _).
  { injection HI as <- <-. apply everyNode_markUsed; [|exact Hn]. intros _. auto. }
  destruct (leftOfV_roomy _ _ Hc Hi Hs Hr) as (HcV & HiV & _).
  destruct (topOfH_roomy _ _ Hc Hi Hs Hr) as (HcH & HiH & _).
  assert (HV : 0 <= Dx (leftOfV (Rect n) size) /\ 0 <= Dy (leftOfV (Rect n) size)).
  { destruct (Rect n) as [[x0 y0] [x1 y1]], size as [w h]. rect_unfold. int_lia. }
  assert (HH : 0 <= Dx (topOfH (Rect n) size) /\ 0 <= Dy (topOfH (Rect n) size)).
  { destruct (Rect n) as [[x0 y0] [x1 y1]], size as [w h]. rect_unfold. int_lia. }
  destruct (_ <=? _);
    match type of HI with
    | context [Insert ?f ?s (fresh ?lr)] =>
        destruct (Insert f s (fresh lr)) as [[l' res]| |] eqn:E; simpl in HI;
        try discriminate; injection HI as <- <-;
        apply everyNode_split;
        [ intros _; auto
        | apply (IH (fresh lr) l' res); try assumption; try tauto;
          apply everyNode_fresh; intros [[? [=]]|[? [=]]]
        | intros [[? [=]]|[? [=]]] ]
    end.
Qed.

Lemma InsertAt_splitRepr (fuel : nat) (p : path) (size : Point) (t t' n : node)
    (r : Rectangle) :
  isSize size ->
  deref p t = Some n ->
  canon (Rect n) -> int_rect (Rect n) -> 0 <= Dx (Rect n) -> 0 <= Dy (Rect n) ->
  everyNode splitRepr t ->
  InsertAt fuel p size t = Ret (t', r) ->
  everyNode splitRepr t'.
Proof.
  intros Hs Hd Hc Hi Hx Hy Ht HI.
  apply (InsertAt_everyNode splitRepr
           (fun n => canon (Rect n) /\ int_rect (Rect n) /\ 0 <= Dx (Rect n) /\ 0 <= Dy (Rect n))
           fuel size) with (p := p) (t := t) (r := r) (n0 := n); auto.
  - intros m m' r' (? & ? & ? & ?). now apply Insert_splitRepr.
  - intros d c c' t0 H0 Hch HR _.
    replace (Rect (setChild d c' t0)) with (Rect t0) by now destruct d.
    apply H0. destruct d; simpl in Hch; [left|right]; rewrite Hch; eauto.
Qed.

(** ** Sprites and their padded size *)

Lemma padded_ok (img : AtlasImage) :
  spriteOk img ->
  isSize (paddedSize img) /\
  X (paddedSize img) = Dx (Bounds (Image img)) + 1 /\
  Y (paddedSize img) = Dy (Bounds (Image img)) + 1.
Proof.
  unfold spriteOk, paddedSize, Add, Size. simpl.
  generalize (Dx (Bounds (Image img))) (Dy (Bounds (Image img))). intros w h H.
  unfold isSize, int_point. simpl. repeat split; int_lia.
Qed.

Lemma deref_app (p q : path) (t : node) :
  deref (p ++ q) t = deref p t ≫= deref q.
Proof.
  revert t. induction p as [|d p IH]; intros t; simpl; [reflexivity|].
  destruct (child d t); [apply IH|reflexivity].
Qed.

(** ** Removing the winner from [images] *)

Lemma swapRemove_perm (imgs : list nat) (i p last : nat) :
  imgs !! i = Some p ->
  imgs !! (length imgs - 1)%nat = Some last ->
  p :: swapRemove imgs i last ≡ₚ imgs.
Proof.
  intros Hi Hlast. unfold swapRemove.
  assert (Hlen : (i < length imgs)%nat) by (eapply lookup_lt_Some; eauto).
  assert (E : exists l1, imgs = l1 ++ [last]).
  { exists (take (length imgs - 1) imgs).
    rewrite <- (take_drop (length imgs - 1) imgs) at 1. f_equal.
    rewrite (drop_S _ last _ Hlast). replace (S (length imgs - 1)) with (length imgs) by lia.
    now rewrite drop_all. }
  destruct E as [l1 ->]. rewrite length_app in *. simpl in *.
  replace (length l1 + 1 - 1)%nat with (length l1) in * by lia.
  destruct (decide (i = length l1)) as [->|Hne].
  - rewrite list_lookup_middle in Hi by reflexivity. injection Hi as <-.
    rewrite insert_app_r_alt by lia. replace (length l1 - length l1)%nat with 0%nat by lia.
    simpl. rewrite take_app_length.
    apply Permutation_cons_append.
  - assert (Hi1 : l1 !! i = Some p).
    { rewrite lookup_app_l in Hi by lia. exact Hi. }
    rewrite insert_app_l by lia.
    rewrite <- (length_insert l1 i last). rewrite take_app_length.
    rewrite <- Permutation_cons_append.
    rewrite (delete_Permutation l1 i p Hi1) at 2.
    rewrite insert_take_drop by lia.
    rewrite <- Permutation_middle.
    rewrite (perm_swap p last). do 2 f_equiv.
    rewrite delete_take_drop. reflexivity.
Qed.

Lemma Rect_ok (x0 y0 x1 y1 : Z) :
  is_int x0 -> is_int y0 -> is_int x1 -> is_int y1 ->
  canon (image.Rect x0 y0 x1 y1) /\ int_rect (image.Rect x0 y0 x1 y1).
Proof.
  unfold image.Rect, canon, int_rect, int_point, is_int. intros.
  destruct (Z.ltb_spec x1 x0), (Z.ltb_spec y1 y0); simpl; lia.
Qed.

Lemma is_int_1 : is_int 1.
Proof. unfold is_int, int_min, int_max. lia. Qed.

(** ** Leaves at distinct places *)

Lemma deref_inside (p : path) (t n : node) :
  everyNode nodeOk t -> deref p t = Some n -> inside (Rect n) (Rect t).
Proof.
  revert t. induction p as [|d p IH]; intros t Ht; simpl.
  - intros [= <-]. apply inside_refl.
  - destruct (child d t) as [c|] eqn:Ec; [|discriminate]. intros Hd.
    apply (inside_trans _ (Rect c)); [apply IH; [apply (everyNode_child _ _ _ _ Ht Ec)|exact Hd]|].
    destruct (everyNode_here _ _ Ht) as (Hc & _ & Hch).
    destruct (Left t) as [l|] eqn:El, (Right t) as [r|] eqn:Er; try contradiction;
      try (destruct d; simpl in Ec; congruence).
    destruct (guillotine_inside _ _ _ Hc Hch) as (Hl & Hr & _).
    destruct d; simpl in Ec; [rewrite El in Ec|rewrite Er in Ec]; simplify_eq; assumption.
Qed.

Lemma distinct_leaves_disjoint (t : node) (p q : path) (x y : node) :
  everyNode nodeOk t ->
  deref p t = Some x -> deref q t = Some y ->
  Left x = None -> Right x = None -> Left y = None -> Right y = None ->
  p <> q -> disjoint (Rect x) (Rect y).
Proof.
  revert t q. induction p as [|d p IH]; intros t q Ht Hp Hq Hlx Hrx Hly Hry Hne.
  - simpl in Hp. injection Hp as <-. destruct q as [|d q]; [congruence|].
    simpl in Hq. destruct d; simpl in Hq; [rewrite Hlx in Hq|rewrite Hrx in Hq]; discriminate.
  - destruct q as [|d' q].
    + simpl in Hq. injection Hq as <-. simpl in Hp.
      destruct d; simpl in Hp; [rewrite Hly in Hp|rewrite Hry in Hp]; discriminate.
    + simpl in Hp, Hq.
      destruct (child d t) as [c|] eqn:Ec; [|discriminate].
      destruct (child d' t) as [c'|] eqn:Ec'; [|discriminate].
      destruct (decide (d = d')) as [<-|Hd].
      * assert (c' = c) by congruence. subst c'.
        apply (IH c q (everyNode_child _ _ _ _ Ht Ec) Hp Hq Hlx Hrx Hly Hry). congruence.
      * destruct (everyNode_here _ _ Ht) as (Hc & _ & Hch).
        pose proof (deref_inside _ _ _ (everyNode_child _ _ _ _ Ht Ec) Hp) as Hix.
        pose proof (deref_inside _ _ _ (everyNode_child _ _ _ _ Ht Ec') Hq) as Hiy.
        destruct (Left t) as [l|] eqn:El, (Right t) as [r|] eqn:Er; try contradiction;
          try (destruct d; simpl in Ec; congruence).
        destruct (guillotine_cuts _ _ _ Hc Hch) as [Hdis _].
        destruct d, d'; try congruence; simpl in Ec, Ec';
          rewrite ?El, ?Er in Ec, Ec'; simplify_eq.
        -- apply (disjoint_within _ _ _ _ Hdis); apply inside_within; assumption.
        -- apply disjoint_sym.
           apply (disjoint_within _ _ _ _ Hdis); apply inside_within; assumption.
Qed.

Lemma candidatesOf_intro (size : Point) (t : node) (c : nodeCandidate) (n : node) :
  everyNode nodeOk t ->
  deref (Candidate c) t = Some n -> Left n = None -> Used n = false ->
  fits size (Rect n) ->
  Score c = Z.min (slackX (Rect n) size) (slackY (Rect n) size) ->
  c ∈ candidatesOf size t.
Proof.
  intros Ht Hd Hl Hu [Hx Hy] Hs. unfold candidatesOf. apply list_elem_of_omap.
  exists (Candidate c, n). split; [apply deref_leafPaths; assumption|].
  unfold candidateOf. simpl. rewrite Hu. simpl.
  destruct (Z.leb_spec (X size) (Dx (Rect n))); [|lia].
  destruct (Z.leb_spec (Y size) (Dy (Rect n))); [|lia]. simpl.
  destruct c as [p sc]. simpl in *. now rewrite Hs.
Qed.

Lemma pairsFrom_nil (st : list AtlasImage) (t : node) (imgs : list nat) (i : Z)
    (p : nat) (img : AtlasImage) :
  pairsFrom st t imgs i = [] -> p ∈ imgs -> st !! p = Some img ->
  candidatesOf (paddedSize img) t = [].
Proof.
  revert i. induction imgs as [|p0 imgs IH]; intros i; simpl.
  - intros _ H. now apply elem_of_nil in H.
  - intros [H1 H2]%app_eq_nil [->|Hin]%elem_of_cons Hst.
    + rewrite Hst in H1. now apply fmap_nil_inv in H1.
    + apply (IH _ H2 Hin Hst).
Qed.

(** ** Commits only add to the tree *)

Lemma InsertAt_keeps (fuel : nat) (p : path) (size : Point) (t t' n0 : node) (r : Rectangle) :
  InsertAt fuel p size t = Ret (t', r) ->
  deref p t = Some n0 -> Left n0 = None -> Right n0 = None ->
  treeKeeps t t'.
Proof.
  revert t t'. induction p as [|d p IH]; intros t t' HI Hd Hl Hr q n Hq.
  - simpl in Hd. injection Hd as <-. simpl in HI.
    destruct q as [|d q].
    + simpl in Hq. injection Hq as <-. exists t'. split; [reflexivity|].
      split; [apply (Insert_Rect _ _ _ _ _ HI)|].
      destruct (Insert_Ret_inv _ _ _ _ HI) as (_ & _ & Hu & _). congruence.
    + simpl in Hq. destruct d; simpl in Hq; [rewrite Hl in Hq|rewrite Hr in Hq]; discriminate.
  - simpl in HI, Hd. destruct (child d t) as [c|] eqn:Ec; [|discriminate].
    destruct (InsertAt fuel p size c) as [[c' res]| |] eqn:E; simpl in HI; try discriminate.
    injection HI as <- <-.
    destruct q as [|d' q].
    + simpl in Hq. injection Hq as <-. exists (setChild d c' t).
      split; [reflexivity|]. destruct d; simpl; auto.
    + simpl in Hq |- *. rewrite child_setChild. case_decide as Hdd.
      * subst d'. rewrite Ec in Hq. apply (IH c c' E Hd Hl Hr q n Hq).
      * destruct (child d' t) as [c0|]; [|discriminate]. exists n. auto.
Qed.

Lemma treeKeeps_refl (t : node) : treeKeeps t t.
Proof. intros q n Hq. exists n. auto. Qed.

Lemma treeKeeps_trans (t1 t2 t3 : node) :
  treeKeeps t1 t2 -> treeKeeps t2 t3 -> treeKeeps t1 t3.
Proof.
  intros H12 H23 q n Hq. destruct (H12 q n Hq) as (n2 & Hq2 & HR2 & Hu2).
  destruct (H23 q n2 Hq2) as (n3 & Hq3 & HR3 & Hu3).
  exists n3. split; [exact Hq3|]. split; [congruence|auto].
Qed.

(** ** The rounds of [PackImages] *)

Section Packer.

Variable a : Atlas.
Variable atlasSize : Point.
Variable fuel : nat.
Hypothesis Hfuel : (3 <= fuel)%nat.
Hypothesis Hcanvas : int_point atlasSize.
Hypothesis Hsprites : Forall spriteOk (Images a).

Lemma initState_inv : packInv a atlasSize (initState a atlasSize).
Proof.
  destruct Hcanvas as [HX HY].
  destruct (Rect_ok 1 1 (X atlasSize) (Y atlasSize) is_int_1 is_int_1 HX HY) as [Hc Hi].
  split; simpl.
  - apply Forall2_same_length_lookup. split; [reflexivity|].
    intros i x y Hx Hy. assert (x = y) by congruence. subst. repeat split.
  - apply NoDup_seq.
  - intros i Hi'%elem_of_seq. split; [|reflexivity]. apply lookup_lt_is_Some. lia.
  - apply everyNode_fresh, nodeOk_fresh; assumption.
  - apply everyNode_fresh. intros [[? [=]]|[? [=]]].
  - apply everyNode_fresh. intros [[? [=]]|[? [=]]].
  - reflexivity.
  - exists (fun _ => []). split.
    + intros i Hi' Hn. exfalso. apply Hn, elem_of_seq. lia.
    + intros i j Hi' _ Hn. exfalso. apply Hn, elem_of_seq. lia.
Qed.

Lemma store_sprite (s : packState) (i : nat) (img : AtlasImage) :
  packInv a atlasSize s -> store s !! i = Some img ->
  spriteOk img /\ exists img0, Images a !! i = Some img0 /\ sameSprite img0 img.
Proof.
  intros Hinv Hi. destruct (Forall2_lookup_r _ _ _ _ _ (inv_store _ _ _ Hinv) Hi)
    as (img0 & H0 & Hsame).
  split; [|eauto].
  pose proof (proj1 (Forall_lookup _ _) Hsprites _ _ H0) as Hok.
  destruct Hsame as (_ & _ & E). unfold spriteOk in *. now rewrite <- E.
Qed.

Lemma unplaced_sprite (s : packState) (p : nat) :
  packInv a atlasSize s -> p ∈ images s ->
  exists img, store s !! p = Some img /\ Images a !! p = Some img /\ spriteOk img.
Proof.
  intros Hinv Hp. destruct (inv_unplaced _ _ _ Hinv p Hp) as [[img H0] E].
  exists img. rewrite E. split; [exact H0|]. split; [exact H0|].
  apply (proj1 (Forall_lookup _ _) Hsprites _ _ H0).
Qed.

Lemma scan_ready (s : packState) :
  packInv a atlasSize s ->
  scanImages (store s) (root s) (images s) 0 noBest =
    Ret (fold_left pick (roundPairs s) noBest).
Proof.
  intros Hinv. apply scanImages_pick. intros p Hp.
  destruct (unplaced_sprite s p Hinv Hp) as (img & Hst & _ & Hok).
  exists img. split; [exact Hst|].
  apply FindInsertCandidates_spec; [apply padded_ok, Hok| |].
  - apply (inv_tree _ _ _ Hinv).
  - apply (inv_repr _ _ _ Hinv).
Qed.

(** A round either finds no pair at all and fails, or commits the first
    pair of lowest score, the one the two loops end on. *)
Lemma round_scan_spec (s : packState) :
  packInv a atlasSize s ->
  (roundPairs s = [] /\
   scanImages (store s) (root s) (images s) 0 noBest = Ret noBest /\
   round fuel s = Ret None) \/
  (exists b p img leaf s',
     scanImages (store s) (root s) (images s) 0 noBest = Ret b /\
     0 <= fst b /\
     firstLowest b (roundPairs s) /\
     roundCommits fuel s b p img leaf s' /\
     round fuel s = Ret (Some s')).
Proof.
  intros Hinv. pose proof (scan_ready s Hinv) as Hscan.
  destruct (pick_noBest (roundPairs s)) as [[Hnil Hb]|[Hb Hfl]].
  { intros q (k & _ & _ & -> & _)%pairsFrom_elem. lia. }
  - left. split; [exact Hnil|]. rewrite Hb in Hscan. split; [exact Hscan|].
    unfold round. rewrite Hscan. reflexivity.
  - right. remember (fold_left pick (roundPairs s) noBest) as b eqn:Eb.
    assert (Hin : b ∈ roundPairs s).
    { destruct Hfl as (pre & post & -> & _). apply elem_of_app. right. left. }
    apply pairsFrom_elem in Hin as (k & p & img & Hk & Hp & Hst & Hc).
    apply candidatesOf_elem in Hc as (leaf & Hd & Hl & Hu & Hf & _).
    assert (Hpin : p ∈ images s) by (eapply list_elem_of_lookup_2; eauto).
    destruct (unplaced_sprite s p Hinv Hpin) as (img' & Hst' & _ & Hok).
    assert (img' = img) by congruence. subst img'.
    destruct (padded_ok img Hok) as (Hsz & _).
    destruct (inv_tree _ _ _ Hinv _ _ Hd) as (Hcl & Hil & _).
    destruct (InsertAt_returns fuel _ (paddedSize img) (root s) leaf Hfuel Hd Hu Hcl Hil Hsz
                (fits_roomy _ _ Hcl Hil Hsz Hf)) as (root' & HI).
    assert (Hlast : is_Some (images s !! (length (images s) - 1)%nat)).
    { apply lookup_lt_is_Some. apply lookup_lt_Some in Hp. lia. }
    destruct Hlast as [last Hlast].
    assert (Ek : Z.to_nat (fst b) = k) by lia.
    eexists b, p, img, leaf, _. split; [exact Hscan|]. split; [exact Hb|].
    split; [exact Hfl|]. split.
    + unfold roundCommits. rewrite Ek.
      split; [exact Hp|]. split; [exact Hst|]. split; [exact Hd|].
      split; [exact Hl|]. split; [exact Hu|]. split; [exact Hf|].
      exists root', last. split; [exact HI|]. split; [exact Hlast|]. reflexivity.
    + unfold round. rewrite Hscan. destruct b as [bi bc]. simpl in *.
      destruct (Z.ltb_spec bi 0); [lia|].
      unfold load. rewrite Ek, Hp. simpl. rewrite Hst. simpl. rewrite HI. simpl.
      rewrite Hlast. simpl. reflexivity.
Qed.

Lemma round_spec (s : packState) :
  packInv a atlasSize s ->
  (roundPairs s = [] /\ round fuel s = Ret None) \/
  (exists b p img leaf s',
     firstLowest b (roundPairs s) /\
     roundCommits fuel s b p img leaf s' /\
     round fuel s = Ret (Some s')).
Proof.
  intros Hinv.
  destruct (round_scan_spec s Hinv)
    as [(? & _ & ?)|(b & p & img & leaf & s' & _ & _ & ? & ? & ?)]; [left; auto|].
  right. exists b, p, img, leaf, s'. auto.
Qed.

Lemma paddedRect_setAtlasPos (img : AtlasImage) (r : Rectangle) :
  paddedRect (setAtlasPos img (Min r)) = cornerOf r (paddedSize img).
Proof. reflexivity. Qed.

(** A committing round keeps the invariant. *)
Lemma roundCommits_inv (s s' : packState) (b : best) (p : nat) (img : AtlasImage)
    (leaf : node) :
  packInv a atlasSize s ->
  roundCommits fuel s b p img leaf s' ->
  packInv a atlasSize s'.
Proof.
  intros Hinv (Hp & Hst & Hd & Hl & Hu & Hf & root' & last & HI & Hlast & ->).
  assert (Hpin : p ∈ images s) by (eapply list_elem_of_lookup_2; eauto).
  destruct (unplaced_sprite s p Hinv Hpin) as (img' & Hst' & Ha & Hok).
  assert (img' = img) by congruence. subst img'.
  destruct (padded_ok img Hok) as (Hsz & _).
  destruct (inv_tree _ _ _ Hinv _ _ Hd) as (Hcl & Hil & Hch).
  assert (Hrl : Right leaf = None).
  { rewrite Hl in Hch. destruct (Right leaf); [contradiction|reflexivity]. }
  pose proof (swapRemove_perm _ _ _ _ Hp Hlast) as Hperm.
  set (imgs' := swapRemove (images s) (Z.to_nat (fst b)) last) in *.
  assert (Hnd : NoDup (p :: imgs')) by (rewrite Hperm; apply (inv_nodup _ _ _ Hinv)).
  apply list.NoDup_cons in Hnd as [Hpn Hnd].
  assert (Hmem : forall i, i ∈ images s <-> i = p \/ i ∈ imgs').
  { intros i. rewrite <- Hperm. apply elem_of_cons. }
  assert (Hfits : 0 <= Dx (Rect leaf) /\ 0 <= Dy (Rect leaf)).
  { destruct Hsz as (_ & ? & ?), Hf. lia. }
  destruct (InsertAt_deref _ _ _ _ _ _ HI) as (n0 & n' & Hd0 & HIn & Hq).
  assert (n0 = leaf) by congruence. subst n0.
  destruct (Insert_corner_leaf _ _ _ _ _ Hcl Hil Hsz Hl Hrl HIn)
    as (_ & q & cl & Hcl1 & Hcu & Hcll & Hclr & Hcr).
  split; simpl.
  - rewrite <- (list_insert_id (Images a) p img Ha).
    apply Forall2_insert; [apply (inv_store _ _ _ Hinv)|]. repeat split.
  - exact Hnd.
  - intros i Hi. assert (Hi' : i ∈ images s) by (apply Hmem; auto).
    assert (i <> p) by (intros ->; contradiction).
    rewrite list_lookup_insert_ne by congruence.
    apply (inv_unplaced _ _ _ Hinv i Hi').
  - apply (InsertAt_nodeOk _ _ _ _ _ _ Hsz (inv_tree _ _ _ Hinv) HI).
  - apply (InsertAt_splitUsed _ _ _ _ _ _ (inv_used _ _ _ Hinv) HI).
  - apply (InsertAt_splitRepr _ _ _ _ _ _ _ Hsz Hd Hcl Hil (proj1 Hfits) (proj2 Hfits)
             (inv_repr _ _ _ Hinv) HI).
  - rewrite (InsertAt_Rect _ _ _ _ _ _ HI). apply (inv_root _ _ _ Hinv).
  - destruct (inv_placed _ _ _ Hinv) as (f & Hf1 & Hf2).
    assert (Hold : forall i, (i < length (Images a))%nat -> i ∉ imgs' -> i <> p ->
                     i ∉ images s).
    { intros i _ Hi Hne Hin. apply Hmem in Hin as [->|Hin]; contradiction. }
    assert (Hne_cand : forall i, (i < length (Images a))%nat -> i ∉ images s ->
                         forall q', f i <> Candidate (snd b) ++ q').
    { intros i Hi Hni q' E. destruct (Hf1 i Hi Hni) as (im & lf & _ & Hdl & Hul & _).
      rewrite E, deref_app, Hd in Hdl. simpl in Hdl.
      destruct q' as [|d q']; simpl in Hdl.
      - injection Hdl as <-. congruence.
      - destruct d; simpl in Hdl; [rewrite Hl in Hdl|rewrite Hrl in Hdl]; discriminate. }
    exists (fun i => if decide (i = p) then Candidate (snd b) ++ q else f i). split.
    + intros i Hi Hni. unfold placedAt. cbn [store root]. case_decide as Hip.
      * subst i. exists (setAtlasPos img (Min (Rect leaf))), cl.
        split. { apply list_lookup_insert_eq. eapply lookup_lt_Some; eauto. }
        split. { rewrite Hq. exact Hcl1. }
        split; [exact Hcu|]. split; [exact Hcll|]. split; [exact Hclr|].
        rewrite Hcr. rewrite paddedRect_setAtlasPos. reflexivity.
      * destruct (Hf1 i Hi (Hold i Hi Hni Hip)) as (im & lf & Hsi & Hdl & Hul & Hll & Hlr & Hrr).
        exists im, lf. split. { rewrite list_lookup_insert_ne by congruence. exact Hsi. }
        split; [|auto].
        apply (InsertAt_other_leaf _ _ _ _ _ _ _ HI Hd Hl Hrl _ _ Hdl Hll Hlr).
        intros E. apply (Hne_cand i Hi (Hold i Hi Hni Hip) []). now rewrite app_nil_r.
    + intros i j Hi Hj Hni Hnj Hij.
      repeat case_decide; subst; try congruence.
      * intros E. apply (Hne_cand j Hj (Hold j Hj Hnj ltac:(congruence)) q). congruence.
      * apply (Hne_cand i Hi (Hold i Hi Hni ltac:(congruence)) q).
      * apply Hf2; auto.
Qed.

Lemma round_inv (s s' : packState) :
  packInv a atlasSize s -> round fuel s = Ret (Some s') -> packInv a atlasSize s'.
Proof.
  intros Hinv Hr. destruct (round_spec s Hinv) as [[_ H]|(b & p & img & leaf & s0 & _ & Hc & H)].
  - congruence.
  - assert (s0 = s') by congruence. subst. eapply roundCommits_inv; eauto.
Qed.

Lemma rounds_inv (s : packState) :
  rounds fuel (initState a atlasSize) s -> packInv a atlasSize s.
Proof.
  induction 1 as [|s' s'' _ IH Hr]; [apply initState_inv|]. apply (round_inv _ _ IH Hr).
Qed.

Lemma rounds_front (s s1 s' : packState) :
  round fuel s = Ret (Some s1) -> rounds fuel s1 s' -> rounds fuel s s'.
Proof.
  intros Hr. induction 1 as [|s' s'' _ IH Hr'].
  - eapply rounds_more; [apply rounds_none|exact Hr].
  - eapply rounds_more; [exact IH|exact Hr'].
Qed.

Lemma rounds_from_inv (s s' : packState) :
  packInv a atlasSize s -> rounds fuel s s' -> packInv a atlasSize s'.
Proof.
  intros Hinv. induction 1 as [|s' s'' _ IH Hr]; [exact Hinv|]. apply (round_inv _ _ IH Hr).
Qed.

(** The loop ends: without error when no sprite is left, with the fit
    error at the first round that finds no candidate. *)
Lemma packLoop_spec (n : nat) (s : packState) :
  packInv a atlasSize s -> (length (images s) <= n)%nat ->
  exists s' err,
    packLoop fuel n s = Ret (s', err) /\ rounds fuel s s' /\
    (err = None /\ images s' = [] \/
     err = Some fitError /\ images s' <> [] /\ roundPairs s' = [] /\
     round fuel s' = Ret None).
Proof.
  revert s. induction n as [|n IH]; intros s Hinv Hlen.
  - destruct (images s) as [|p l] eqn:E; [|simpl in Hlen; lia].
    exists s, None. split; [cbn [packLoop]; now rewrite E|].
    split; [apply rounds_none|]. left. auto.
  - destruct (images s) as [|p0 l] eqn:E.
    { exists s, None. split; [cbn [packLoop]; now rewrite E|].
      split; [apply rounds_none|]. left. auto. }
    destruct (round_spec s Hinv) as [[Hnil Hr]|(b & p & img & leaf & s1 & _ & Hc & Hr)].
    + exists s, (Some fitError). split.
      { cbn [packLoop]. rewrite E, Hr. reflexivity. }
      split; [apply rounds_none|]. right. rewrite E. auto.
    + pose proof (roundCommits_inv _ _ _ _ _ _ Hinv Hc) as Hinv1.
      assert (Hlen1 : (length (images s1) <= n)%nat).
      { destruct Hc as (Hp & _ & _ & _ & _ & _ & root' & last & _ & Hlast & ->). simpl.
        pose proof (swapRemove_perm _ _ _ _ Hp Hlast) as Hperm.
        apply Permutation_length in Hperm. simpl in Hperm. rewrite E in *. simpl in *. lia. }
      destruct (IH s1 Hinv1 Hlen1) as (s' & err & HL & Hrs & Hend).
      exists s', err. split.
      { cbn [packLoop]. rewrite E, Hr. exact HL. }
      split; [exact (rounds_front _ _ _ Hr Hrs)|exact Hend].
Qed.

(** What a committing round leaves untouched. *)
Lemma roundCommits_keeps (s s' : packState) (b : best) (p : nat) (img : AtlasImage)
    (leaf : node) :
  packInv a atlasSize s ->
  roundCommits fuel s b p img leaf s' ->
  treeKeeps (root s) (root s') /\
  p ∈ images s /\
  (forall i, i ∈ images s' -> i ∈ images s) /\
  (forall i, i <> p -> store s' !! i = store s !! i) /\
  (forall i q, i <> p -> placedAt s i q -> placedAt s' i q).
Proof.
  intros Hinv (Hp & Hst & Hd & Hl & Hu & Hf & root' & last & HI & Hlast & ->).
  destruct (inv_tree _ _ _ Hinv _ _ Hd) as (_ & _ & Hch).
  assert (Hrl : Right leaf = None).
  { rewrite Hl in Hch. destruct (Right leaf); [contradiction|reflexivity]. }
  pose proof (swapRemove_perm _ _ _ _ Hp Hlast) as Hperm.
  pose proof (InsertAt_keeps _ _ _ _ _ _ _ HI Hd Hl Hrl) as Hkeep.
  cbn [root store images].
  split; [exact Hkeep|].
  split; [eapply list_elem_of_lookup_2; eauto|].
  split. { intros i Hi. rewrite <- Hperm. now right. }
  split. { intros i Hi. apply list_lookup_insert_ne. congruence. }
  intros i q Hi (im & lf & Hsi & Hdl & Hul & Hll & Hlr & Hrr).
  exists im, lf. cbn [root store].
  split. { rewrite list_lookup_insert_ne by congruence. exact Hsi. }
  split; [|auto].
  apply (InsertAt_other_leaf _ _ _ _ _ _ _ HI Hd Hl Hrl _ _ Hdl Hll Hlr).
  intros ->. congruence.
Qed.

(** What is committed stays: later rounds keep the nodes of the tree,
    the record of every sprite that is not among those still to place,
    and the leaf it sits in. *)
Lemma rounds_keep (s1 s2 : packState) :
  packInv a atlasSize s1 ->
  rounds fuel s1 s2 ->
  treeKeeps (root s1) (root s2) /\
  (forall i, i ∈ images s2 -> i ∈ images s1) /\
  (forall i, i ∉ images s1 -> store s2 !! i = store s1 !! i) /\
  (forall i, i ∈ images s2 -> store s2 !! i = store s1 !! i) /\
  (forall i q, i ∉ images s1 -> placedAt s1 i q -> placedAt s2 i q).
Proof.
  intros Hinv. induction 1 as [|s2 s3 Hr12 IH Hr].
  - split; [apply treeKeeps_refl|]. auto.
  - destruct IH as (Hk & Hsub & Hout & Hin & Hpl).
    pose proof (rounds_from_inv _ _ Hinv Hr12) as Hinv2.
    destruct (round_spec s2 Hinv2) as [[_ H]|(b & p & img & leaf & s0 & _ & Hc & H)];
      [congruence|].
    assert (s0 = s3) by congruence. subst s0.
    destruct (roundCommits_keeps _ _ _ _ _ _ Hinv2 Hc) as (Hk' & Hp & Hsub' & Hst' & Hpl').
    pose proof (roundCommits_inv _ _ _ _ _ _ Hinv2 Hc) as Hinv3.
    assert (Hp3 : p ∉ images s3).
    { destruct Hc as (Hpk & _ & _ & _ & _ & _ & root' & last & _ & Hlast & ->). simpl.
      pose proof (swapRemove_perm _ _ _ _ Hpk Hlast) as Hperm.
      pose proof (inv_nodup _ _ _ Hinv2) as Hnd. rewrite <- Hperm in Hnd.
      now apply list.NoDup_cons in Hnd as [? _]. }
    split; [exact (treeKeeps_trans _ _ _ Hk Hk')|].
    split; [auto|].
    split.
    { intros i Hi. rewrite Hst'; [auto|]. intros ->. apply Hi, Hsub, Hp. }
    split.
    { intros i Hi. rewrite Hst'; [auto|]. intros ->. contradiction. }
    intros i q Hi Hpi. apply Hpl'; [|auto]. intros ->. apply Hi, Hsub, Hp.
Qed.

End Packer.

(** ** The packer: selection *)

(** C3: in every round of [PackImages], the candidates enumerated for a
    sprite still to place are, left to right, exactly the unused leaves
    in which its padded size fits, each scored with the smaller of the
    two slacks; the round fails when no sprite has a candidate, and
    otherwise commits, with that padded size, the first pair of lowest
    score in the order the loops meet the pairs. *)
Theorem C3_greedy_best_fit (a : Atlas) (atlasSize : Point) (fuel : nat) (s : packState) :
  (3 <= fuel)%nat -> int_point atlasSize -> Forall spriteOk (Images a) ->
  rounds fuel (initState a atlasSize) s ->
  (forall p img, p ∈ images s -> store s !! p = Some img ->
     FindInsertCandidates (paddedSize img) (root s) =
       Ret (candidatesOf (paddedSize img) (root s)) /\
     forall c, c ∈ candidatesOf (paddedSize img) (root s) <->
       exists n, deref (Candidate c) (root s) = Some n /\ Left n = None /\
                 Used n = false /\ fits (paddedSize img) (Rect n) /\
                 Score c = Z.min (slackX (Rect n) (paddedSize img))
                                 (slackY (Rect n) (paddedSize img))) /\
  ((roundPairs s = [] /\
    scanImages (store s) (root s) (images s) 0 noBest = Ret noBest /\
    round fuel s = Ret None) \/
   (exists b p img leaf s',
      scanImages (store s) (root s) (images s) 0 noBest = Ret b /\
      0 <= fst b /\
      firstLowest b (roundPairs s) /\
      roundCommits fuel s b p img leaf s' /\
      round fuel s = Ret (Some s'))).
Proof.
  intros Hfuel Hcanvas Hsprites Hr.
  pose proof (rounds_inv a atlasSize fuel Hfuel Hcanvas Hsprites s Hr) as Hinv.
  split; [|apply (round_scan_spec a atlasSize fuel Hfuel Hsprites s Hinv)].
  intros p img Hp Hst.
  destruct (unplaced_sprite a atlasSize Hsprites s p Hinv Hp) as (img' & Hst' & _ & Hok).
  assert (img' = img) by congruence. subst img'.
  split.
  - apply FindInsertCandidates_spec; [apply padded_ok, Hok| |].
    + apply (inv_tree _ _ _ Hinv).
    + apply (inv_repr _ _ _ Hinv).
  - intros c. split; [apply candidatesOf_elem|].
    intros (n & Hd & Hl & Hu & Hf & Hs).
    apply (candidatesOf_intro _ _ _ n); auto. apply (inv_tree _ _ _ Hinv).
Qed.

Lemma C3_greedy_best_fit_witness :
  let s := initState (mkAtlas [blankSprite 1 1; blankSprite 1 1]) (Pt 6 4) in
  (roundPairs s = [] /\
   scanImages (store s) (root s) (images s) 0 noBest = Ret noBest /\
   round 3 s = Ret None) \/
  (exists b p img leaf s',
     scanImages (store s) (root s) (images s) 0 noBest = Ret b /\
     0 <= fst b /\
     firstLowest b (roundPairs s) /\
     roundCommits 3 s b p img leaf s' /\
     round 3 s = Ret (Some s')).
Proof.
  intros s.
  apply (C3_greedy_best_fit (mkAtlas [blankSprite 1 1; blankSprite 1 1]) (Pt 6 4) 3 s).
  - lia.
  - concrete.
  - repeat constructor; concrete.
  - apply rounds_none.
Defined.

(** ** The packer: all or fail *)

(** How [PackImages] ends, with the state of its loop at the end. *)
Lemma PackImages_outcome (a : Atlas) (atlasSize : Point) (fuel : nat) :
  (3 <= fuel)%nat -> (length (Images a) <= fuel)%nat ->
  int_point atlasSize -> Forall spriteOk (Images a) ->
  exists s' err,
    packLoop fuel fuel (initState a atlasSize) = Ret (s', err) /\
    PackImages fuel a atlasSize = Ret (mkAtlas (store s'), err) /\
    rounds fuel (initState a atlasSize) s' /\
    (err = None /\ images s' = [] \/
     err = Some fitError /\ images s' <> [] /\ roundPairs s' = [] /\
     round fuel s' = Ret None).
Proof.
  intros Hfuel Hlen Hcanvas Hsprites.
  pose proof (initState_inv a atlasSize fuel Hfuel Hcanvas) as Hinit.
  destruct (packLoop_spec a atlasSize fuel Hfuel Hsprites fuel _ Hinit) as (s' & err & HL & Hr & Hend).
  { simpl. rewrite length_seq. exact Hlen. }
  exists s', err. split; [exact HL|].
  split; [unfold PackImages; rewrite HL; reflexivity|].
  split; [exact Hr|exact Hend].
Qed.

(** C4: [PackImages] returns, and in one of two ways: without error,
    no sprite left to place and every sprite of the input sitting in a
    used leaf of the tree at its recorded position; or with the one fit
    error, at a round where no sprite still to place has a candidate.
    The atlas returned holds the same sprites as the input, position
    apart. *)
Theorem C4_all_or_fail (a : Atlas) (atlasSize : Point) (fuel : nat) :
  (3 <= fuel)%nat -> (length (Images a) <= fuel)%nat ->
  int_point atlasSize -> Forall spriteOk (Images a) ->
  exists s' err,
    packLoop fuel fuel (initState a atlasSize) = Ret (s', err) /\
    PackImages fuel a atlasSize = Ret (mkAtlas (store s'), err) /\
    rounds fuel (initState a atlasSize) s' /\
    Forall2 sameSprite (Images a) (store s') /\
    ((err = None /\ images s' = [] /\
      forall i, (i < length (Images a))%nat -> exists p, placedAt s' i p) \/
     (err = Some fitError /\ images s' <> [] /\
      round fuel s' = Ret None /\
      forall p img, p ∈ images s' -> store s' !! p = Some img ->
        FindInsertCandidates (paddedSize img) (root s') = Ret [])).
Proof.
  intros Hfuel Hlen Hcanvas Hsprites.
  destruct (PackImages_outcome a atlasSize fuel Hfuel Hlen Hcanvas Hsprites)
    as (s' & err & HL & HP & Hr & Hend).
  pose proof (rounds_inv a atlasSize fuel Hfuel Hcanvas Hsprites s' Hr) as Hinv.
  exists s', err. split; [exact HL|]. split; [exact HP|].
  split; [exact Hr|]. split; [apply (inv_store _ _ _ Hinv)|].
  destruct Hend as [(-> & Himgs)|(-> & Hne & Hnil & Hround)]; [left|right].
  - split; [reflexivity|]. split; [exact Himgs|].
    intros i Hi. destruct (inv_placed _ _ _ Hinv) as (f & Hf & _).
    exists (f i). apply Hf; [exact Hi|]. rewrite Himgs. apply not_elem_of_nil.
  - split; [reflexivity|]. split; [exact Hne|]. split; [exact Hround|].
    intros p img Hp Hst.
    destruct (unplaced_sprite a atlasSize Hsprites s' p Hinv Hp) as (img' & Hst' & _ & Hok).
    assert (img' = img) by congruence. subst img'.
    rewrite FindInsertCandidates_spec.
    + f_equal. apply (pairsFrom_nil _ _ _ _ _ _ Hnil Hp Hst).
    + apply padded_ok, Hok.
    + apply (inv_tree _ _ _ Hinv).
    + apply (inv_repr _ _ _ Hinv).
Qed.

Lemma C4_all_or_fail_witness :
  exists s' err,
    PackImages 3 (mkAtlas [blankSprite 1 1; blankSprite 1 1]) (Pt 6 4) =
      Ret (mkAtlas (store s'), err) /\
    ((err = None /\ images s' = []) \/ (err = Some fitError /\ images s' <> [])).
Proof.
  destruct (C4_all_or_fail (mkAtlas [blankSprite 1 1; blankSprite 1 1]) (Pt 6 4) 3)
    as (s' & err & _ & HP & _ & _ & H).
  - lia.
  - simpl. lia.
  - concrete.
  - repeat constructor; concrete.
  - exists s', err. split; [exact HP|].
    destruct H as [(? & ? & _)|(? & ? & _)]; [left|right]; split; assumption.
Defined.

(** ** The packer: placements *)

(** C7: after a run of [PackImages] without error on a canvas of
    positive size, every sprite sits in a used leaf of the tree whose
    rectangle is its padded rectangle: its position, and its trimmed
    size plus one on each axis, the size used to search and to commit;
    the padded rectangles of two distinct sprites share no pixel; and
    the rectangle each sprite is drawn into lies within the canvas. *)
Theorem C7_no_overlap_and_containment (a a' : Atlas) (atlasSize : Point) (fuel : nat) :
  (3 <= fuel)%nat -> (length (Images a) <= fuel)%nat ->
  int_point atlasSize -> 0 < X atlasSize -> 0 < Y atlasSize ->
  Forall spriteOk (Images a) ->
  PackImages fuel a atlasSize = Ret (a', None) ->
  exists s',
    packLoop fuel fuel (initState a atlasSize) = Ret (s', None) /\
    Images a' = store s' /\
    (forall i img, Images a' !! i = Some img ->
       paddedSize img = Pt (Dx (Bounds (Image img)) + 1) (Dy (Bounds (Image img)) + 1) /\
       (exists p, placedAt s' i p) /\
       inside (paddedRect img) (image.Rect 1 1 (X atlasSize) (Y atlasSize)) /\
       inside (dstrect img) (canvasRect atlasSize)) /\
    (forall i j img_i img_j, i <> j ->
       Images a' !! i = Some img_i -> Images a' !! j = Some img_j ->
       disjoint (paddedRect img_i) (paddedRect img_j)).
Proof.
  intros Hfuel Hlen Hcanvas HW HH Hsprites HP.
  destruct (PackImages_outcome a atlasSize fuel Hfuel Hlen Hcanvas Hsprites)
    as (s' & err & HL & HP' & Hr & Hend).
  rewrite HP in HP'. injection HP' as -> <-.
  destruct Hend as [(_ & Himgs)|(? & _)]; [|discriminate].
  pose proof (rounds_inv a atlasSize fuel Hfuel Hcanvas Hsprites s' Hr) as Hinv.
  pose proof (inv_store _ _ _ Hinv) as Hsame.
  destruct (inv_placed _ _ _ Hinv) as (f & Hf1 & Hf2).
  assert (Hplaced : forall i img, store s' !! i = Some img ->
            (i < length (Images a))%nat /\ spriteOk img /\
            exists leaf, deref (f i) (root s') = Some leaf /\ Used leaf = true /\
                         Left leaf = None /\ Right leaf = None /\
                         Rect leaf = paddedRect img).
  { intros i img Hi.
    assert (Hlt : (i < length (Images a))%nat).
    { pose proof (Forall2_length Hsame) as E. rewrite E.
      eapply lookup_lt_Some; eauto. }
    split; [exact Hlt|].
    split; [apply (store_sprite a atlasSize Hsprites s' i img Hinv Hi)|].
    destruct (Hf1 i Hlt) as (img0 & leaf & H0 & Hleaf).
    { rewrite Himgs. apply not_elem_of_nil. }
    assert (img0 = img) by congruence. subst img0. eauto. }
  exists s'. split; [exact HL|]. split; [reflexivity|]. simpl. split.
  - intros i img Hi. destruct (Hplaced i img Hi) as (Hlt & Hok & leaf & Hd & Hu & Hl & Hrt & HR).
    destruct (padded_ok img Hok) as (_ & EX & EY).
    assert (Hin : inside (paddedRect img) (image.Rect 1 1 (X atlasSize) (Y atlasSize))).
    { rewrite <- HR, <- (inv_root _ _ _ Hinv).
      apply (deref_inside _ _ _ (inv_tree _ _ _ Hinv) Hd). }
    split; [destruct (paddedSize img); simpl in *; congruence|].
    split. { exists (f i), img, leaf. simpl in Hi. repeat split; assumption. }
    split; [exact Hin|].
    revert Hin. unfold paddedRect, cornerOf, dstrect, canvasRect, inside, image.Rect.
    cbn [Min Max X Y]. rewrite EX, EY.
    destruct Hok as [Hx Hy]. destruct Hcanvas as [HiX HiY].
    revert Hx Hy. generalize (Dx (Bounds (Image img))) (Dy (Bounds (Image img))).
    intros w h Hw Hh.
    destruct (AtlasPos img) as [px py]. cbn [X Y].
    destruct (Z.ltb_spec (X atlasSize) 1); [lia|].
    destruct (Z.ltb_spec (Y atlasSize) 1); [lia|]. simpl.
    destruct (Z.ltb_spec (X atlasSize) 0); [lia|].
    destruct (Z.ltb_spec (Y atlasSize) 0); [lia|]. simpl.
    intros Hin.
    assert (E1 : iadd px w = px + w) by int_lia.
    assert (E2 : iadd py h = py + h) by int_lia.
    rewrite E1, E2.
    destruct (Z.ltb_spec (px + w) px); [lia|].
    destruct (Z.ltb_spec (py + h) py); [lia|]. simpl. lia.
  - intros i j img_i img_j Hij Hi Hj.
    destruct (Hplaced i img_i Hi) as (Hlti & _ & li & Hdi & _ & Hli & Hri & HRi).
    destruct (Hplaced j img_j Hj) as (Hltj & _ & lj & Hdj & _ & Hlj & Hrj & HRj).
    rewrite <- HRi, <- HRj.
    apply (distinct_leaves_disjoint (root s') (f i) (f j)); auto.
    + apply (inv_tree _ _ _ Hinv).
    + apply Hf2; auto; rewrite Himgs; apply not_elem_of_nil.
Qed.

Lemma C7_no_overlap_and_containment_witness :
  exists a',
    PackImages 3 (mkAtlas [blankSprite 1 1; blankSprite 1 1]) (Pt 6 4) = Ret (a', None) /\
    map AtlasPos (Images a') = [Pt 1 1; Pt 3 1] /\
    (forall i img, Images a' !! i = Some img -> inside (dstrect img) (canvasRect (Pt 6 4))) /\
    (forall i j img_i img_j, i <> j ->
       Images a' !! i = Some img_i -> Images a' !! j = Some img_j ->
       disjoint (paddedRect img_i) (paddedRect img_j)).
Proof.
  eexists. split; [vm_compute; reflexivity|]. split; [reflexivity|].
  match goal with
  | |- context [Images ?x] =>
      destruct (C7_no_overlap_and_containment
                  (mkAtlas [blankSprite 1 1; blankSprite 1 1]) x (Pt 6 4) 3)
        as (s' & _ & _ & Hin & Hdis)
  end.
  - lia.
  - simpl. lia.
  - concrete.
  - reflexivity.
  - reflexivity.
  - repeat constructor; concrete.
  - vm_compute. reflexivity.
  - split; [|exact Hdis]. intros i img Hi. apply (Hin i img Hi).
Defined.

(** ** The packer: the precondition of a commit *)

(** C8: [Insert] panics on a node that is used, and on an unused node
    that is narrower or lower than the size; and in every round of
    [PackImages] the call of [Insert] on the winning candidate, with the
    padded size the search used, is on an unused node in which the size
    fits and returns: the round does not panic. *)
Theorem C8_commit_precondition :
  (forall fuel size n, Used n = true -> Insert (S fuel) size n = Panic) /\
  (forall fuel size n,
     int_point size ->
     (0 <= Dx (Rect n) < X size) \/ (0 <= Dy (Rect n) < Y size) ->
     Insert (S fuel) size n = Panic) /\
  (forall a atlasSize fuel s,
     (3 <= fuel)%nat -> int_point atlasSize -> Forall spriteOk (Images a) ->
     rounds fuel (initState a atlasSize) s ->
     round fuel s <> Panic /\
     forall bestImage bestCandidate,
       scanImages (store s) (root s) (images s) 0 noBest = Ret (bestImage, bestCandidate) ->
       0 <= bestImage ->
       exists p img n root' r,
         images s !! Z.to_nat bestImage = Some p /\ store s !! p = Some img /\
         deref (Candidate bestCandidate) (root s) = Some n /\
         Used n = false /\ fits (paddedSize img) (Rect n) /\
         InsertAt fuel (Candidate bestCandidate) (paddedSize img) (root s) = Ret (root', r)).
Proof.
  split; [|split].
  - intros fuel size n Hu. simpl. now rewrite Hu.
  - intros fuel size n [Hx Hy] H. cbn [Insert]. destruct (Used n); [reflexivity|]. cbv zeta.
    unfold Sub, Size. cbn [X Y].
    assert (Hneg : isub (Dx (Rect n)) (X size) < 0 \/ isub (Dy (Rect n)) (Y size) < 0).
    { revert H. generalize (Dx (Rect n)) (Dy (Rect n)). intros w h H.
      destruct size as [sx sy]. simpl in *. destruct H; [left|right]; int_lia. }
    destruct (Z.ltb_spec (isub (Dx (Rect n)) (X size)) 0); [reflexivity|].
    destruct (Z.ltb_spec (isub (Dy (Rect n)) (Y size)) 0); [reflexivity|]. lia.
  - intros a atlasSize fuel s Hfuel Hcanvas Hsprites Hr.
    pose proof (rounds_inv a atlasSize fuel Hfuel Hcanvas Hsprites s Hr) as Hinv.
    destruct (round_scan_spec a atlasSize fuel Hfuel Hsprites s Hinv)
      as [(Hnil & Hscan & Hnone)|(b & p & img & leaf & s' & Hscan & Hb & Hfl & Hc & Hsome)].
    + split; [congruence|]. intros bi bc Hs Hbi. exfalso.
      rewrite Hscan in Hs. injection Hs as <- _. lia.
    + split; [congruence|]. intros bi bc Hs _.
      rewrite Hscan in Hs. injection Hs as ->.
      destruct Hc as (Hp & Hst & Hd & Hl & Hu & Hf & root' & last & HI & _).
      exists p, img, leaf, root', (cornerOf (Rect leaf) (paddedSize img)).
      repeat split; try assumption; apply Hf.
Qed.

Lemma C8_commit_precondition_witness :
  Insert 1 (Pt 1 1) (mkNode None None (image.Rect 0 0 2 2) true) = Panic /\
  Insert 1 (Pt 3 1) (fresh (image.Rect 0 0 2 2)) = Panic /\
  round 3 (initState (mkAtlas [blankSprite 1 1; blankSprite 1 1]) (Pt 6 4)) <> Panic.
Proof.
  destruct C8_commit_precondition as (Hused & Hsmall & Hround).
  split; [apply Hused; reflexivity|].
  split.
  - apply Hsmall; [concrete|]. left. concrete.
  - apply (Hround (mkAtlas [blankSprite 1 1; blankSprite 1 1]) (Pt 6 4) 3%nat).
    + lia.
    + concrete.
    + repeat constructor; concrete.
    + apply rounds_none.
Defined.

(** ** The packer: what a failure leaves behind *)

(** C10: when [PackImages] returns the fit error, the atlas it leaves
    is the one of the last round reached, not the one of the start:
    whatever an earlier round committed is still there. A sprite placed
    by then keeps its record and sits in its used leaf; every node the
    tree had by then is still in the tree, with its rectangle and used
    if it was; a sprite never placed has the record of the input. *)
Theorem C10_no_rollback (a a' : Atlas) (atlasSize : Point) (fuel : nat) (e : error) :
  (3 <= fuel)%nat -> (length (Images a) <= fuel)%nat ->
  int_point atlasSize -> Forall spriteOk (Images a) ->
  PackImages fuel a atlasSize = Ret (a', Some e) ->
  exists s',
    packLoop fuel fuel (initState a atlasSize) = Ret (s', Some e) /\
    e = fitError /\ Images a' = store s' /\
    rounds fuel (initState a atlasSize) s' /\ round fuel s' = Ret None /\
    (forall i, i ∈ images s' -> Images a' !! i = Images a !! i) /\
    (forall i, (i < length (Images a))%nat -> i ∉ images s' -> exists p, placedAt s' i p) /\
    (forall s1, rounds fuel (initState a atlasSize) s1 -> rounds fuel s1 s' ->
       treeKeeps (root s1) (root s') /\
       (forall i, i ∉ images s1 -> Images a' !! i = store s1 !! i) /\
       (forall i p, i ∉ images s1 -> placedAt s1 i p -> placedAt s' i p)).
Proof.
  intros Hfuel Hlen Hcanvas Hsprites HP.
  destruct (PackImages_outcome a atlasSize fuel Hfuel Hlen Hcanvas Hsprites)
    as (s' & err & HL & HP' & Hr & Hend).
  rewrite HP in HP'. injection HP' as -> <-.
  destruct Hend as [(? & _)|(He & Hne & _ & Hnone)]; [discriminate|].
  injection He as ->.
  pose proof (rounds_inv a atlasSize fuel Hfuel Hcanvas Hsprites s' Hr) as Hinv.
  exists s'. split; [exact HL|]. split; [reflexivity|]. split; [reflexivity|].
  split; [exact Hr|]. split; [exact Hnone|]. simpl.
  split. { intros i Hi. apply (inv_unplaced _ _ _ Hinv i Hi). }
  split. { destruct (inv_placed _ _ _ Hinv) as (f & Hf & _). intros i Hi Hn. eauto. }
  intros s1 Hr1 Hr1'.
  pose proof (rounds_inv a atlasSize fuel Hfuel Hcanvas Hsprites s1 Hr1) as Hinv1.
  destruct (rounds_keep a atlasSize fuel Hfuel Hsprites s1 s' Hinv1 Hr1')
    as (Hk & _ & Hout & _ & Hpl).
  auto.
Qed.

Lemma C10_no_rollback_witness :
  exists a',
    PackImages 3 (mkAtlas [blankSprite 1 1; blankSprite 1 1]) (Pt 4 4) =
      Ret (a', Some fitError) /\
    map AtlasPos (Images a') = [Pt 1 1; Pt 0 0] /\
    a' <> mkAtlas [blankSprite 1 1; blankSprite 1 1] /\
    exists s', Images a' = store s' /\ images s' = [1%nat] /\
               exists p, placedAt s' 0 p.
Proof.
  eexists. split; [vm_compute; reflexivity|]. split; [reflexivity|].
  split; [discriminate|].
  match goal with
  | |- context [Images ?x] =>
      destruct (C10_no_rollback (mkAtlas [blankSprite 1 1; blankSprite 1 1]) x (Pt 4 4) 3
                  fitError)
        as (s' & HL & _ & Hst & _ & _ & _ & Hpl & _)
  end.
  - lia.
  - simpl. lia.
  - concrete.
  - repeat constructor; concrete.
  - vm_compute. reflexivity.
  - vm_compute in HL. injection HL as <-.
    match type of Hpl with context [images ?st] => exists st end.
    split; [reflexivity|]. split; [reflexivity|].
    apply Hpl; [simpl; lia|]. simpl. intros [=]%list_elem_of_singleton.
Defined.

(** ** Loops *)

Lemma elem_of_upto (n v : Z) : v ∈ upto n <-> 0 <= v < n.
Proof.
  unfold upto. rewrite list_elem_of_fmap. split.
  - intros (k & -> & Hk%elem_of_seq). lia.
  - intros H. exists (Z.to_nat v). split; [lia|]. apply elem_of_seq. lia.
Qed.

Lemma forM_pure {S : Type} (vs : list Z) (body : Z -> S -> outcome S) (f : Z -> S -> S)
    (s : S) :
  (forall v s, v ∈ vs -> body v s = Ret (f v s)) ->
  forM vs body s = Ret (fold_left (fun s v => f v s) vs s).
Proof.
  revert s. induction vs as [|v vs IH]; intros s H; [reflexivity|].
  simpl. rewrite H by left. simpl. apply IH. intros v' s' Hv. apply H. now right.
Qed.

Lemma fold_max_spec {A : Type} (g : A -> Z) (l : list A) (acc : Z) :
  let m := fold_left (fun acc v => Z.max acc (g v)) l acc in
  acc <= m /\ (forall v, v ∈ l -> g v <= m) /\ (m = acc \/ exists v, v ∈ l /\ g v = m).
Proof.
  revert acc. induction l as [|a l IH]; intros acc; simpl.
  - split; [lia|]. split; [|auto]. intros v Hv. now apply elem_of_nil in Hv.
  - destruct (IH (Z.max acc (g a))) as (H1 & H2 & H3). split; [lia|]. split.
    + intros v [->|Hv]%elem_of_cons; [lia|auto].
    + destruct H3 as [H3|(v & Hv & H3)].
      * destruct (Z.max_spec acc (g a)) as [[_ E]|[_ E]].
        -- right. exists a. split; [left|]. rewrite H3. symmetry. exact E.
        -- left. rewrite H3. exact E.
      * right. exists v. split; [now right|exact H3].
Qed.

(** The two nested loops of [ImageMaxAlpha] over a table [g] of values. *)
Lemma fold_max2_spec (g : Z -> Z -> Z) (xs ys : list Z) (acc : Z) :
  let m := fold_left (fun acc y => fold_left (fun acc x => Z.max acc (g x y)) xs acc) ys acc in
  acc <= m /\
  (forall x y, x ∈ xs -> y ∈ ys -> g x y <= m) /\
  (m = acc \/ exists x y, x ∈ xs /\ y ∈ ys /\ g x y = m).
Proof.
  revert acc. induction ys as [|y ys IH]; intros acc; simpl.
  - split; [lia|]. split; [|auto]. intros x y _ Hy. now apply elem_of_nil in Hy.
  - destruct (fold_max_spec (fun x => g x y) xs acc) as (A1 & A2 & A3).
    set (acc' := fold_left (fun acc x => Z.max acc (g x y)) xs acc) in *.
    destruct (IH acc') as (H1 & H2 & H3). split; [lia|]. split.
    + intros x y' Hx [->|Hy]%elem_of_cons; [|auto]. specialize (A2 x Hx). simpl in A2. lia.
    + destruct H3 as [H3|(x & y' & Hx & Hy & H3)].
      * destruct A3 as [A3|(x & Hx & A3)].
        -- left. congruence.
        -- right. exists x, y. split; [exact Hx|]. split; [left|]. congruence.
      * right. exists x, y'. split; [exact Hx|]. split; [now right|exact H3].
Qed.

Lemma while_spec {S : Type} (I : S -> Prop) (mu : S -> nat) (cond : S -> outcome bool)
    (test : S -> bool) (body : S -> S) :
  (forall s, I s -> cond s = Ret (test s)) ->
  (forall s, I s -> test s = true -> I (body s) /\ (mu (body s) < mu s)%nat) ->
  forall fuel s, I s -> (mu s < fuel)%nat ->
    exists s', while fuel cond body s = Ret s' /\ I s' /\ test s' = false.
Proof.
  intros Hcond Hbody. induction fuel as [|fuel IH]; intros s Hs Hmu; [lia|].
  simpl. rewrite (Hcond s Hs). simpl. destruct (test s) eqn:Et.
  - destruct (Hbody s Hs Et) as [HI Hlt]. apply IH; [exact HI|lia].
  - exists s. auto.
Qed.

(** ** Reading pixels *)

Lemma uint32_range (b : Byte.byte) : 0 <= uint32 b <= 255.
Proof.
  unfold uint32. pose proof (Byte.to_N_bounded b) as H. lia.
Qed.

Lemma alphaAt_range (p : RGBA) (x y : Z) : 0 <= alphaAt p x y <= 255.
Proof.
  unfold alphaAt. destruct (Pix p !! _); [apply uint32_range|lia].
Qed.

Lemma wf_offset (p : RGBA) (x y : Z) :
  wfRGBA p -> inRect x y (Bounds p) ->
  0 <= offsetOf p x y /\ offsetOf p x y + 3 < Z.of_nat (length (Pix p)).
Proof.
  unfold wfRGBA, inRect, offsetOf. intros (Hi & Hw & Hh & HS & H4 & Hlen & Hmax) [Hx Hy].
  set (dy := y - Y (Min (Bounds p))) in *.
  set (h := Y (Max (Bounds p)) - Y (Min (Bounds p))) in *.
  assert (0 <= dy * Stride p) by (apply Z.mul_nonneg_nonneg; lia).
  assert (dy * Stride p <= (h - 1) * Stride p) by (apply Z.mul_le_mono_nonneg_r; lia).
  lia.
Qed.

Lemma wf_extent (p : RGBA) :
  wfRGBA p ->
  Dx (Bounds p) = X (Max (Bounds p)) - X (Min (Bounds p)) /\
  Dy (Bounds p) = Y (Max (Bounds p)) - Y (Min (Bounds p)).
Proof.
  unfold wfRGBA. intros (Hi & Hw & Hh & HS & H4 & Hlen & Hmax).
  assert ((Y (Max (Bounds p)) - Y (Min (Bounds p)) - 1) * 4 <=
          (Y (Max (Bounds p)) - Y (Min (Bounds p)) - 1) * Stride p).
  { apply Z.mul_le_mono_nonneg_l; lia. }
  set (hs := (Y (Max (Bounds p)) - Y (Min (Bounds p)) - 1) * Stride p) in *.
  clearbody hs.
  destruct (Bounds p) as [[x0 y0] [x1 y1]]. unfold Dx, Dy, int_rect, int_point in *.
  simpl in *. split; int_lia.
Qed.

(** The index the loops of [ImageMaxAlpha] read at column [x], row [y]
    of the image is the alpha byte of that pixel. *)
Lemma index_alpha (p : RGBA) (x y : Z) :
  wfRGBA p -> 0 <= x < Dx (Bounds p) -> 0 <= y < Dy (Bounds p) ->
  exists a,
    index (Pix p) (iadd (iadd (imul x 4) (imul y (Stride p))) 3) = Ret a /\
    uint32 a = alphaAt p (X (Min (Bounds p)) + x) (Y (Min (Bounds p)) + y).
Proof.
  intros Hwf Hx Hy. destruct (wf_extent p Hwf) as [Ex Ey]. rewrite Ex in Hx. rewrite Ey in Hy.
  assert (Hin : inRect (X (Min (Bounds p)) + x) (Y (Min (Bounds p)) + y) (Bounds p)).
  { unfold inRect. lia. }
  destruct (wf_offset p _ _ Hwf Hin) as [H0 Hlt].
  unfold alphaAt. unfold offsetOf in *.
  replace (Y (Min (Bounds p)) + y - Y (Min (Bounds p))) with y in * by lia.
  replace (X (Min (Bounds p)) + x - X (Min (Bounds p))) with x in * by lia.
  destruct Hwf as (Hi & Hw & Hh & HS & H4 & Hlen & Hmax).
  assert (Hy0 : 0 <= y * Stride p) by (apply Z.mul_nonneg_nonneg; lia).
  assert (E : iadd (iadd (imul x 4) (imul y (Stride p))) 3 = y * Stride p + x * 4 + 3).
  { unfold imul. set (ys := y * Stride p) in *. clearbody ys. int_lia. }
  rewrite E. unfold index.
  destruct (Z.ltb_spec (y * Stride p + x * 4 + 3) 0); [lia|].
  destruct (Pix p !! Z.to_nat (y * Stride p + x * 4 + 3)) as [a|] eqn:Ea.
  - exists a. auto.
  - apply lookup_ge_None in Ea. lia.
Qed.

(** [ImageMaxAlpha] returns the largest alpha of an image. *)
Lemma ImageMaxAlpha_spec (p : RGBA) :
  wfRGBA p -> exists m, ImageMaxAlpha (ImageRGBA p) = Ret m /\ isMaxAlpha p m.
Proof.
  intros Hwf. destruct (wf_extent p Hwf) as [Ex Ey].
  set (g := fun x y => alphaAt p (X (Min (Bounds p)) + x) (Y (Min (Bounds p)) + y)).
  exists (fold_left (fun acc y => fold_left (fun acc x => Z.max acc (g x y))
                                    (upto (Dx (Bounds p))) acc)
            (upto (Dy (Bounds p))) 0).
  split.
  - unfold ImageMaxAlpha.
    apply (forM_pure _ _ (fun y acc => fold_left (fun acc x => Z.max acc (g x y))
                                         (upto (Dx (Bounds p))) acc)).
    intros y acc Hy%elem_of_upto.
    apply (forM_pure _ _ (fun x acc => Z.max acc (g x y))).
    intros x acc' Hx%elem_of_upto.
    destruct (index_alpha p x y Hwf Hx Hy) as (a & -> & Ea). simpl. f_equal.
    unfold g. rewrite <- Ea. destruct (Z.ltb_spec acc' (uint32 a)); lia.
  - destruct (fold_max2_spec g (upto (Dx (Bounds p))) (upto (Dy (Bounds p))) 0)
      as (H0 & Hle & Hex).
    set (m := fold_left _ _ 0) in *.
    assert (Hg : forall x y, inRect x y (Bounds p) ->
               alphaAt p x y = g (x - X (Min (Bounds p))) (y - Y (Min (Bounds p))) /\
               (x - X (Min (Bounds p))) ∈ upto (Dx (Bounds p)) /\
               (y - Y (Min (Bounds p))) ∈ upto (Dy (Bounds p))).
    { intros x y [Hx Hy]. unfold g. rewrite !elem_of_upto, Ex, Ey.
      split; [f_equal; lia|lia]. }
    split.
    + intros x y Hin. destruct (Hg x y Hin) as (-> & Hx & Hy). apply Hle; assumption.
    + destruct Hex as [E|(x & y & Hx%elem_of_upto & Hy%elem_of_upto & E)].
      * exists (X (Min (Bounds p))), (Y (Min (Bounds p))).
        destruct Hwf as (_ & Hw & Hh & _).
        assert (Hin : inRect (X (Min (Bounds p))) (Y (Min (Bounds p))) (Bounds p)).
        { unfold inRect. lia. }
        split; [exact Hin|].
        destruct (Hg _ _ Hin) as (Ea & Hx & Hy). specialize (Hle _ _ Hx Hy).
        rewrite <- Ea in Hle. pose proof (alphaAt_range p (X (Min (Bounds p))) (Y (Min (Bounds p)))).
        lia.
      * exists (X (Min (Bounds p)) + x), (Y (Min (Bounds p)) + y).
        split; [unfold inRect; lia|exact E].
Qed.

(** ** Sub-images *)

Lemma subRect_int (r b : Rectangle) : int_rect b -> subRect r b -> int_rect r.
Proof.
  unfold int_rect, int_point, is_int, subRect, inside.
  intros ((? & ?) & (? & ?)) ((? & ? & ? & ?) & ? & ?). lia.
Qed.

Lemma Intersect_sub (r b : Rectangle) : subRect r b -> Intersect r b = r /\ Empty r = false.
Proof.
  destruct r as [[x0 y0] [x1 y1]], b as [[a0 b0] [a1 b1]].
  unfold subRect, inside, Intersect, Empty. simpl. intros ((? & ? & ? & ?) & ? & ?).
  destruct (Z.ltb_spec x0 a0); [lia|]. destruct (Z.ltb_spec y0 b0); [lia|].
  destruct (Z.ltb_spec a1 x1); [lia|]. destruct (Z.ltb_spec b1 y1); [lia|]. simpl.
  destruct (Z.leb_spec x1 x0); [lia|]. destruct (Z.leb_spec y1 y0); [lia|]. auto.
Qed.

Lemma PixOffset_offsetOf (p : RGBA) (x y : Z) :
  wfRGBA p -> inRect x y (Bounds p) -> PixOffset p x y = offsetOf p x y.
Proof.
  intros Hwf Hin. destruct (wf_offset p x y Hwf Hin) as [H0 Hlt].
  destruct Hwf as (Hi & Hw & Hh & HS & H4 & Hlen & Hmax).
  unfold PixOffset, offsetOf, inRect in *.
  destruct (Bounds p) as [[x0 y0] [x1 y1]]. unfold int_rect, int_point in Hi. simpl in *.
  assert (Hh4 : (y1 - y0 - 1) * 4 <= (y1 - y0 - 1) * Stride p).
  { apply Z.mul_le_mono_nonneg_l; lia. }
  assert (Ey : isub y y0 = y - y0).
  { set (hs := (y1 - y0 - 1) * Stride p) in *. clearbody hs.
    set (ys := (y - y0) * Stride p) in *. clearbody ys. int_lia. }
  assert (Ex : isub x x0 = x - x0).
  { set (hs := (y1 - y0 - 1) * Stride p) in *. clearbody hs.
    set (ys := (y - y0) * Stride p) in *. clearbody ys. int_lia. }
  rewrite Ey, Ex. unfold imul.
  assert (0 <= (y - y0) * Stride p) by (apply Z.mul_nonneg_nonneg; lia).
  set (hs := (y1 - y0 - 1) * Stride p) in *. clearbody hs.
  set (ys := (y - y0) * Stride p) in *. clearbody ys. int_lia.
Qed.

(** Inside the source, [SubImage] gives the image of the rectangle asked
    for: the same pixels at the same coordinates. *)
Lemma SubImage_spec (src : RGBA) (r : Rectangle) :
  wfRGBA src -> subRect r (Bounds src) ->
  exists s,
    SubImage src r = Ret s /\ Bounds s = r /\ Stride s = Stride src /\ wfRGBA s /\
    Pix s = drop (Z.to_nat (offsetOf src (X (Min r)) (Y (Min r)))) (Pix src) /\
    forall x y, inRect x y r ->
      alphaAt s x y = alphaAt src x y /\ pixelAt s x y = pixelAt src x y.
Proof.
  intros Hwf Hsub. destruct (Intersect_sub _ _ Hsub) as [EI EE].
  assert (Hmin : inRect (X (Min r)) (Y (Min r)) (Bounds src)).
  { destruct Hsub as ((? & ? & ? & ?) & ? & ?). unfold inRect. lia. }
  destruct (wf_offset src _ _ Hwf Hmin) as [H0 Hlt].
  set (off := offsetOf src (X (Min r)) (Y (Min r))) in *.
  exists (mkRGBA (drop (Z.to_nat off) (Pix src)) (Stride src) r).
  assert (Hadd : forall x y, off + offsetOf (mkRGBA (drop (Z.to_nat off) (Pix src)) (Stride src) r) x y
                             = offsetOf src x y).
  { intros x y. unfold off, offsetOf. simpl. ring. }
  split; [|split; [reflexivity|split; [reflexivity|split; [|split; [reflexivity|]]]]].
  - unfold SubImage. rewrite EI, EE, (PixOffset_offsetOf src _ _ Hwf Hmin). fold off.
    unfold sliceFrom. destruct (Z.ltb_spec off 0); [lia|].
    destruct (Z.ltb_spec (Z.of_nat (length (Pix src))) off); [lia|]. reflexivity.
  - pose proof (subRect_int _ _ (proj1 Hwf) Hsub) as Hir.
    destruct Hwf as (Hi & Hw & Hh & HS & H4 & Hlen & Hmax).
    destruct Hsub as ((Hx0 & Hx1 & Hy0 & Hy1) & Hwr & Hhr).
    unfold wfRGBA. simpl. rewrite length_drop.
    split; [exact Hir|]. split; [lia|]. split; [lia|]. split; [exact HS|]. split; [lia|].
    split; [|lia].
    unfold off, offsetOf in *.
    set (S := Stride src) in *.
    set (h := Y (Max (Bounds src)) - Y (Min (Bounds src))) in *.
    set (dy := Y (Min r) - Y (Min (Bounds src))) in *.
    set (h' := Y (Max r) - Y (Min r)) in *.
    assert ((h' - 1) * S + dy * S <= (h - 1) * S).
    { rewrite <- Z.mul_add_distr_r. apply Z.mul_le_mono_nonneg_r; lia. }
    lia.
  - intros x y Hin.
    assert (Hin' : inRect x y (Bounds src)).
    { destruct Hsub as (Hins & _). apply (inside_within _ _ Hins), Hin. }
    destruct (wf_offset src x y Hwf Hin') as [Hxy _].
    assert (Hrel : 0 <= offsetOf (mkRGBA (drop (Z.to_nat off) (Pix src)) (Stride src) r) x y).
    { unfold offsetOf. simpl. destruct Hin as [? ?].
      destruct Hwf as (_ & _ & _ & _ & H4 & _).
      assert (0 <= Stride src) by (destruct Hsub as ((? & ? & ? & ?) & ? & ?); lia).
      apply Z.add_nonneg_nonneg; apply Z.mul_nonneg_nonneg; lia. }
    specialize (Hadd x y).
    set (o' := offsetOf (mkRGBA (drop (Z.to_nat off) (Pix src)) (Stride src) r) x y) in *.
    split.
    + unfold alphaAt. fold o'. cbn [Pix]. rewrite lookup_drop.
      replace (Z.to_nat off + Z.to_nat (o' + 3))%nat
        with (Z.to_nat (offsetOf src x y + 3)) by lia.
      reflexivity.
    + unfold pixelAt. fold o'. cbn [Pix]. rewrite drop_drop.
      replace (Z.to_nat off + Z.to_nat o')%nat with (Z.to_nat (offsetOf src x y)) by lia.
      reflexivity.
Qed.

(** The guard of a trimming loop holds when the extent is above one and
    no pixel of the strip is visible; it fails when the extent is one or
    less, or some pixel of the strip is visible. *)
Lemma stripIsClear_spec (src : RGBA) (extent : Z) (strip : Rectangle) :
  wfRGBA src -> (1 < extent -> subRect strip (Bounds src)) ->
  exists b, stripIsClear src extent strip = Ret b /\
            (b = true -> 1 < extent /\ forall x y, inRect x y strip -> alphaAt src x y = 0) /\
            (b = false -> extent <= 1 \/
                          exists x y, inRect x y strip /\ alphaAt src x y <> 0).
Proof.
  intros Hwf Hsub. unfold stripIsClear. destruct (Z.ltb_spec 1 extent) as [Hlt|Hge].
  2:{ exists false. split; [reflexivity|]. split; [discriminate|]. intros _. left. lia. }
  destruct (SubImage_spec src strip Hwf (Hsub Hlt)) as (s & -> & Hb & _ & Hwfs & _ & Hpix).
  cbn [mbind outcome_bind].
  destruct (ImageMaxAlpha_spec s Hwfs) as (m & -> & Hle & (x0 & y0 & Hin0 & Hm)).
  cbn [mbind outcome_bind]. exists (m =? 0). split; [reflexivity|]. rewrite Hb in *.
  split.
  - intros ->%Z.eqb_eq. split; [exact Hlt|]. intros x y Hin.
    destruct (Hpix x y Hin) as [<- _]. specialize (Hle x y Hin).
    pose proof (alphaAt_range s x y). lia.
  - intros Hne%Z.eqb_neq. right. exists x0, y0. split; [exact Hin0|].
    destruct (Hpix x0 y0 Hin0) as [<- _]. congruence.
Qed.

(** ** The trimming loops *)

Lemma trimEdge_while (e : edge) (fuel : nat) (src : RGBA) :
  trimEdge e fuel src = while fuel (edgeGuard e src) (edgeBody e).
Proof. destruct e; reflexivity. Qed.

Lemma wf_small (src : RGBA) :
  wfRGBA src ->
  X (Max (Bounds src)) - X (Min (Bounds src)) <= int_max /\
  Y (Max (Bounds src)) - Y (Min (Bounds src)) <= int_max.
Proof.
  intros Hwf. destruct (wf_extent src Hwf) as [Ex Ey].
  pose proof (wrap_is_int (X (Max (Bounds src)) - X (Min (Bounds src)))) as Hx.
  pose proof (wrap_is_int (Y (Max (Bounds src)) - Y (Min (Bounds src)))) as Hy.
  unfold Dx, Dy, isub in Ex, Ey. rewrite Ex in Hx. rewrite Ey in Hy.
  unfold is_int in *. lia.
Qed.

(** On a rectangle inside the image the code computes the extent, the
    strip and the shrunk rectangle of the contract. *)
Lemma edge_go (e : edge) (src : RGBA) (t : Rectangle) :
  wfRGBA src -> subRect t (Bounds src) ->
  edgeGuard e src t =
    stripIsClear src (extentOf e t)
      (if 1 <? extentOf e t then stripOf e t
       else match e with
            | RightE => image.Rect (isub (X (Max t)) 1) (Y (Min t)) (X (Max t)) (Y (Max t))
            | LeftE => image.Rect (X (Min t)) (Y (Min t)) (iadd (X (Min t)) 1) (Y (Max t))
            | BottomE => image.Rect (X (Min t)) (isub (Y (Max t)) 1) (X (Max t)) (Y (Max t))
            | TopE => image.Rect (X (Min t)) (Y (Min t)) (X (Max t)) (iadd (Y (Min t)) 1)
            end) /\
  edgeBody e t = shrink e t /\
  (1 < extentOf e t -> subRect (stripOf e t) (Bounds src) /\ subRect (shrink e t) (Bounds src)).
Proof.
  intros Hwf Hsub. destruct (wf_small src Hwf) as [Hsx Hsy].
  destruct Hwf as (Hi & _). destruct Hsub as ((Hx0 & Hx1 & Hy0 & Hy1) & Hw & Hh).
  destruct t as [[x0 y0] [x1 y1]], (Bounds src) as [[a0 b0] [a1 b1]].
  unfold int_rect, int_point in Hi. simpl in *.
  assert (E1 : isub x1 x0 = x1 - x0) by int_lia.
  assert (E2 : isub y1 y0 = y1 - y0) by int_lia.
  assert (E3 : isub x1 1 = x1 - 1) by int_lia.
  assert (E4 : isub y1 1 = y1 - 1) by int_lia.
  assert (E5 : iadd x0 1 = x0 + 1) by int_lia.
  assert (E6 : iadd y0 1 = y0 + 1) by int_lia.
  destruct e; unfold edgeGuard, edgeBody, extentOf, stripOf, shrink, subRect, inside,
    setMaxX, setMinX, setMaxY, setMinY, image.Rect; simpl;
    rewrite ?E1, ?E2, ?E3, ?E4, ?E5, ?E6;
    (split; [|split; [reflexivity|lia]]).
  - destruct (Z.ltb_spec 1 (x1 - x0)); [|reflexivity].
    destruct (Z.ltb_spec x1 (x1 - 1)); [lia|]. destruct (Z.ltb_spec y1 y0); [lia|]. reflexivity.
  - destruct (Z.ltb_spec 1 (x1 - x0)); [|reflexivity].
    destruct (Z.ltb_spec (x0 + 1) x0); [lia|]. destruct (Z.ltb_spec y1 y0); [lia|]. reflexivity.
  - destruct (Z.ltb_spec 1 (y1 - y0)); [|reflexivity].
    destruct (Z.ltb_spec x1 x0); [lia|]. destruct (Z.ltb_spec y1 (y1 - 1)); [lia|]. reflexivity.
  - destruct (Z.ltb_spec 1 (y1 - y0)); [|reflexivity].
    destruct (Z.ltb_spec x1 x0); [lia|]. destruct (Z.ltb_spec (y0 + 1) y0); [lia|]. reflexivity.
Qed.

Lemma edgeGuard_spec (e : edge) (src : RGBA) (t : Rectangle) :
  wfRGBA src -> subRect t (Bounds src) ->
  edgeGuard e src t = Ret (holds (edgeGuard e src t)) /\
  (holds (edgeGuard e src t) = true ->
     1 < extentOf e t /\ forall x y, inRect x y (stripOf e t) -> alphaAt src x y = 0) /\
  (holds (edgeGuard e src t) = false ->
     extentOf e t <= 1 \/
     exists x y, inRect x y (stripOf e t) /\ alphaAt src x y <> 0).
Proof.
  intros Hwf Hsub. destruct (edge_go e src t Hwf Hsub) as (-> & _ & Hgeo).
  destruct (stripIsClear_spec src (extentOf e t)
              (if 1 <? extentOf e t then stripOf e t
               else match e with
                    | RightE => image.Rect (isub (X (Max t)) 1) (Y (Min t)) (X (Max t)) (Y (Max t))
                    | LeftE => image.Rect (X (Min t)) (Y (Min t)) (iadd (X (Min t)) 1) (Y (Max t))
                    | BottomE => image.Rect (X (Min t)) (isub (Y (Max t)) 1) (X (Max t)) (Y (Max t))
                    | TopE => image.Rect (X (Min t)) (Y (Min t)) (X (Max t)) (iadd (Y (Min t)) 1)
                    end) Hwf) as (b & -> & Ht & Hf).
  { intros Hlt. destruct (Z.ltb_spec 1 (extentOf e t)); [|lia]. apply Hgeo, Hlt. }
  simpl. split; [reflexivity|]. split.
  - intros Hb. destruct (Ht Hb) as [Hlt Hall]. split; [exact Hlt|].
    destruct (Z.ltb_spec 1 (extentOf e t)); [exact Hall|lia].
  - intros Hb. destruct (Hf Hb) as [Hle|Hex]; [left; exact Hle|].
    destruct (Z.ltb_spec 1 (extentOf e t)); [right; exact Hex|left; lia].
Qed.

(** One loop: it ends within as many turns as the extent, on a rectangle
    that still holds every visible pixel, that differs from the one it
    started on by the place of its edge only, and whose extent is one
    or whose strip at the edge has a visible pixel. *)
Lemma trimEdge_spec (e : edge) (src : RGBA) (fuel : nat) (t0 : Rectangle) :
  wfRGBA src -> subRect t0 (Bounds src) ->
  (forall x y, visible src x y -> inRect x y t0) ->
  extentOf e t0 <= Z.of_nat fuel ->
  exists t,
    trimEdge e fuel src t0 = Ret t /\
    subRect t (Bounds src) /\
    (forall x y, visible src x y -> inRect x y t) /\
    sameBut e t0 t /\ inside t t0 /\
    (extentOf e t = 1 \/ exists x y, visible src x y /\ inRect x y (stripOf e t)).
Proof.
  intros Hwf Hsub0 Hvis0 Hfuel. rewrite trimEdge_while.
  set (I := fun t => subRect t (Bounds src) /\
                     (forall x y, visible src x y -> inRect x y t) /\
                     sameBut e t0 t /\ inside t t0).
  destruct (while_spec I (fun t => Z.to_nat (extentOf e t - 1)) (edgeGuard e src)
              (fun t => holds (edgeGuard e src t)) (edgeBody e)) with (fuel := fuel) (s := t0)
    as (t & Hw & (Hsub & Hvis & Hsame & Hin) & Htest).
  - intros t (Hsub & _). apply (edgeGuard_spec e src t Hwf Hsub).
  - intros t (Hsub & Hvis & Hsame & Hin) Ht.
    destruct (edgeGuard_spec e src t Hwf Hsub) as (_ & Htrue & _).
    destruct (Htrue Ht) as [Hlt Hclear].
    destruct (edge_go e src t Hwf Hsub) as (_ & -> & Hgeo).
    destruct (Hgeo Hlt) as [_ Hsub'].
    split; [|destruct e, t as [[x0 y0] [x1 y1]]; simpl in *; lia].
    split; [exact Hsub'|]. split; [|split].
    + intros x y Hv. specialize (Hvis x y Hv).
      assert (Hns : ~ inRect x y (stripOf e t)).
      { intros Hs. apply (proj2 Hv), Hclear, Hs. }
      clear - Hvis Hns Hlt. destruct e, t as [[x0 y0] [x1 y1]];
        unfold inRect in *; simpl in *; lia.
    + clear - Hsame. destruct e, t as [[x0 y0] [x1 y1]], t0 as [[a0 b0] [a1 b1]];
        simpl in *; destruct Hsame as [H1 H2]; split; congruence.
    + clear - Hin Hlt. destruct e, t as [[x0 y0] [x1 y1]], t0 as [[a0 b0] [a1 b1]];
        unfold inside in *; simpl in *; lia.
  - split; [exact Hsub0|]. split; [exact Hvis0|]. split; [|apply inside_refl].
    destruct e; simpl; auto.
  - destruct Hsub0 as (_ & ? & ?). destruct e; simpl in *; lia.
  - exists t. split; [exact Hw|]. split; [exact Hsub|]. split; [exact Hvis|].
    split; [exact Hsame|]. split; [exact Hin|].
    destruct (edgeGuard_spec e src t Hwf Hsub) as (_ & _ & Hfalse).
    destruct (Hfalse Htest) as [Hle|(x & y & Hs & Ha)].
    + left. destruct Hsub as (_ & ? & ?). destruct e; simpl in *; lia.
    + right. exists x, y. split; [|exact Hs]. split; [|exact Ha].
      destruct Hsub as (Hins & ? & ?). apply (inside_within _ _ Hins).
      clear - Hs H H0. destruct e, t as [[x0 y0] [x1 y1]]; unfold inRect in *; simpl in *; lia.
Qed.

(** ** The trimmer *)

(** The rectangle the four loops end on. *)
Lemma trimRect_spec (src : RGBA) (fuel : nat) :
  wfRGBA src ->
  Dx (Bounds src) <= Z.of_nat fuel -> Dy (Bounds src) <= Z.of_nat fuel ->
  exists r,
    trimRect fuel src = Ret r /\
    subRect r (Bounds src) /\
    (forall x y, visible src x y -> inRect x y r) /\
    ((exists x y, visible src x y) ->
       (exists y, visible src (X (Min r)) y) /\
       (exists y, visible src (X (Max r) - 1) y) /\
       (exists x, visible src x (Y (Min r))) /\
       (exists x, visible src x (Y (Max r) - 1))) /\
    ((forall x y, ~ visible src x y) ->
       r = mkRectangle (Min (Bounds src))
             (Pt (X (Min (Bounds src)) + 1) (Y (Min (Bounds src)) + 1))).
Proof.
  intros Hwf Hfx Hfy. destruct (wf_extent src Hwf) as [Ex Ey]. rewrite Ex in Hfx. rewrite Ey in Hfy.
  assert (Hsub0 : subRect (Bounds src) (Bounds src)).
  { destruct Hwf as (_ & ? & ? & _). split; [apply inside_refl|lia]. }
  assert (Hvis0 : forall x y, visible src x y -> inRect x y (Bounds src)) by (intros x y [? _]; auto).
  destruct (trimEdge_spec RightE src fuel _ Hwf Hsub0 Hvis0) as (t1 & H1 & Hs1 & Hv1 & Hb1 & Hi1 & He1).
  { simpl. lia. }
  destruct (trimEdge_spec LeftE src fuel _ Hwf Hs1 Hv1) as (t2 & H2 & Hs2 & Hv2 & Hb2 & Hi2 & He2).
  { simpl. destruct Hi1 as (? & ? & ? & ?). lia. }
  destruct (trimEdge_spec BottomE src fuel _ Hwf Hs2 Hv2) as (t3 & H3 & Hs3 & Hv3 & Hb3 & Hi3 & He3).
  { simpl. destruct Hi1 as (? & ? & ? & ?), Hi2 as (? & ? & ? & ?). lia. }
  destruct (trimEdge_spec TopE src fuel _ Hwf Hs3 Hv3) as (t4 & H4 & Hs4 & Hv4 & Hb4 & Hi4 & He4).
  { simpl. destruct Hi1 as (? & ? & ? & ?), Hi2 as (? & ? & ? & ?), Hi3 as (? & ? & ? & ?). lia. }
  exists t4. split.
  { unfold trimRect. simpl in H1, H2, H3, H4. rewrite H1. simpl. rewrite H2. simpl.
    rewrite H3. simpl. exact H4. }
  split; [exact Hs4|]. split; [exact Hv4|].
  clear H1 H2 H3 H4 Hv1 Hv2 Hv3 Hvis0 Hsub0 Hfx Hfy Ex Ey Hwf.
  destruct Hs1 as (_ & Hw1 & Hh1), Hs2 as (_ & Hw2 & Hh2), Hs3 as (_ & Hw3 & Hh3),
    Hs4 as (_ & Hw4 & Hh4).
  destruct (Bounds src) as [[a0 b0] [a1 b1]], t1 as [[x10 y10] [x11 y11]],
    t2 as [[x20 y20] [x21 y21]], t3 as [[x30 y30] [x31 y31]], t4 as [[x40 y40] [x41 y41]].
  unfold inside in *. simpl in *.
  destruct Hb1 as [[= -> ->] ->], Hb2 as [[= -> ->] ->], Hb3 as [[= -> ->] ->],
    Hb4 as [[= -> ->] ->].
  split.
  - intros (xv & yv & Hv). pose proof (Hv4 xv yv Hv) as Hin. unfold inRect in Hin. simpl in Hin.
    split; [|split; [|split]].
    + destruct He2 as [E|(x & y & Hvx & Hs)].
      * exists yv. replace x20 with xv by lia. exact Hv.
      * exists y. unfold inRect in Hs. simpl in Hs. replace x20 with x by lia. exact Hvx.
    + destruct He1 as [E|(x & y & Hvx & Hs)].
      * exists yv. replace (x11 - 1) with xv by lia. exact Hv.
      * exists y. unfold inRect in Hs. simpl in Hs. replace (x11 - 1) with x by lia. exact Hvx.
    + destruct He4 as [E|(x & y & Hvx & Hs)].
      * exists xv. replace y40 with yv by lia. exact Hv.
      * exists x. unfold inRect in Hs. simpl in Hs. replace y40 with y by lia. exact Hvx.
    + destruct He3 as [E|(x & y & Hvx & Hs)].
      * exists xv. replace (y31 - 1) with yv by lia. exact Hv.
      * exists x. unfold inRect in Hs. simpl in Hs. replace (y31 - 1) with y by lia. exact Hvx.
  - intros Hnone.
    destruct He1 as [E1|(x & y & Hvx & _)]; [|destruct (Hnone _ _ Hvx)].
    destruct He2 as [E2|(x & y & Hvx & _)]; [|destruct (Hnone _ _ Hvx)].
    destruct He3 as [E3|(x & y & Hvx & _)]; [|destruct (Hnone _ _ Hvx)].
    destruct He4 as [E4|(x & y & Hvx & _)]; [|destruct (Hnone _ _ Hvx)].
    f_equal; f_equal; lia.
Qed.

(** What [TrimImage] returns for an image of at least one pixel. *)
Lemma TrimImage_tight (src : RGBA) (fuel : nat) :
  wfRGBA src -> Dx (Bounds src) <= Z.of_nat fuel -> Dy (Bounds src) <= Z.of_nat fuel ->
  exists dst,
    TrimImage fuel src = Ret dst /\ wfRGBA dst /\ subRect (Bounds dst) (Bounds src) /\
    (forall x y, inRect x y (Bounds dst) -> pixelAt dst x y = pixelAt src x y) /\
    (forall x y, visible src x y -> inRect x y (Bounds dst)) /\
    ((exists x y, visible src x y) ->
       (exists y, visible src (X (Min (Bounds dst))) y) /\
       (exists y, visible src (X (Max (Bounds dst)) - 1) y) /\
       (exists x, visible src x (Y (Min (Bounds dst)))) /\
       (exists x, visible src x (Y (Max (Bounds dst)) - 1))) /\
    ((forall x y, ~ visible src x y) ->
       Bounds dst = mkRectangle (Min (Bounds src))
                      (Pt (X (Min (Bounds src)) + 1) (Y (Min (Bounds src)) + 1))).
Proof.
  intros Hwf Hfx Hfy.
  destruct (trimRect_spec src fuel Hwf Hfx Hfy) as (r & Hr & Hsub & Hvis & Htight & Hnone).
  destruct (SubImage_spec src r Hwf Hsub) as (dst & Hd & Hb & _ & Hwfd & _ & Hpix).
  exists dst. split; [unfold TrimImage; rewrite Hr; exact Hd|].
  rewrite Hb. split; [exact Hwfd|]. split; [exact Hsub|].
  split; [intros x y Hin; apply (Hpix x y Hin)|].
  split; [exact Hvis|]. split; [exact Htight|exact Hnone].
Qed.

(** C6, as the code has it: for an image of at least one pixel,
    [TrimImage] returns the sub-image over a rectangle of the source,
    at least one pixel wide and high, with the source's pixels at the source's coordinates (so
    its bounds give the offset of the box in the original); the
    rectangle holds every pixel of non-zero alpha; when there is such a
    pixel, each of its four edge strips has one, so that it is the
    smallest rectangle holding them all; and when there is none, it is
    the one pixel in the minimum corner. *)
Theorem C6_trim_correct (src : RGBA) (fuel : nat) :
  wfRGBA src ->
  Dx (Bounds src) <= Z.of_nat fuel -> Dy (Bounds src) <= Z.of_nat fuel ->
  exists dst,
    TrimImage fuel src = Ret dst /\
    subRect (Bounds dst) (Bounds src) /\
    1 <= Dx (Bounds dst) /\ 1 <= Dy (Bounds dst) /\
    (forall x y, inRect x y (Bounds dst) -> pixelAt dst x y = pixelAt src x y) /\
    (forall x y, visible src x y -> inRect x y (Bounds dst)) /\
    ((exists x y, visible src x y) ->
       (exists y, visible src (X (Min (Bounds dst))) y) /\
       (exists y, visible src (X (Max (Bounds dst)) - 1) y) /\
       (exists x, visible src x (Y (Min (Bounds dst)))) /\
       (exists x, visible src x (Y (Max (Bounds dst)) - 1)) /\
       (forall r, (forall x y, visible src x y -> inRect x y r) -> inside (Bounds dst) r)) /\
    ((forall x y, ~ visible src x y) ->
       Bounds dst = mkRectangle (Min (Bounds src))
                      (Pt (X (Min (Bounds src)) + 1) (Y (Min (Bounds src)) + 1))).
Proof.
  intros Hwf Hfx Hfy.
  destruct (trimRect_spec src fuel Hwf Hfx Hfy) as (r & Hr & Hsub & Hvis & Htight & Hnone).
  destruct (SubImage_spec src r Hwf Hsub) as (dst & Hd & Hb & _ & Hwfd & _ & Hpix).
  exists dst. split; [unfold TrimImage; rewrite Hr; exact Hd|].
  destruct (wf_extent dst Hwfd) as [Ex Ey]. rewrite Ex, Ey.
  destruct Hwfd as (_ & Hw & Hh & _). rewrite Hb in *.
  split; [exact Hsub|]. split; [exact Hw|]. split; [exact Hh|].
  split; [intros x y Hin; apply (Hpix x y Hin)|].
  split; [exact Hvis|]. split; [|exact Hnone].
  intros Hex. destruct (Htight Hex) as ((yl & Hl) & (yr & Hrt) & (xt & Ht) & (xb & Hbt)).
  split; [eauto|]. split; [eauto|]. split; [eauto|]. split; [eauto|].
  intros r' Hr'.
  pose proof (Hr' _ _ Hl) as [? _]. pose proof (Hr' _ _ Hrt) as [? _].
  pose proof (Hr' _ _ Ht) as [_ ?]. pose proof (Hr' _ _ Hbt) as [_ ?].
  unfold inside. lia.
Qed.

Lemma C6_trim_correct_witness :
  exists dst,
    TrimImage 4 sampleRGBA = Ret dst /\
    Bounds dst = image.Rect 1 1 3 2 /\
    (forall x y, inRect x y (Bounds dst) -> pixelAt dst x y = pixelAt sampleRGBA x y) /\
    (forall x y, visible sampleRGBA x y -> inRect x y (Bounds dst)).
Proof.
  destruct (C6_trim_correct sampleRGBA 4) as (dst & Hd & _ & _ & _ & Hpix & Hvis & _).
  - unfold wfRGBA. concrete.
  - concrete.
  - concrete.
  - exists dst. split; [exact Hd|]. split; [|split; [exact Hpix|exact Hvis]].
    vm_compute in Hd. injection Hd as <-. reflexivity.
Defined.

(** A fully transparent image is trimmed to the pixel in its corner. *)
Lemma TrimImage_blank :
  exists dst, TrimImage 5 (blankRGBA 5 4) = Ret dst /\ Bounds dst = image.Rect 0 0 1 1.
Proof. eexists. split; [vm_compute; reflexivity|reflexivity]. Qed.

(** An image without any pixel, which [wfRGBA] excludes, comes back as
    the empty image: its extent of zero is not raised to one. *)
Lemma TrimImage_no_pixels :
  TrimImage 5 (blankRGBA 5 0) = Ret (mkRGBA [] 0 ZR).
Proof. vm_compute. reflexivity. Qed.

(** C6 as stated fails on an image without pixels: the image that
    [image.NewRGBA] makes for a rectangle 5 wide and 0 high has no
    visible pixel, and [TrimImage] returns for it the empty image, with
    zero bounds: its extents are 0, not raised to a result of 1 by 1. *)
Lemma C6_image_without_pixels :
  NewRGBA (image.Rect 0 0 5 0) = Ret (blankRGBA 5 0) /\
  (forall x y, ~ visible (blankRGBA 5 0) x y) /\
  exists dst,
    TrimImage 5 (blankRGBA 5 0) = Ret dst /\
    Bounds dst = ZR /\ Dx (Bounds dst) = 0 /\ Dy (Bounds dst) = 0 /\
    ~ (1 <= Dx (Bounds dst) /\ 1 <= Dy (Bounds dst)).
Proof.
  split; [vm_compute; reflexivity|]. split.
  - intros x y [[_ Hy] _]. change (0 <= y < 0) in Hy. lia.
  - exists (mkRGBA [] 0 ZR). split; [vm_compute; reflexivity|].
    split; [reflexivity|]. split; [reflexivity|]. split; [reflexivity|].
    intros [H _]. change (1 <= 0) in H. lia.
Qed.

(** ** Images without alpha channel *)

(** The type switch of [ImageMaxAlpha] has no case for an image that is
    not an [*image.RGBA]; [TrimImage], its only caller, hands it RGBA
    sub-images. *)
Lemma ImageMaxAlpha_other (bounds : Rectangle) : ImageMaxAlpha (ImageOther bounds) = Panic.
Proof. reflexivity. Qed.



(** ** Areas of leaves *)

Lemma sumZ_app (l k : list Z) : sumZ (l ++ k) = sumZ l + sumZ k.
Proof. induction l as [|x l IH]; simpl; [reflexivity|]. unfold sumZ in *. simpl. lia. Qed.

Lemma sumZ_submseteq {A : Type} (g : A -> Z) (l k : list A) :
  l ⊆+ k -> (forall x, x ∈ k -> 0 <= g x) -> sumZ (map g l) <= sumZ (map g k).
Proof.
  induction 1 as [|x l k _ IH|x y l|x l k _ IH|l k m _ IH1 Hkm IH2]; intros Hpos.
  - reflexivity.
  - simpl. unfold sumZ in *. simpl.
    assert (sumZ (map g l) <= sumZ (map g k)); [|unfold sumZ in *; lia].
    apply IH. intros z Hz. apply Hpos. now right.
  - unfold sumZ. simpl. lia.
  - assert (0 <= g x) by (apply Hpos; left).
    assert (sumZ (map g l) <= sumZ (map g k)).
    { apply IH. intros z Hz. apply Hpos. now right. }
    unfold sumZ in *. simpl. lia.
  - etransitivity; [apply IH1|apply IH2; exact Hpos].
    intros x Hx. apply Hpos. eapply elem_of_submseteq; eauto.
Qed.

Lemma guillotine_area (parent l r : Rectangle) :
  canon parent -> guillotine parent l r -> area l + area r = area parent.
Proof.
  destruct parent as [[x0 y0] [x1 y1]].
  intros Hc [[w h] [(Hs & -> & ->)|(Hs & -> & ->)]]; unfold area; rect_unfold; ring.
Qed.

Lemma canon_area (r : Rectangle) : canon r -> 0 <= area r.
Proof. unfold canon, area. intros [? ?]. apply Z.mul_nonneg_nonneg; lia. Qed.

(** The areas of the leaves add up to the area of the root. *)
Lemma leaves_area (t : node) :
  everyNode nodeOk t -> sumZ (map (fun n => area (Rect n)) (leaves t)) = area (Rect t).
Proof.
  induction t as [l r rc u IHl IHr] using node_ind. intros Ht.
  destruct (everyNode_here _ _ Ht) as (Hc & Hi & Hch). simpl in Hc, Hi, Hch.
  destruct l as [l|], r as [r|]; try contradiction; simpl in *.
  - rewrite map_app, sumZ_app.
    rewrite (IHl (everyNode_child _ L _ _ Ht eq_refl)).
    rewrite (IHr (everyNode_child _ R _ _ Ht eq_refl)).
    apply (guillotine_area _ _ _ Hc Hch).
  - unfold sumZ. simpl. lia.
Qed.

Lemma leafPaths_NoDup (t : node) : NoDup (map fst (leafPaths t)).
Proof.
  induction t as [l r rc u IHl IHr] using node_ind.
  destruct l as [l|]; simpl; [|apply NoDup_singleton].
  assert (E : forall d (k : list (path * node)), map fst (map (downTo d) k) = map (cons d) (map fst k)).
  { intros d k. rewrite !map_map. reflexivity. }
  rewrite map_app, E. apply list.NoDup_app. split; [|split].
  - apply (NoDup_fmap_2 (cons L)), IHl.
  - intros p Hp Hq. destruct r as [r|]; [|now apply elem_of_nil in Hq].
    rewrite E in Hq.
    apply list_elem_of_fmap in Hp as (p1 & -> & _).
    apply list_elem_of_fmap in Hq as (p2 & [=] & _).
  - destruct r as [r|]; [|apply NoDup_nil_2]. rewrite E.
    apply (NoDup_fmap_2 (cons R)), IHr.
Qed.

Lemma areaAt_leafPaths (t : node) :
  map (areaAt t) (map fst (leafPaths t)) = map (fun n => area (Rect n)) (leaves t).
Proof.
  rewrite <- leafPaths_leaves, !map_map. apply map_ext_in.
  intros [p n] Hin%list_elem_of_In. simpl.
  unfold areaAt. now destruct (leafPaths_deref _ _ _ Hin) as [-> _].
Qed.

(** Leaves at distinct places take no more room than the root has. *)
Lemma distinct_leaves_area (t : node) (ps : list path) :
  everyNode nodeOk t -> NoDup ps ->
  (forall p, p ∈ ps -> exists n, deref p t = Some n /\ Left n = None) ->
  sumZ (map (areaAt t) ps) <= area (Rect t).
Proof.
  intros Ht Hnd Hps. rewrite <- (leaves_area t Ht), <- areaAt_leafPaths.
  apply sumZ_submseteq.
  - apply NoDup_submseteq; [exact Hnd|]. intros p Hp.
    destruct (Hps p Hp) as (n & Hd & Hl).
    apply list_elem_of_fmap. exists (p, n). split; [reflexivity|].
    apply deref_leafPaths; assumption.
  - intros p Hp. unfold areaAt. destruct (deref p t) as [n|] eqn:E; [|lia].
    apply canon_area. apply (Ht p n E).
Qed.

(** ** A run of [PackImages] without error *)

(** After a run without error every sprite sits in a used leaf of its
    own, whose rectangle is the sprite's padded rectangle. *)
Lemma PackImages_placed (a a' : Atlas) (atlasSize : Point) (fuel : nat) :
  (3 <= fuel)%nat -> (length (Images a) <= fuel)%nat ->
  int_point atlasSize -> Forall spriteOk (Images a) ->
  PackImages fuel a atlasSize = Ret (a', None) ->
  exists s' (f : nat -> path),
    Images a' = store s' /\
    rounds fuel (initState a atlasSize) s' /\
    packInv a atlasSize s' /\
    images s' = [] /\
    length (store s') = length (Images a) /\
    (forall i img, store s' !! i = Some img ->
       spriteOk img /\
       exists leaf, deref (f i) (root s') = Some leaf /\ Used leaf = true /\
                    Left leaf = None /\ Right leaf = None /\
                    Rect leaf = paddedRect img) /\
    (forall i j, (i < length (Images a))%nat -> (j < length (Images a))%nat ->
       i <> j -> f i <> f j).
Proof.
  intros Hfuel Hlen Hcanvas Hsprites HP.
  destruct (PackImages_outcome a atlasSize fuel Hfuel Hlen Hcanvas Hsprites)
    as (s' & err & HL & HP' & Hr & Hend).
  rewrite HP in HP'. injection HP' as -> <-.
  destruct Hend as [(_ & Himgs)|(? & _)]; [|discriminate].
  pose proof (rounds_inv a atlasSize fuel Hfuel Hcanvas Hsprites s' Hr) as Hinv.
  pose proof (inv_store _ _ _ Hinv) as Hsame.
  destruct (inv_placed _ _ _ Hinv) as (f & Hf1 & Hf2).
  exists s', f. split; [reflexivity|]. split; [exact Hr|]. split; [exact Hinv|].
  split; [exact Himgs|]. split; [symmetry; apply (Forall2_length Hsame)|].
  split.
  - intros i img Hi.
    assert (Hlt : (i < length (Images a))%nat).
    { rewrite (Forall2_length Hsame). eapply lookup_lt_Some; eauto. }
    split; [apply (store_sprite a atlasSize Hsprites s' i img Hinv Hi)|].
    destruct (Hf1 i Hlt) as (img0 & leaf & H0 & Hleaf).
    { rewrite Himgs. apply not_elem_of_nil. }
    assert (img0 = img) by congruence. subst img0. eauto.
  - intros i j Hi Hj Hij. apply Hf2; auto; rewrite Himgs; apply not_elem_of_nil.
Qed.

Lemma paddedRect_area (img : AtlasImage) :
  spriteOk img -> area (paddedRect img) = paddedArea img.
Proof.
  intros Hok. destruct (padded_ok img Hok) as (_ & EX & EY).
  unfold area, paddedRect, cornerOf, paddedArea. cbn [Min Max X Y].
  rewrite EX, EY. ring.
Qed.

Lemma sameSprite_paddedArea (l k : list AtlasImage) :
  Forall2 sameSprite l k -> map paddedArea l = map paddedArea k.
Proof.
  induction 1 as [|x y l k (_ & _ & E) _ IH]; [reflexivity|].
  simpl. rewrite IH. unfold paddedArea. now rewrite E.
Qed.

Lemma usable_area (atlasSize : Point) :
  0 < X atlasSize -> 0 < Y atlasSize ->
  area (usable atlasSize) = (X atlasSize - 1) * (Y atlasSize - 1).
Proof.
  intros HX HY. unfold usable, image.Rect, area.
  destruct (Z.ltb_spec (X atlasSize) 1); [lia|].
  destruct (Z.ltb_spec (Y atlasSize) 1); [lia|]. reflexivity.
Qed.

(** The padded areas of the sprites of a run without error fit in the
    root of the tree. *)
Lemma packed_area (a a' : Atlas) (atlasSize : Point) (fuel : nat) :
  (3 <= fuel)%nat -> (length (Images a) <= fuel)%nat ->
  int_point atlasSize -> Forall spriteOk (Images a) ->
  PackImages fuel a atlasSize = Ret (a', None) ->
  sumZ (map paddedArea (Images a)) <= area (usable atlasSize).
Proof.
  intros Hfuel Hlen Hcanvas Hsprites HP.
  destruct (PackImages_placed a a' atlasSize fuel Hfuel Hlen Hcanvas Hsprites HP)
    as (s' & f & _ & _ & Hinv & _ & Hn & Hpl & Hinj).
  rewrite (sameSprite_paddedArea _ _ (inv_store _ _ _ Hinv)).
  unfold usable. rewrite <- (inv_root _ _ _ Hinv).
  assert (E : map paddedArea (store s') =
              map (areaAt (root s')) (map f (seq 0 (length (store s'))))).
  { apply list_eq. intros i. rewrite !list_lookup_fmap.
    destruct (store s' !! i) as [img|] eqn:Ei; simpl.
    - rewrite lookup_seq_lt by (eapply lookup_lt_Some; eauto). simpl.
      destruct (Hpl i img Ei) as (Hok & leaf & Hd & _ & _ & _ & HR).
      unfold areaAt. rewrite Hd, HR, paddedRect_area by exact Hok. reflexivity.
    - rewrite lookup_seq_ge by (apply lookup_ge_None; exact Ei). reflexivity. }
  rewrite E. apply distinct_leaves_area.
  - apply (inv_tree _ _ _ Hinv).
  - apply NoDup_fmap_2_strong; [|apply NoDup_seq].
    intros i j Hi%elem_of_seq Hj%elem_of_seq Hij.
    destruct (decide (i = j)) as [|Hne]; [assumption|].
    exfalso. apply (Hinj i j); [lia..|assumption|assumption].
  - intros p (i & -> & Hi%elem_of_seq)%list_elem_of_fmap.
    destruct (lookup_lt_is_Some_2 (store s') i) as [img Himg]; [lia|].
    destruct (Hpl i img Himg) as (_ & leaf & Hd & _ & Hl & _). eauto.
Qed.

(** X1: [PackImages] returns the fit error whenever the sprites, each
    with one pixel of padding to the right and below, take more pixels
    than the canvas has apart from its first row and column. *)
Theorem PackImages_area_exceeded (a : Atlas) (atlasSize : Point) (fuel : nat) :
  (3 <= fuel)%nat -> (length (Images a) <= fuel)%nat ->
  int_point atlasSize -> 0 < X atlasSize -> 0 < Y atlasSize ->
  Forall spriteOk (Images a) ->
  (X atlasSize - 1) * (Y atlasSize - 1) < sumZ (map paddedArea (Images a)) ->
  exists a', PackImages fuel a atlasSize = Ret (a', Some fitError).
Proof.
  intros Hfuel Hlen Hcanvas HW HH Hsprites Hmuch.
  destruct (PackImages_outcome a atlasSize fuel Hfuel Hlen Hcanvas Hsprites)
    as (s' & err & _ & HP & _ & [(-> & _)|(-> & _)]); [|eauto].
  pose proof (packed_area a _ atlasSize fuel Hfuel Hlen Hcanvas Hsprites HP) as Hle.
  rewrite usable_area in Hle by assumption. lia.
Qed.

Lemma PackImages_area_exceeded_witness :
  exists a', PackImages 3 (mkAtlas [blankSprite 2 2; blankSprite 2 2]) (Pt 5 5) =
             Ret (a', Some fitError).
Proof.
  apply PackImages_area_exceeded.
  - lia.
  - simpl. lia.
  - concrete.
  - reflexivity.
  - reflexivity.
  - repeat constructor; concrete.
  - vm_compute. reflexivity.
Defined.

(** A sprite of a run without error is no larger than the root. *)
Lemma packed_inside (a a' : Atlas) (atlasSize : Point) (fuel : nat) (i : nat)
    (img : AtlasImage) :
  (3 <= fuel)%nat -> (length (Images a) <= fuel)%nat ->
  int_point atlasSize -> Forall spriteOk (Images a) ->
  PackImages fuel a atlasSize = Ret (a', None) ->
  Images a' !! i = Some img ->
  spriteOk img /\ inside (paddedRect img) (usable atlasSize).
Proof.
  intros Hfuel Hlen Hcanvas Hsprites HP Hi.
  destruct (PackImages_placed a a' atlasSize fuel Hfuel Hlen Hcanvas Hsprites HP)
    as (s' & f & E & _ & Hinv & _ & _ & Hpl & _).
  rewrite E in Hi. destruct (Hpl i img Hi) as (Hok & leaf & Hd & _ & _ & _ & HR).
  split; [exact Hok|]. unfold usable. rewrite <- HR, <- (inv_root _ _ _ Hinv).
  apply (deref_inside _ _ _ (inv_tree _ _ _ Hinv) Hd).
Qed.

(** X2: [PackImages] returns the fit error whenever some sprite is wider
    than the canvas less two columns or higher than the canvas less two
    rows. *)
Theorem PackImages_sprite_too_large (a : Atlas) (atlasSize : Point) (fuel : nat) :
  (3 <= fuel)%nat -> (length (Images a) <= fuel)%nat ->
  int_point atlasSize -> 0 < X atlasSize -> 0 < Y atlasSize ->
  Forall spriteOk (Images a) ->
  Exists (fun img => X atlasSize - 2 < Dx (Bounds (Image img)) \/
                     Y atlasSize - 2 < Dy (Bounds (Image img))) (Images a) ->
  exists a', PackImages fuel a atlasSize = Ret (a', Some fitError).
Proof.
  intros Hfuel Hlen Hcanvas HW HH Hsprites Hbig.
  destruct (PackImages_outcome a atlasSize fuel Hfuel Hlen Hcanvas Hsprites)
    as (s' & err & _ & HP & Hr & [(-> & _)|(-> & _)]); [|eauto].
  exfalso.
  pose proof (rounds_inv a atlasSize fuel Hfuel Hcanvas Hsprites s' Hr) as Hinv.
  apply Exists_exists in Hbig as (img0 & Hin%list_elem_of_In & Hbig).
  apply list_elem_of_lookup in Hin as [i Hi].
  destruct (Forall2_lookup_l _ _ _ _ _ (inv_store _ _ _ Hinv) Hi) as (img & Hi' & (_ & _ & E)).
  destruct (packed_inside a _ atlasSize fuel i img Hfuel Hlen Hcanvas Hsprites HP Hi')
    as (Hok & Hin).
  destruct (padded_ok img Hok) as (_ & EX & EY).
  rewrite E in Hbig. revert Hin. unfold usable, paddedRect, cornerOf, inside, image.Rect.
  cbn [Min Max X Y]. rewrite EX, EY.
  destruct (Z.ltb_spec (X atlasSize) 1); [lia|].
  destruct (Z.ltb_spec (Y atlasSize) 1); [lia|]. cbn [Min Max X Y]. lia.
Qed.

Lemma PackImages_sprite_too_large_witness :
  exists a', PackImages 3 (mkAtlas [blankSprite 1 1; blankSprite 3 1]) (Pt 4 8) =
             Ret (a', Some fitError).
Proof.
  apply PackImages_sprite_too_large.
  - lia.
  - simpl. lia.
  - concrete.
  - reflexivity.
  - reflexivity.
  - repeat constructor; concrete.
  - apply Exists_cons_tl, Exists_cons_hd. left. vm_compute. reflexivity.
Defined.

Lemma rounds_split (fuel : nat) (s s' : packState) :
  rounds fuel s s' ->
  s' = s \/ exists s1, round fuel s = Ret (Some s1) /\ rounds fuel s1 s'.
Proof.
  induction 1 as [|s' s'' _ IH Hr]; [left; reflexivity|]. right.
  destruct IH as [->|(s1 & Hr1 & Hrs)].
  - exists s''. split; [exact Hr|apply rounds_none].
  - exists s1. split; [exact Hr1|]. eapply rounds_more; eauto.
Qed.

(** X3: after a run of [PackImages] without error on at least one
    sprite, some sprite sits in the corner of the usable canvas, at
    (1, 1): the sprite the first round commits. *)
Theorem PackImages_first_corner (a a' : Atlas) (atlasSize : Point) (fuel : nat) :
  (3 <= fuel)%nat -> (length (Images a) <= fuel)%nat ->
  int_point atlasSize -> 0 < X atlasSize -> 0 < Y atlasSize ->
  Forall spriteOk (Images a) ->
  Images a <> [] ->
  PackImages fuel a atlasSize = Ret (a', None) ->
  exists i img, Images a' !! i = Some img /\ AtlasPos img = Pt 1 1.
Proof.
  intros Hfuel Hlen Hcanvas HW HH Hsprites Hne HP.
  destruct (PackImages_placed a a' atlasSize fuel Hfuel Hlen Hcanvas Hsprites HP)
    as (s' & f & E & Hr & Hinv & Himgs & _).
  pose proof (initState_inv a atlasSize fuel Hfuel Hcanvas) as Hinit.
  apply rounds_split in Hr as [->|(s1 & Hr1 & Hrs)].
  { exfalso. simpl in Himgs. destruct (Images a); [congruence|discriminate]. }
  destruct (round_spec a atlasSize fuel Hfuel Hsprites _ Hinit)
    as [[_ H]|(b & p & img & leaf & s0 & _ & Hc & H)]; [congruence|].
  assert (s0 = s1) by congruence. subst s0.
  pose proof (roundCommits_inv a atlasSize fuel Hfuel Hsprites _ _ _ _ _ _ Hinit Hc) as Hinv1.
  destruct (rounds_keep a atlasSize fuel Hfuel Hsprites s1 s' Hinv1 Hrs) as (_ & _ & Hout & _).
  destruct Hc as (Hp & Hst & Hd & _ & _ & _ & root' & last & _ & Hlast & ->).
  assert (Hp1 : p ∉ swapRemove (images (initState a atlasSize)) (Z.to_nat (fst b)) last).
  { pose proof (swapRemove_perm _ _ _ _ Hp Hlast) as Hperm.
    pose proof (inv_nodup _ _ _ Hinit) as Hnd. rewrite <- Hperm in Hnd.
    now apply list.NoDup_cons in Hnd as [? _]. }
  specialize (Hout p Hp1). cbn [store] in Hout.
  rewrite list_lookup_insert_eq in Hout by (eapply lookup_lt_Some; eauto).
  exists p, (setAtlasPos img (Min (Rect leaf))). rewrite E. split; [exact Hout|].
  assert (leaf = fresh (image.Rect 1 1 (X atlasSize) (Y atlasSize))) as ->.
  { cbn [root initState] in Hd. destruct (Candidate (snd b)) as [|[] q]; simpl in Hd; congruence. }
  cbn [AtlasPos setAtlasPos Rect fresh]. unfold image.Rect.
  destruct (Z.ltb_spec (X atlasSize) 1); [lia|].
  destruct (Z.ltb_spec (Y atlasSize) 1); [lia|]. reflexivity.
Qed.

Lemma PackImages_first_corner_witness :
  exists a' i img,
    PackImages 3 (mkAtlas [blankSprite 1 1; blankSprite 1 1]) (Pt 6 4) = Ret (a', None) /\
    Images a' !! i = Some img /\ AtlasPos img = Pt 1 1.
Proof.
  eexists.
  match goal with
  | |- exists i img, PackImages ?fu ?a ?sz = Ret (?x, None) /\ _ =>
      assert (HP : PackImages fu a sz = Ret (x, None)) by (vm_compute; reflexivity);
      destruct (PackImages_first_corner a x sz fu) as (i & img & Hi & Hpos)
  end.
  - lia.
  - simpl. lia.
  - concrete.
  - reflexivity.
  - reflexivity.
  - repeat constructor; concrete.
  - discriminate.
  - exact HP.
  - exists i, img. split; [exact HP|]. split; [exact Hi|exact Hpos].
Defined.

(** The padded rectangles of two sprites of a run without error share
    no pixel. *)
Lemma packed_disjoint (a a' : Atlas) (atlasSize : Point) (fuel : nat) (i j : nat)
    (img_i img_j : AtlasImage) :
  (3 <= fuel)%nat -> (length (Images a) <= fuel)%nat ->
  int_point atlasSize -> Forall spriteOk (Images a) ->
  PackImages fuel a atlasSize = Ret (a', None) ->
  i <> j -> Images a' !! i = Some img_i -> Images a' !! j = Some img_j ->
  disjoint (paddedRect img_i) (paddedRect img_j).
Proof.
  intros Hfuel Hlen Hcanvas Hsprites HP Hij Hi Hj.
  destruct (PackImages_placed a a' atlasSize fuel Hfuel Hlen Hcanvas Hsprites HP)
    as (s' & f & E & _ & Hinv & _ & Hn & Hpl & Hinj).
  rewrite E in Hi, Hj.
  destruct (Hpl i img_i Hi) as (_ & li & Hdi & _ & Hli & Hri & HRi).
  destruct (Hpl j img_j Hj) as (_ & lj & Hdj & _ & Hlj & Hrj & HRj).
  rewrite <- HRi, <- HRj.
  apply (distinct_leaves_disjoint (root s') (f i) (f j)); auto.
  - apply (inv_tree _ _ _ Hinv).
  - apply Hinj; [| |exact Hij]; rewrite <- Hn; eapply lookup_lt_Some; eauto.
Qed.

(** Two rectangles of at least one pixel that share none lie apart on
    one of the axes. *)
Lemma disjoint_apart (r s : Rectangle) :
  disjoint r s ->
  X (Min r) < X (Max r) -> Y (Min r) < Y (Max r) ->
  X (Min s) < X (Max s) -> Y (Min s) < Y (Max s) ->
  X (Max r) <= X (Min s) \/ X (Max s) <= X (Min r) \/
  Y (Max r) <= Y (Min s) \/ Y (Max s) <= Y (Min r).
Proof.
  intros Hd. specialize (Hd (Z.max (X (Min r)) (X (Min s))) (Z.max (Y (Min r)) (Y (Min s)))).
  unfold inRect in Hd. lia.
Qed.

(** The rectangles of a placed sprite, corner by corner. *)
Lemma placed_rects (img : AtlasImage) (atlasSize : Point) :
  int_point atlasSize -> 0 < X atlasSize -> 0 < Y atlasSize ->
  spriteOk img -> inside (paddedRect img) (usable atlasSize) ->
  let px := X (AtlasPos img) in
  let py := Y (AtlasPos img) in
  let w := Dx (Bounds (Image img)) in
  let h := Dy (Bounds (Image img)) in
  1 <= px /\ 1 <= py /\ 0 <= w /\ 0 <= h /\
  px + w + 1 <= X atlasSize /\ py + h + 1 <= Y atlasSize /\
  paddedRect img = mkRectangle (Pt px py) (Pt (px + w + 1) (py + h + 1)) /\
  dstrect img = mkRectangle (Pt px py) (Pt (px + w) (py + h)) /\
  outline img = mkRectangle (Pt (px - 1) (py - 1)) (Pt (px + w + 1) (py + h + 1)).
Proof.
  intros [HiX HiY] HW HH Hok Hin px py w h.
  destruct (padded_ok img Hok) as (_ & EX & EY).
  assert (EP : paddedRect img = mkRectangle (Pt px py) (Pt (px + w + 1) (py + h + 1))).
  { unfold paddedRect, cornerOf. cbn [Min Max X Y]. rewrite EX, EY.
    subst px py w h. destruct (AtlasPos img). simpl. f_equal. f_equal; lia. }
  rewrite EP in Hin. revert Hin. unfold usable, inside, image.Rect.
  destruct (Z.ltb_spec (X atlasSize) 1); [lia|].
  destruct (Z.ltb_spec (Y atlasSize) 1); [lia|]. cbn [Min Max X Y]. intros Hin.
  destruct Hok as [Hw Hh]. fold w in Hw. fold h in Hh.
  assert (E1 : iadd px w = px + w) by int_lia.
  assert (E2 : iadd py h = py + h) by int_lia.
  assert (ED : dstrect img = mkRectangle (Pt px py) (Pt (px + w) (py + h))).
  { unfold dstrect, image.Rect. fold px py w h. rewrite E1, E2.
    destruct (Z.ltb_spec (px + w) px); [lia|].
    destruct (Z.ltb_spec (py + h) py); [lia|]. reflexivity. }
  repeat (split; [lia|]). split; [exact EP|]. split; [exact ED|].
  unfold outline, Inset. rewrite ED. unfold Dx, Dy. cbn [Min Max X Y].
  assert (E3 : isub (px + w) px = w) by int_lia.
  assert (E4 : isub (py + h) py = h) by int_lia.
  rewrite E3, E4.
  assert (E5 : imul 2 (-1) = -2) by reflexivity. rewrite E5.
  destruct (Z.ltb_spec w (-2)); [lia|].
  destruct (Z.ltb_spec h (-2)); [lia|].
  f_equal; f_equal; int_lia.
Qed.

(** X4: after a run of [PackImages] without error, the rectangle that
    [SaveAtlasImage] clears around a sprite when the padding is drawn,
    one pixel wider than the sprite on each side, lies on the canvas,
    and it meets the pixels of no other sprite: between two sprites, and
    between a sprite and the border of the canvas, at least one pixel
    stays free. *)
Theorem SaveAtlasImage_outline_clear (a a' : Atlas) (atlasSize : Point) (fuel : nat) :
  (3 <= fuel)%nat -> (length (Images a) <= fuel)%nat ->
  int_point atlasSize -> 0 < X atlasSize -> 0 < Y atlasSize ->
  Forall spriteOk (Images a) ->
  PackImages fuel a atlasSize = Ret (a', None) ->
  (forall i img, Images a' !! i = Some img ->
     inside (dstrect img) (outline img) /\
     X (Min (outline img)) = X (AtlasPos img) - 1 /\
     Y (Min (outline img)) = Y (AtlasPos img) - 1 /\
     X (Max (outline img)) = X (AtlasPos img) + Dx (Bounds (Image img)) + 1 /\
     Y (Max (outline img)) = Y (AtlasPos img) + Dy (Bounds (Image img)) + 1 /\
     inside (outline img) (canvasRect atlasSize)) /\
  (forall i j img_i img_j, i <> j ->
     Images a' !! i = Some img_i -> Images a' !! j = Some img_j ->
     disjoint (outline img_i) (dstrect img_j)).
Proof.
  intros Hfuel Hlen Hcanvas HW HH Hsprites HP.
  assert (Hrects : forall i img, Images a' !! i = Some img ->
            spriteOk img /\ inside (paddedRect img) (usable atlasSize)).
  { intros i img. apply (packed_inside a a' atlasSize fuel); assumption. }
  split.
  - intros i img Hi. destruct (Hrects i img Hi) as [Hok Hin].
    destruct (placed_rects img atlasSize Hcanvas HW HH Hok Hin)
      as (Hx & Hy & Hw & Hh & HxW & HyH & _ & ED & EO).
    rewrite EO, ED. unfold inside, canvasRect, image.Rect. cbn [Min Max X Y].
    destruct (Z.ltb_spec (X atlasSize) 0); [lia|].
    destruct (Z.ltb_spec (Y atlasSize) 0); [lia|]. cbn [Min Max X Y]. lia.
  - intros i j img_i img_j Hij Hi Hj.
    destruct (Hrects i img_i Hi) as [Hoki Hini].
    destruct (Hrects j img_j Hj) as [Hokj Hinj].
    pose proof (packed_disjoint a a' atlasSize fuel i j img_i img_j
                  Hfuel Hlen Hcanvas Hsprites HP Hij Hi Hj) as Hdis.
    destruct (placed_rects img_i atlasSize Hcanvas HW HH Hoki Hini)
      as (_ & _ & Hwi & Hhi & _ & _ & EPi & _ & EOi).
    destruct (placed_rects img_j atlasSize Hcanvas HW HH Hokj Hinj)
      as (_ & _ & Hwj & Hhj & _ & _ & EPj & EDj & _).
    rewrite EPi, EPj in Hdis. apply disjoint_apart in Hdis; cbn [Min Max X Y] in *; try lia.
    rewrite EOi, EDj. intros x y. unfold inRect. cbn [Min Max X Y]. lia.
Qed.

Lemma SaveAtlasImage_outline_clear_witness :
  exists a',
    PackImages 3 (mkAtlas [blankSprite 1 1; blankSprite 1 1]) (Pt 6 4) = Ret (a', None) /\
    (forall i img, Images a' !! i = Some img -> inside (outline img) (canvasRect (Pt 6 4))) /\
    (forall i j img_i img_j, i <> j ->
       Images a' !! i = Some img_i -> Images a' !! j = Some img_j ->
       disjoint (outline img_i) (dstrect img_j)).
Proof.
  eexists. split; [vm_compute; reflexivity|].
  match goal with
  | |- context [Images ?x] =>
      destruct (SaveAtlasImage_outline_clear
                  (mkAtlas [blankSprite 1 1; blankSprite 1 1]) x (Pt 6 4) 3)
        as (Hin & Hdis)
  end.
  - lia.
  - simpl. lia.
  - concrete.
  - reflexivity.
  - reflexivity.
  - repeat constructor; concrete.
  - vm_compute. reflexivity.
  - split; [|exact Hdis]. intros i img Hi. apply (Hin i img Hi).
Defined.

(** ** Trimming what is trimmed *)

(** An image has a visible pixel or it has none. *)
Lemma visible_or_not (p : RGBA) :
  wfRGBA p -> (exists x y, visible p x y) \/ (forall x y, ~ visible p x y).
Proof.
  intros Hwf. destruct (ImageMaxAlpha_spec p Hwf) as (m & _ & Hle & (x & y & Hin & Hm)).
  destruct (decide (m = 0)) as [->|Hne].
  - right. intros x' y' [Hin' Ha]. specialize (Hle x' y' Hin').
    pose proof (alphaAt_range p x' y'). lia.
  - left. exists x, y. split; [exact Hin|]. congruence.
Qed.

(** The sub-image over the whole of an image is the image. *)
Lemma SubImage_whole (p : RGBA) : wfRGBA p -> SubImage p (Bounds p) = Ret p.
Proof.
  intros Hwf.
  assert (Hsub : subRect (Bounds p) (Bounds p)).
  { destruct Hwf as (_ & ? & ? & _). split; [apply inside_refl|lia]. }
  destruct (SubImage_spec p _ Hwf Hsub) as (s & Hs & Hb & HS & _ & HP & _).
  rewrite Hs. f_equal.
  assert (E0 : offsetOf p (X (Min (Bounds p))) (Y (Min (Bounds p))) = 0).
  { unfold offsetOf. lia. }
  rewrite E0 in HP. change (Z.to_nat 0) with 0%nat in HP. rewrite drop_0 in HP.
  clear - Hb HS HP. destruct s, p. simpl in *. congruence.
Qed.

(** What [TrimImage] returns, with the rectangle its loops end on. *)
Lemma TrimImage_trimRect (src : RGBA) (fuel : nat) :
  wfRGBA src ->
  Dx (Bounds src) <= Z.of_nat fuel -> Dy (Bounds src) <= Z.of_nat fuel ->
  exists dst,
    TrimImage fuel src = Ret dst /\ trimRect fuel src = Ret (Bounds dst) /\
    wfRGBA dst /\ subRect (Bounds dst) (Bounds src) /\ Stride dst = Stride src /\
    (forall x y, visible dst x y <-> visible src x y).
Proof.
  intros Hwf Hfx Hfy.
  destruct (trimRect_spec src fuel Hwf Hfx Hfy) as (r & Hr & Hsub & Hvis & _).
  destruct (SubImage_spec src r Hwf Hsub) as (dst & Hd & Hb & HS & Hwfd & _ & Hpix).
  exists dst. split; [unfold TrimImage; rewrite Hr; exact Hd|].
  rewrite Hb. split; [exact Hr|]. split; [exact Hwfd|]. split; [exact Hsub|].
  split; [exact HS|].
  intros x y. unfold visible. rewrite Hb. split.
  - intros [Hin Ha]. destruct (Hpix x y Hin) as [E _]. rewrite E in Ha.
    split; [|exact Ha]. destruct Hsub as [Hins _]. apply (inside_within _ _ Hins), Hin.
  - intros [Hin Ha]. assert (Hr' : inRect x y r) by (apply Hvis; split; assumption).
    destruct (Hpix x y Hr') as [E _]. rewrite E. auto.
Qed.

(** X5: trimming is idempotent: [TrimImage] gives back unchanged an
    image that [TrimImage] returned. *)
Theorem TrimImage_idempotent (src dst : RGBA) (fuel : nat) :
  wfRGBA src ->
  Dx (Bounds src) <= Z.of_nat fuel -> Dy (Bounds src) <= Z.of_nat fuel ->
  TrimImage fuel src = Ret dst ->
  TrimImage fuel dst = Ret dst.
Proof.
  intros Hwf Hfx Hfy Hd.
  destruct (TrimImage_trimRect src fuel Hwf Hfx Hfy) as (dst' & Hd' & Hr & Hwfd & Hsub & _ & Hv).
  assert (dst' = dst) by congruence. subst dst'.
  destruct (trimRect_spec src fuel Hwf Hfx Hfy) as (r & Hr' & _ & _ & Htight & Hnone).
  assert (r = Bounds dst) by congruence. subst r.
  destruct (wf_extent src Hwf) as [Ex Ey]. destruct (wf_extent dst Hwfd) as [Ex' Ey'].
  assert (Hfx' : Dx (Bounds dst) <= Z.of_nat fuel).
  { destruct Hsub as ((? & ? & ? & ?) & _). lia. }
  assert (Hfy' : Dy (Bounds dst) <= Z.of_nat fuel).
  { destruct Hsub as ((? & ? & ? & ?) & _). lia. }
  destruct (trimRect_spec dst fuel Hwfd Hfx' Hfy') as (r2 & Hr2 & Hsub2 & Hvis2 & _ & _).
  assert (E : r2 = Bounds dst).
  { destruct Hsub2 as ((I1 & I2 & I3 & I4) & I5 & I6).
    destruct (visible_or_not src Hwf) as [Hex|Hno].
    - destruct (Htight Hex) as ((yl & Hl) & (yr & Hrt) & (xt & Ht) & (xb & Hbt)).
      apply Hv, Hvis2 in Hl, Hrt, Ht, Hbt.
      destruct Hl as [? _], Hrt as [? _], Ht as [_ ?], Hbt as [_ ?].
      destruct r2 as [[x0 y0] [x1 y1]], (Bounds dst) as [[a0 b0] [a1 b1]]. simpl in *.
      f_equal; f_equal; lia.
    - rewrite (Hnone Hno) in *. clear - I1 I2 I3 I4 I5 I6.
      destruct r2 as [[x0 y0] [x1 y1]], (Min (Bounds src)) as [a0 b0]. simpl in *.
      f_equal; f_equal; lia. }
  subst r2. unfold TrimImage. rewrite Hr2. cbn [mbind outcome_bind].
  apply SubImage_whole, Hwfd.
Qed.

Lemma TrimImage_idempotent_witness :
  exists dst, TrimImage 4 sampleRGBA = Ret dst /\ TrimImage 4 dst = Ret dst.
Proof.
  eexists. split; [vm_compute; reflexivity|].
  apply (TrimImage_idempotent sampleRGBA).
  - unfold wfRGBA. concrete.
  - concrete.
  - concrete.
  - vm_compute. reflexivity.
Defined.

(** ** Loading sprites *)

Lemma NewRGBA_spec (r : Rectangle) :
  int_rect r -> 1 <= X (Max r) - X (Min r) -> 1 <= Y (Max r) - Y (Min r) ->
  4 * (X (Max r) - X (Min r)) * (Y (Max r) - Y (Min r)) <= int_max ->
  exists p,
    NewRGBA r = Ret p /\ Bounds p = r /\
    Stride p = 4 * (X (Max r) - X (Min r)) /\
    Z.of_nat (length (Pix p)) = 4 * (X (Max r) - X (Min r)) * (Y (Max r) - Y (Min r)).
Proof.
  intros Hi Hw Hh Hmax. unfold NewRGBA, Dx, Dy.
  destruct r as [[x0 y0] [x1 y1]]. unfold int_rect, int_point in Hi. cbn [Min Max X Y] in *.
  assert (Ew : isub x1 x0 = x1 - x0).
  { assert (4 * (x1 - x0) <= 4 * (x1 - x0) * (y1 - y0)) by nia.
    set (n := 4 * (x1 - x0) * (y1 - y0)) in *. clearbody n. int_lia. }
  assert (Eh : isub y1 y0 = y1 - y0).
  { assert (4 * (y1 - y0) <= 4 * (x1 - x0) * (y1 - y0)) by nia.
    set (n := 4 * (x1 - x0) * (y1 - y0)) in *. clearbody n. int_lia. }
  rewrite Ew, Eh.
  assert (E4 : imul 4 (x1 - x0) = 4 * (x1 - x0)).
  { assert (4 * (x1 - x0) <= 4 * (x1 - x0) * (y1 - y0)) by nia.
    set (n := 4 * (x1 - x0) * (y1 - y0)) in *. clearbody n. int_lia. }
  rewrite E4.
  assert (En : imul (4 * (x1 - x0)) (y1 - y0) = 4 * (x1 - x0) * (y1 - y0)).
  { assert (0 <= 4 * (x1 - x0) * (y1 - y0)) by nia.
    unfold imul. set (n := 4 * (x1 - x0) * (y1 - y0)) in *. clearbody n. int_lia. }
  rewrite En. destruct (Z.ltb_spec (4 * (x1 - x0) * (y1 - y0)) 0); [nia|].
  eexists. split; [reflexivity|]. cbn [Bounds Stride Pix]. split; [reflexivity|].
  split; [reflexivity|]. rewrite length_replicate. lia.
Qed.

(** The canvas [AddImage] makes for a decoded image, and what is drawn
    on it. *)
Lemma converted_wf (rawimg : image.Image) :
  decodedOk rawimg ->
  exists blank,
    NewRGBA (boundsOf rawimg) = Ret blank /\ Bounds blank = boundsOf rawimg /\
    forall pix, length pix = length (Pix blank) -> wfRGBA (withPix blank pix).
Proof.
  intros (Hi & Hw & Hh & Hmax).
  destruct (NewRGBA_spec _ Hi Hw Hh Hmax) as (blank & EB & Hb & HS & Hlen).
  exists blank. split; [exact EB|]. split; [exact Hb|].
  intros pix Hpix. unfold wfRGBA, withPix. cbn [Pix Stride Bounds]. rewrite Hpix, Hb, HS, Hlen.
  split; [exact Hi|]. split; [exact Hw|]. split; [exact Hh|].
  assert (4 * (X (Max (boundsOf rawimg)) - X (Min (boundsOf rawimg))) <=
          4 * (X (Max (boundsOf rawimg)) - X (Min (boundsOf rawimg))) *
            (Y (Max (boundsOf rawimg)) - Y (Min (boundsOf rawimg)))) by nia.
  split; [unfold is_int, int_min, int_max in *; lia|].
  split; [lia|]. split; [nia|exact Hmax].
Qed.

(** [AddImage] on a file that decodes: the canvas, the drawing, the
    trimming, and the sprite appended. *)
Lemma AddImage_steps
    (decodeFile : String.string -> error + image.Image)
    (drawOver : RGBA -> image.Image -> list Byte.byte)
    (fuel : nat) (a : Atlas) (path : String.string)
    (rawimg : image.Image) (blank trimmed : RGBA) :
  decodeFile path = inr rawimg ->
  NewRGBA (boundsOf rawimg) = Ret blank ->
  TrimImage fuel (withPix blank (drawOver blank rawimg)) = Ret trimmed ->
  AddImage decodeFile drawOver fuel a path =
    Ret (mkAtlas (Images a ++ [mkAtlasImage path (boundsOf rawimg) trimmed (Pt 0 0)]), None).
Proof.
  intros E EB ET. unfold AddImage. rewrite E, EB. cbn [mbind outcome_bind].
  unfold withPix in ET. rewrite ET. reflexivity.
Qed.

Section Loading.

Variable decodeFile : String.string -> error + image.Image.
Variable drawOver : RGBA -> image.Image -> list Byte.byte.
Variable Glob : String.string -> error + list String.string.
Variable fuel : nat.

(** [draw.Draw] writes pixels: the buffer keeps its length. *)
Hypothesis Hdraw : forall dst src, length (drawOver dst src) = length (Pix dst).

(** Every file that decodes gives an image the loader can take, no
    wider or higher than the fuel. *)
Hypothesis Hdecode : forall path rawimg,
  decodeFile path = inr rawimg ->
  decodedOk rawimg /\
  Dx (boundsOf rawimg) <= Z.of_nat fuel /\ Dy (boundsOf rawimg) <= Z.of_nat fuel.

Lemma loaded_spriteOk (img : AtlasImage) : loaded img -> spriteOk img.
Proof.
  intros (_ & Hwf & _). destruct (wf_extent _ Hwf) as [Ex Ey].
  unfold spriteOk. rewrite Ex, Ey.
  destruct Hwf as (((? & ?) & (? & ?)) & Hw & Hh & HS & H4 & Hlen & Hmax).
  assert (0 <= (Y (Max (Bounds (Image img))) - Y (Min (Bounds (Image img))) - 1) * Stride (Image img)).
  { apply Z.mul_nonneg_nonneg; lia. }
  assert (4 * (Y (Max (Bounds (Image img))) - Y (Min (Bounds (Image img))) - 1) <=
          (Y (Max (Bounds (Image img))) - Y (Min (Bounds (Image img))) - 1) * Stride (Image img)).
  { rewrite (Z.mul_comm 4). apply Z.mul_le_mono_nonneg_l; lia. }
  unfold int_max in *. lia.
Qed.

(** What [AddImage] does with a file. *)
Lemma AddImage_spec (a : Atlas) (path : String.string) :
  match decodeFile path with
  | inl err => AddImage decodeFile drawOver fuel a path = Ret (a, Some err)
  | inr rawimg =>
      exists img,
        AddImage decodeFile drawOver fuel a path = Ret (mkAtlas (Images a ++ [img]), None) /\
        Path img = path /\ OrgBounds img = boundsOf rawimg /\ loaded img
  end.
Proof.
  unfold AddImage. destruct (decodeFile path) as [err|rawimg] eqn:E; [reflexivity|].
  destruct (Hdecode path rawimg E) as ((Hi & Hw & Hh & Hmax) & Hfx & Hfy).
  destruct (NewRGBA_spec _ Hi Hw Hh Hmax) as (blank & -> & Hb & HS & Hlen).
  cbn [mbind outcome_bind].
  set (converted := mkRGBA (drawOver blank rawimg) (Stride blank) (Bounds blank)).
  assert (Hwf : wfRGBA converted).
  { unfold wfRGBA, converted. cbn [Pix Stride Bounds]. rewrite Hdraw, Hb, HS, Hlen.
    split; [exact Hi|]. split; [exact Hw|]. split; [exact Hh|].
    assert (4 * (X (Max (boundsOf rawimg)) - X (Min (boundsOf rawimg))) <=
            4 * (X (Max (boundsOf rawimg)) - X (Min (boundsOf rawimg))) *
              (Y (Max (boundsOf rawimg)) - Y (Min (boundsOf rawimg)))) by nia.
    split; [unfold is_int, int_min, int_max in *; lia|].
    split; [lia|]. split; [nia|exact Hmax]. }
  assert (Hcb : Bounds converted = boundsOf rawimg) by exact Hb.
  destruct (trimRect_spec converted fuel Hwf) as (r & Hr & Hsub & _);
    [rewrite Hcb; assumption..|].
  destruct (SubImage_spec converted r Hwf Hsub) as (dst & Hd & Hdb & _ & Hwfd & _).
  unfold TrimImage. rewrite Hr. cbn [mbind outcome_bind]. rewrite Hd.
  cbn [mbind outcome_bind].
  eexists. split; [reflexivity|]. split; [reflexivity|]. split; [reflexivity|].
  unfold loaded. cbn [AtlasPos Image OrgBounds]. split; [reflexivity|].
  split; [exact Hwfd|]. split; [rewrite Hdb, <- Hcb; exact Hsub|].
  unfold is_int, int_min, int_max in *. split; nia.
Qed.

Lemma addMatches_spec (matches : list String.string) (a : Atlas) :
  exists a' err added,
    addMatches decodeFile drawOver fuel a matches = Ret (a', err) /\
    Images a' = Images a ++ added /\ Forall loaded added /\
    ((err = None /\ map Path added = matches) \/
     (exists e done bad rest,
        err = Some e /\ matches = done ++ bad :: rest /\
        map Path added = done /\ decodeFile bad = inl e)).
Proof.
  revert a. induction matches as [|m matches IH]; intros a.
  - exists a, None, []. split; [reflexivity|]. split; [now rewrite app_nil_r|].
    split; [constructor|]. left. auto.
  - cbn [addMatches]. pose proof (AddImage_spec a m) as HA.
    destruct (decodeFile m) as [e|rawimg] eqn:E.
    + rewrite HA. cbn [mbind outcome_bind].
      exists a, (Some e), []. split; [reflexivity|]. split; [now rewrite app_nil_r|].
      split; [constructor|]. right. exists e, [], m, matches. auto.
    + destruct HA as (img & -> & Hp & _ & Hl). cbn [mbind outcome_bind].
      destruct (IH (mkAtlas (Images a ++ [img]))) as (a' & err & added & -> & Ha' & Hadd & Hend).
      exists a', err, (img :: added). split; [reflexivity|].
      split; [rewrite Ha'; cbn [Images]; now rewrite <- app_assoc|].
      split; [constructor; assumption|].
      destruct Hend as [(-> & Hm)|(e & done & bad & rest & -> & -> & Hm & Hbad)].
      * left. split; [reflexivity|]. cbn [map]. now rewrite Hp, Hm.
      * right. exists e, (m :: done), bad, rest. split; [reflexivity|].
        split; [reflexivity|]. split; [cbn [map]; now rewrite Hp, Hm|exact Hbad].
Qed.

Lemma addArgs_loaded (args : list String.string) (a a' : Atlas) :
  addArgs decodeFile drawOver Glob fuel a args = Ret a' ->
  Forall loaded (Images a) -> Forall loaded (Images a').
Proof.
  revert a. induction args as [|arg args IH]; intros a; cbn [addArgs].
  - now intros [= ->].
  - unfold AddImages. destruct (Glob arg) as [e|matches]; [discriminate|].
    destruct (addMatches_spec matches a) as (a1 & err & added & -> & Ha1 & Hadd & _).
    cbn [mbind outcome_bind]. destruct err as [e|]; [discriminate|].
    intros Hrest Ha. apply (IH a1 Hrest). rewrite Ha1. apply Forall_app. auto.
Qed.

End Loading.

Lemma loaded_sizes (img : AtlasImage) :
  loaded img ->
  let w := X (Max (Bounds (Image img))) - X (Min (Bounds (Image img))) in
  let h := Y (Max (Bounds (Image img))) - Y (Min (Bounds (Image img))) in
  PixelArea img = w * h /\ ManhattenSize img = w + h /\
  1 <= w * h <= area (OrgBounds img) /\ 2 <= w + h.
Proof.
  intros (_ & Hwf & Hsub & _) w h. destruct (wf_extent _ Hwf) as [Ex Ey].
  unfold PixelArea, ManhattenSize. rewrite Ex, Ey. fold w h.
  destruct Hwf as (_ & Hw & Hh & HS & H4 & Hlen & Hmax). fold w h in Hw, Hh, H4, Hlen.
  destruct Hsub as ((I1 & I2 & I3 & I4) & _). unfold area.
  set (W := X (Max (OrgBounds img)) - X (Min (OrgBounds img))).
  set (H := Y (Max (OrgBounds img)) - Y (Min (OrgBounds img))).
  assert (HwW : w <= W) by (subst w W; lia).
  assert (HhH : h <= H) by (subst h H; lia).
  assert (H1 : 1 <= w * h) by nia.
  assert (H2 : w * h <= W * H) by (apply Z.mul_le_mono_nonneg; lia).
  assert (H3 : 4 * (w * h) <= int_max).
  { assert ((h - 1) * (4 * w) <= (h - 1) * Stride (Image img)).
    { apply Z.mul_le_mono_nonneg_l; lia. }
    nia. }
  assert (H5 : w <= w * h) by nia. assert (H6 : h <= w * h) by nia.
  split; [|split; [|split; [split; assumption|lia]]].
  - unfold imul. set (n := w * h) in *. clearbody n. int_lia.
  - set (n := w * h) in *. clearbody n. int_lia.
Qed.

Lemma sampleDraw_length (dst : RGBA) (src : image.Image) :
  length (sampleDraw dst src) = length (Pix dst).
Proof.
  unfold sampleDraw. destruct src as [p|b]; [|reflexivity].
  destruct (Nat.eqb_spec (length (Pix p)) (length (Pix dst))); congruence.
Qed.

Lemma sampleDecode_ok (path : String.string) (rawimg : image.Image) :
  sampleDecode path = inr rawimg ->
  decodedOk rawimg /\
  Dx (boundsOf rawimg) <= Z.of_nat 4 /\ Dy (boundsOf rawimg) <= Z.of_nat 4.
Proof. intros [= <-]. unfold decodedOk. concrete. Qed.




(** X6: [AddImage] on a file that does not open or decode returns the
    error and leaves the atlas as it was; on any other file it appends
    one sprite and nothing else: the sprite carries the path and the
    bounds of the decoded image, is not yet placed, and its image is
    what [TrimImage] returns for the decoded image drawn onto a fresh
    canvas of its bounds. That image shows the pixels of the canvas at
    their coordinates and holds every visible one; if one is visible
    each of its four edges has a visible pixel, if none it is the pixel
    in the corner; it is a rectangle of at least one pixel inside the
    original bounds, for which [PixelArea] and [ManhattenSize] are the
    exact number of pixels and half the perimeter. *)
Theorem AddImage_appends_one
    (decodeFile : String.string -> error + image.Image)
    (drawOver : RGBA -> image.Image -> list Byte.byte)
    (fuel : nat) (a : Atlas) (path : String.string) :
  (forall dst src, length (drawOver dst src) = length (Pix dst)) ->
  (forall path rawimg, decodeFile path = inr rawimg ->
     decodedOk rawimg /\
     Dx (boundsOf rawimg) <= Z.of_nat fuel /\ Dy (boundsOf rawimg) <= Z.of_nat fuel) ->
  (forall err, decodeFile path = inl err ->
     AddImage decodeFile drawOver fuel a path = Ret (a, Some err)) /\
  (forall rawimg, decodeFile path = inr rawimg ->
     exists blank converted img,
       NewRGBA (boundsOf rawimg) = Ret blank /\
       converted = withPix blank (drawOver blank rawimg) /\
       TrimImage fuel converted = Ret (Image img) /\
       AddImage decodeFile drawOver fuel a path = Ret (mkAtlas (Images a ++ [img]), None) /\
       Path img = path /\ OrgBounds img = boundsOf rawimg /\ AtlasPos img = Pt 0 0 /\
       (forall x y, inRect x y (Bounds (Image img)) ->
          pixelAt (Image img) x y = pixelAt converted x y) /\
       (forall x y, visible converted x y -> inRect x y (Bounds (Image img))) /\
       ((exists x y, visible converted x y) ->
          (exists y, visible converted (X (Min (Bounds (Image img)))) y) /\
          (exists y, visible converted (X (Max (Bounds (Image img))) - 1) y) /\
          (exists x, visible converted x (Y (Min (Bounds (Image img))))) /\
          (exists x, visible converted x (Y (Max (Bounds (Image img))) - 1))) /\
       ((forall x y, ~ visible converted x y) ->
          Bounds (Image img) =
            mkRectangle (Min (boundsOf rawimg))
              (Pt (X (Min (boundsOf rawimg)) + 1) (Y (Min (boundsOf rawimg)) + 1))) /\
       wfRGBA (Image img) /\ subRect (Bounds (Image img)) (boundsOf rawimg) /\
       spriteOk img /\
       PixelArea img = area (Bounds (Image img)) /\
       1 <= PixelArea img <= area (boundsOf rawimg) /\
       ManhattenSize img = X (Max (Bounds (Image img))) - X (Min (Bounds (Image img))) +
                           (Y (Max (Bounds (Image img))) - Y (Min (Bounds (Image img))))).
Proof.
  intros Hdraw Hdecode. split.
  - intros err E. pose proof (AddImage_spec decodeFile drawOver fuel Hdraw Hdecode a path) as HA.
    rewrite E in HA. exact HA.
  - intros rawimg E. destruct (Hdecode path rawimg E) as (Hok & Hfx & Hfy).
    destruct (converted_wf rawimg Hok) as (blank & EB & Hb & Hwf).
    pose proof (Hwf _ (Hdraw blank rawimg)) as Hwfc.
    set (converted := withPix blank (drawOver blank rawimg)) in *.
    assert (Hcb : Bounds converted = boundsOf rawimg) by exact Hb.
    destruct (TrimImage_tight converted fuel Hwfc)
      as (trimmed & HT & Hwft & Hsub & Hpix & Hvis & Hedges & Hnone);
      [rewrite Hcb; assumption..|].
    rewrite Hcb in Hsub, Hnone.
    set (img := mkAtlasImage path (boundsOf rawimg) trimmed (Pt 0 0)).
    assert (Hl : loaded img).
    { unfold loaded, img. cbn [AtlasPos Image OrgBounds]. split; [reflexivity|].
      split; [exact Hwft|]. split; [exact Hsub|].
      destruct Hok as (Hi & Hw & Hh & Hmax).
      unfold is_int, int_min, int_max in *. split; nia. }
    exists blank, converted, img. split; [exact EB|]. split; [reflexivity|].
    split; [exact HT|].
    split; [apply (AddImage_steps decodeFile drawOver fuel a path rawimg blank trimmed E EB HT)|].
    split; [reflexivity|]. split; [reflexivity|]. split; [reflexivity|].
    split; [exact Hpix|]. split; [exact Hvis|]. split; [exact Hedges|]. split; [exact Hnone|].
    destruct (loaded_sizes img Hl) as (EA & EM & HA1 & _).
    pose proof (loaded_spriteOk img Hl) as Hok'.
    split; [exact Hwft|]. split; [exact Hsub|]. split; [exact Hok'|].
    split; [exact EA|]. split; [rewrite EA; exact HA1|exact EM].
Qed.

Lemma AddImage_appends_one_witness :
  exists blank img,
    NewRGBA (image.Rect 0 0 4 3) = Ret blank /\
    TrimImage 4 (withPix blank (sampleDraw blank (ImageRGBA sampleRGBA))) = Ret (Image img) /\
    AddImage sampleDecode sampleDraw 4 NewAtlas samplePath =
      Ret (mkAtlas (Images NewAtlas ++ [img]), None) /\
    Path img = samplePath /\ spriteOk img /\ PixelArea img = area (Bounds (Image img)).
Proof.
  destruct (AddImage_appends_one sampleDecode sampleDraw 4 NewAtlas samplePath
              sampleDraw_length sampleDecode_ok) as [_ H].
  destruct (H (ImageRGBA sampleRGBA) eq_refl)
    as (blank & converted & img & EB & -> & HT & HA & Hp & _ & _ & _ & _ & _ & _ & _ & _ & Hok & EA & _).
  exists blank, img. split; [exact EB|]. split; [exact HT|]. split; [exact HA|].
  split; [exact Hp|]. split; [exact Hok|exact EA].
Defined.

(** X7: [AddImages] adds the files that match in order and stops at the
    first that does not open or decode, returning its error: the sprites
    the atlas held, and those added before the failure, stay. Without
    error, one sprite was added for every match. *)
Theorem AddImages_stops_at_first_error
    (decodeFile : String.string -> error + image.Image)
    (drawOver : RGBA -> image.Image -> list Byte.byte)
    (Glob : String.string -> error + list String.string)
    (fuel : nat) (a : Atlas) (pattern : String.string) :
  (forall dst src, length (drawOver dst src) = length (Pix dst)) ->
  (forall path rawimg, decodeFile path = inr rawimg ->
     decodedOk rawimg /\
     Dx (boundsOf rawimg) <= Z.of_nat fuel /\ Dy (boundsOf rawimg) <= Z.of_nat fuel) ->
  exists a' err added,
    AddImages decodeFile drawOver Glob fuel a pattern = Ret (a', err) /\
    Images a' = Images a ++ added /\ Forall spriteOk added /\
    match Glob pattern with
    | inl e => err = Some e /\ added = []
    | inr matches =>
        (err = None /\ map Path added = matches) \/
        (exists e done bad rest,
           err = Some e /\ matches = done ++ bad :: rest /\
           map Path added = done /\ decodeFile bad = inl e)
    end.
Proof.
  intros Hdraw Hdecode. unfold AddImages. destruct (Glob pattern) as [e|matches].
  - exists a, (Some e), []. split; [reflexivity|]. split; [now rewrite app_nil_r|].
    split; [constructor|]. auto.
  - destruct (addMatches_spec decodeFile drawOver fuel Hdraw Hdecode matches a)
      as (a' & err & added & HA & Ha' & Hl & Hend).
    exists a', err, added. split; [exact HA|]. split; [exact Ha'|].
    split; [|exact Hend]. apply (list.Forall_impl _ _ _ Hl). apply loaded_spriteOk.
Qed.

Lemma AddImages_stops_at_first_error_witness :
  exists a' added,
    AddImages sampleDecode sampleDraw sampleGlob 4 NewAtlas samplePattern = Ret (a', None) /\
    Images a' = added /\ map Path added = sampleMatches.
Proof.
  destruct (AddImages_stops_at_first_error sampleDecode sampleDraw sampleGlob 4 NewAtlas
              samplePattern sampleDraw_length sampleDecode_ok)
    as (a' & err & added & HA & Ha' & _ & Hend).
  cbn [sampleGlob] in Hend.
  destruct Hend as [(-> & Hm)|(e & done & bad & rest & _ & _ & _ & [=])].
  exists a', added. auto.
Defined.

(** X8: the atlas that the loop of [main] builds from its arguments
    meets what the packer asks of its input: [PackImages] on it returns,
    without error or with the fit error, and never panics; the sprites
    it returns are those loaded. *)
Theorem loaded_atlas_packs
    (decodeFile : String.string -> error + image.Image)
    (drawOver : RGBA -> image.Image -> list Byte.byte)
    (Glob : String.string -> error + list String.string)
    (fuel : nat) (args : list String.string) (a : Atlas) (atlasSize : Point) :
  (forall dst src, length (drawOver dst src) = length (Pix dst)) ->
  (forall path rawimg, decodeFile path = inr rawimg ->
     decodedOk rawimg /\
     Dx (boundsOf rawimg) <= Z.of_nat fuel /\ Dy (boundsOf rawimg) <= Z.of_nat fuel) ->
  (3 <= fuel)%nat -> int_point atlasSize ->
  addArgs decodeFile drawOver Glob fuel NewAtlas args = Ret a ->
  (length (Images a) <= fuel)%nat ->
  Forall spriteOk (Images a) /\
  exists a' err,
    PackImages fuel a atlasSize = Ret (a', err) /\
    (err = None \/ err = Some fitError) /\
    Forall2 sameSprite (Images a) (Images a').
Proof.
  intros Hdraw Hdecode Hfuel Hcanvas Hargs Hlen.
  assert (Hok : Forall spriteOk (Images a)).
  { eapply list.Forall_impl; [|apply loaded_spriteOk].
    apply (addArgs_loaded decodeFile drawOver Glob fuel Hdraw Hdecode args NewAtlas a Hargs).
    constructor. }
  split; [exact Hok|].
  destruct (PackImages_outcome a atlasSize fuel Hfuel Hlen Hcanvas Hok)
    as (s' & err & _ & HP & Hr & Hend).
  pose proof (rounds_inv a atlasSize fuel Hfuel Hcanvas Hok s' Hr) as Hinv.
  exists (mkAtlas (store s')), err. split; [exact HP|].
  split; [destruct Hend as [(-> & _)|(-> & _)]; auto|].
  apply (inv_store _ _ _ Hinv).
Qed.

Lemma loaded_atlas_packs_witness :
  exists a a' err,
    addArgs sampleDecode sampleDraw sampleGlob 4 NewAtlas [samplePattern] = Ret a /\
    PackImages 4 a (Pt 8 8) = Ret (a', err) /\ (err = None \/ err = Some fitError).
Proof.
  eexists.
  match goal with
  | |- exists a' err, addArgs ?d ?w ?g ?fu ?n ?ar = Ret ?x /\ _ =>
      assert (HA : addArgs d w g fu n ar = Ret x) by (vm_compute; reflexivity);
      destruct (loaded_atlas_packs d w g fu ar x (Pt 8 8) sampleDraw_length sampleDecode_ok)
        as (_ & a' & err & HP & Herr & _)
  end.
  - lia.
  - concrete.
  - exact HA.
  - simpl. lia.
  - exists a', err. auto.
Defined.

(** ** The metadata *)

Lemma Split_length (s : String.string) (sep : Ascii.ascii) :
  length (Split s sep) = S (separators s sep).
Proof.
  induction s as [|c s IH]; [reflexivity|]. simpl.
  destruct (Ascii.eqb c sep); simpl; [now rewrite IH|].
  destruct (Split s sep) as [|p ps]; simpl in *; [discriminate|exact IH].
Qed.

Lemma metaPath_spec (sep : Ascii.ascii) (filepathJoin : list String.string -> String.string)
    (strip : Z) (img : AtlasImage) :
  (strippable sep strip img -> metaPath sep filepathJoin strip img = Ret (keyOf sep filepathJoin strip img)) /\
  (~ strippable sep strip img -> metaPath sep filepathJoin strip img = Panic).
Proof.
  unfold strippable, metaPath, partsFrom, keyOf. rewrite Split_length.
  destruct (Z.ltb_spec strip 0); simpl; [split; [lia|reflexivity]|].
  destruct (Z.ltb_spec (Z.of_nat (S (separators (Path img) sep))) strip); simpl;
    (split; [intros; try lia; reflexivity|intros; try lia; reflexivity]).
Qed.

Section MetaProps.

Variable sep : Ascii.ascii.
Variable filepathJoin : list String.string -> String.string.
Variable strip : Z.

Lemma lastWithKey_cons (k : String.string) (img : AtlasImage) (imgs : list AtlasImage) :
  lastWithKey (keyOf sep filepathJoin strip) k (img :: imgs) =
  match lastWithKey (keyOf sep filepathJoin strip) k imgs with
  | Some y => Some y
  | None => if decide (keyOf sep filepathJoin strip img = k) then Some img else None
  end.
Proof.
  unfold lastWithKey. rewrite filter_cons.
  destruct (decide (keyOf sep filepathJoin strip img = k)); [|now destruct (list.last _)].
  apply last_cons.
Qed.

(** On sprites with paths long enough the loop returns the map in which
    the last sprite of each key has overwritten the others. *)
Lemma metaImages_spec (imgs : list AtlasImage) (m : gmap.gmap String.string meta.ImageMeta) :
  Forall (strippable sep strip) imgs ->
  exists m',
    metaImages sep filepathJoin strip imgs m = Ret m' /\
    forall k, m' !! k =
      match lastWithKey (keyOf sep filepathJoin strip) k imgs with
      | Some img => Some (metaOf img)
      | None => m !! k
      end.
Proof.
  revert m. induction imgs as [|img imgs IH]; intros m Hs.
  - exists m. split; [reflexivity|]. intros k. reflexivity.
  - apply list.Forall_cons in Hs as [Hs1 Hs].
    cbn [metaImages]. rewrite (proj1 (metaPath_spec sep filepathJoin strip img) Hs1).
    cbn [mbind outcome_bind].
    destruct (IH (<[keyOf sep filepathJoin strip img := metaOf img]> m) Hs) as (m' & -> & Hm').
    exists m'. split; [reflexivity|]. intros k. rewrite Hm', lastWithKey_cons.
    destruct (lastWithKey (keyOf sep filepathJoin strip) k imgs); [reflexivity|].
    destruct (decide (keyOf sep filepathJoin strip img = k)) as [<-|Hne].
    + apply stdpp.fin_maps.lookup_insert_eq.
    + apply stdpp.fin_maps.lookup_insert_ne, Hne.
Qed.

(** A sprite whose path is too short makes the loop panic. *)
Lemma metaImages_panics (imgs : list AtlasImage) (m : gmap.gmap String.string meta.ImageMeta) :
  Exists (fun img => ~ strippable sep strip img) imgs ->
  metaImages sep filepathJoin strip imgs m = Panic.
Proof.
  revert m. induction imgs as [|img imgs IH]; intros m Hex.
  - now apply Exists_nil in Hex.
  - cbn [metaImages].
    destruct (metaPath sep filepathJoin strip img) as [path| |] eqn:E; cbn [mbind outcome_bind].
    + apply IH. apply List.Exists_cons in Hex as [Hbad|Hex]; [|exact Hex].
      rewrite (proj2 (metaPath_spec sep filepathJoin strip img) Hbad) in E. discriminate.
    + reflexivity.
    + exfalso. unfold metaPath, partsFrom in E. destruct (_ || _); discriminate.
Qed.

End MetaProps.

(** X9: [AtlasMeta] returns when [strip] is not negative and no larger
    than the number of elements of the path of any sprite, one more
    than the number of separators in it, and panics as soon as one
    sprite has a shorter path or [strip] is negative. *)
Theorem AtlasMeta_strip_range (sep : Ascii.ascii) (filepathJoin : list String.string -> String.string)
    (a : Atlas) (strip : Z) (atlasSize : Point) :
  (Forall (fun img => 0 <= strip <= Z.of_nat (separators (Path img) sep) + 1) (Images a) ->
   exists m, AtlasMeta sep filepathJoin a strip atlasSize = Ret m) /\
  (Exists (fun img => strip < 0 \/ Z.of_nat (separators (Path img) sep) + 1 < strip) (Images a) ->
   AtlasMeta sep filepathJoin a strip atlasSize = Panic).
Proof.
  unfold AtlasMeta. split.
  - intros Hs. destruct (metaImages_spec sep filepathJoin strip (Images a) ∅ Hs) as (m' & -> & _).
    eexists. reflexivity.
  - intros Hex. rewrite metaImages_panics; [reflexivity|].
    eapply List.Exists_impl; [|exact Hex]. intros img. cbv beta. unfold strippable. lia.
Qed.

Lemma AtlasMeta_strip_range_witness :
  (exists m, AtlasMeta slash sampleJoin sampleAtlas 3 (Pt 16 16) = Ret m) /\
  AtlasMeta slash sampleJoin sampleAtlas 4 (Pt 16 16) = Panic.
Proof.
  destruct (AtlasMeta_strip_range slash sampleJoin sampleAtlas 3 (Pt 16 16)) as [H3 _].
  destruct (AtlasMeta_strip_range slash sampleJoin sampleAtlas 4 (Pt 16 16)) as [_ H4].
  split.
  - apply H3. repeat constructor; vm_compute; discriminate.
  - apply H4. apply Exists_cons_hd. right. vm_compute. reflexivity.
Defined.

(** X10: the metadata [AtlasMeta] returns holds the size of the canvas
    and, under each key, the record of the last sprite whose stripped
    path makes that key: position, trimmed size, original size and
    offset of the trimmed image. A sprite whose key a later sprite has
    too is overwritten, and a key no sprite has is absent. *)
Theorem AtlasMeta_last_wins (sep : Ascii.ascii) (filepathJoin : list String.string -> String.string)
    (a : Atlas) (strip : Z) (atlasSize : Point) (m : meta.AtlasMeta.t) :
  AtlasMeta sep filepathJoin a strip atlasSize = Ret m ->
  meta.AtlasMeta.Size m = meta.mkDimension (X atlasSize) (Y atlasSize) /\
  forall k,
    meta.AtlasMeta.Images m !! k =
    match lastWithKey (keyOf sep filepathJoin strip) k (Images a) with
    | Some img =>
        Some (meta.mkImageMeta
                (meta.mkPoint (X (AtlasPos img)) (Y (AtlasPos img)))
                (meta.mkDimension (Dx (Bounds (Image img))) (Dy (Bounds (Image img))))
                (meta.mkDimension (Dx (OrgBounds img)) (Dy (OrgBounds img)))
                (meta.mkPoint (X (Min (Bounds (Image img)))) (Y (Min (Bounds (Image img))))))
    | None => None
    end.
Proof.
  intros HM.
  destruct (Forall_Exists_dec (strippable sep strip)
              (fun img => decide (0 <= strip <= Z.of_nat (separators (Path img) sep) + 1))
              (Images a)) as [Hs|Hex].
  - unfold AtlasMeta in HM.
    destruct (metaImages_spec sep filepathJoin strip (Images a) ∅ Hs) as (m' & Hm' & Hlook).
    rewrite Hm' in HM. injection HM as <-. split; [reflexivity|].
    intros k. cbn [meta.AtlasMeta.Images]. rewrite Hlook.
    destruct (lastWithKey _ _ _); [reflexivity|apply stdpp.fin_maps.lookup_empty].
  - unfold AtlasMeta in HM. rewrite metaImages_panics in HM by exact Hex. discriminate.
Qed.

Lemma AtlasMeta_last_wins_witness :
  exists m,
    AtlasMeta slash sampleJoin
      (mkAtlas [mkAtlasImage deepPath (image.Rect 0 0 4 3) sampleRGBA (Pt 1 1);
                mkAtlasImage otherPath (image.Rect 0 0 2 2) opaqueRGBA (Pt 6 1)])
      1 (Pt 16 16) = Ret m /\
    meta.AtlasMeta.Size m = meta.mkDimension 16 16 /\
    meta.Position <$> meta.AtlasMeta.Images m !! strippedPath = Some (meta.mkPoint 6 1).
Proof.
  eexists. split; [vm_compute; reflexivity|].
  match goal with
  | |- context [meta.AtlasMeta.Size ?x] =>
      destruct (AtlasMeta_last_wins slash sampleJoin
                  (mkAtlas [mkAtlasImage deepPath (image.Rect 0 0 4 3) sampleRGBA (Pt 1 1);
                            mkAtlasImage otherPath (image.Rect 0 0 2 2) opaqueRGBA (Pt 6 1)])
                  1 (Pt 16 16) x) as [HS Hl]
  end.
  - vm_compute. reflexivity.
  - split; [exact HS|]. rewrite (Hl strippedPath). vm_compute. reflexivity.
Defined.




(** ** Names for ActionScript *)

Lemma asVarRune_ascii (c : Z) : isAlnum (asVarRune c) = true \/ asVarRune c = 95.
Proof. unfold asVarRune. destruct (isAlnum c) eqn:E; auto. Qed.

Lemma asVarRune_range (c : Z) : 0 <= asVarRune c <= 127.
Proof.
  unfold asVarRune. destruct (isAlnum c) eqn:E; [|lia].
  unfold isAlnum, inRange in E. lia.
Qed.

Lemma asVarRune_idem (c : Z) : asVarRune (asVarRune c) = asVarRune c.
Proof.
  unfold asVarRune. destruct (isAlnum c) eqn:E; [now rewrite E|reflexivity].
Qed.

(** The loop replaces rune by rune. *)
Lemma asVar_loop (r0 : list Z) (n k : nat) :
  (k + n <= length r0)%nat ->
  forM (map Z.of_nat (seq k n))
    (fun i r => c ← runeAt r i; if negb (isAlnum c) then setRune r i 95 else Ret r)
    (map asVarRune (take k r0) ++ drop k r0) =
  Ret (map asVarRune (take (k + n) r0) ++ drop (k + n) r0).
Proof.
  set (body := fun i r => c ← runeAt r i; if negb (isAlnum c) then setRune r i 95 else Ret r).
  revert k. induction n as [|n IH]; intros k Hk.
  - simpl. now rewrite Nat.add_0_r.
  - assert (Hlt : (k < length r0)%nat) by lia.
    destruct (lookup_lt_is_Some_2 r0 k Hlt) as [c Hc].
    assert (Hlen : length (map asVarRune (take k r0)) = k).
    { rewrite length_map, length_take. lia. }
    assert (Hat : (map asVarRune (take k r0) ++ drop k r0) !! k = Some c).
    { rewrite lookup_app_r by lia. rewrite Hlen, Nat.sub_diag, lookup_drop, Nat.add_0_r.
      exact Hc. }
    assert (Enext : map asVarRune (take (S k) r0) ++ drop (S k) r0 =
                    <[k := asVarRune c]> (map asVarRune (take k r0) ++ drop k r0)).
    { rewrite (take_S_r _ _ _ Hc), map_app, <- app_assoc. cbn [map app].
      rewrite insert_app_r_alt by lia.
      replace (k - length (map asVarRune (take k r0)))%nat with 0%nat by lia.
      rewrite (drop_S _ _ _ Hc). reflexivity. }
    assert (Hstep : body (Z.of_nat k) (map asVarRune (take k r0) ++ drop k r0) =
                    Ret (map asVarRune (take (S k) r0) ++ drop (S k) r0)).
    { unfold body, runeAt. destruct (Z.ltb_spec (Z.of_nat k) 0); [lia|].
      rewrite Nat2Z.id, Hat. cbn [mbind outcome_bind]. rewrite Enext.
      unfold asVarRune. destruct (isAlnum c) eqn:Ea; cbn [negb].
      - rewrite list_insert_id by exact Hat. reflexivity.
      - unfold setRune. rewrite length_app, length_map, length_take, length_drop.
        destruct (Z.ltb_spec (Z.of_nat k) 0); [lia|].
        destruct (Z.leb_spec (Z.of_nat (k `min` length r0 + (length r0 - k))) (Z.of_nat k));
          [lia|].
        cbn [orb]. rewrite Nat2Z.id. reflexivity. }
    cbn [seq map forM]. rewrite Hstep. cbn [mbind outcome_bind].
    replace (k + S n)%nat with (S k + n)%nat by lia. apply IH. lia.
Qed.

Lemma encodeRune_ascii (c : Z) : 0 <= c <= 127 -> encodeRune c = [c].
Proof.
  intros Hc. unfold encodeRune, inRange.
  destruct (Z.leb_spec 0 c); [|lia]. destruct (Z.leb_spec c 127); [|lia]. reflexivity.
Qed.

Lemma encode_ascii (r : list Z) :
  Forall (fun c => 0 <= c <= 127) r -> concat (map encodeRune r) = r.
Proof.
  induction 1 as [|c r Hc _ IH]; [reflexivity|].
  cbn [map concat]. rewrite (encodeRune_ascii c Hc), IH. reflexivity.
Qed.

(** What [PathAsASVarName] returns. *)
Lemma PathAsASVarName_spec (path : String.string) :
  PathAsASVarName path = Ret (stringOf (map asVarRune (toRunes (bytesOf path)))).
Proof.
  unfold PathAsASVarName, upto. rewrite Nat2Z.id.
  pose proof (asVar_loop (toRunes (bytesOf path)) (length (toRunes (bytesOf path))) 0) as H.
  rewrite take_0, drop_0 in H. cbn [map app] in H. rewrite H by lia.
  cbn [mbind outcome_bind Nat.add]. rewrite firstn_all, drop_all, app_nil_r.
  unfold ofRunes. rewrite encode_ascii; [reflexivity|].
  apply Forall_forall. intros c (c0 & <- & _)%in_map_iff. apply asVarRune_range.
Qed.

Lemma toRunes_ascii (bs : list Z) :
  Forall (fun c => 0 <= c <= 127) bs -> toRunes bs = bs.
Proof.
  induction 1 as [|c r Hc _ IH]; [reflexivity|].
  cbn [toRunes]. destruct (Z.ltb_spec c 128); [|lia]. now rewrite IH.
Qed.

Lemma bytesOf_stringOf (bs : list Z) :
  Forall (fun c => 0 <= c <= 127) bs -> bytesOf (stringOf bs) = bs.
Proof.
  intros H. unfold bytesOf, stringOf. rewrite String.list_ascii_of_string_of_list_ascii.
  induction H as [|c r Hc _ IH]; [reflexivity|].
  cbn [map]. rewrite IH. f_equal.
  rewrite Ascii.N_ascii_embedding by lia. lia.
Qed.

Lemma stringOf_length (bs : list Z) : String.length (stringOf bs) = length bs.
Proof.
  unfold stringOf. induction bs as [|b bs IH]; [reflexivity|]. simpl. now rewrite IH.
Qed.

Lemma asVar_ascii (r : list Z) : Forall (fun c => 0 <= c <= 127) (map asVarRune r).
Proof. apply list.Forall_fmap, Forall_true. intros c. apply asVarRune_range. Qed.

Lemma bytesOf_length (s : String.string) : length (bytesOf s) = String.length s.
Proof.
  unfold bytesOf. rewrite length_map.
  induction s as [|c s IH]; [reflexivity|]. simpl. now rewrite IH.
Qed.

Lemma bytesOf_range (s : String.string) : Forall (fun b => 0 <= b <= 255) (bytesOf s).
Proof.
  unfold bytesOf. apply list.Forall_fmap, Forall_true. intros c. cbv beta.
  pose proof (Ascii.N_ascii_bounded c). unfold compose. lia.
Qed.

(** X12: [PathAsASVarName] returns for every path, and the name it
    returns has one character for each rune of the path: the rune
    itself where it is an ASCII letter or digit, an underscore anywhere
    else. So the name holds nothing but ASCII letters, digits and
    underscores, and is as long as the path when the path is ASCII. *)
Theorem PathAsASVarName_chars (path : String.string) :
  exists name,
    PathAsASVarName path = Ret name /\
    length (bytesOf name) = length (toRunes (bytesOf path)) /\
    (forall i c, toRunes (bytesOf path) !! i = Some c ->
       bytesOf name !! i = Some (if isAlnum c then c else 95)) /\
    Forall (fun b => isAlnum b = true \/ b = 95) (bytesOf name) /\
    (Forall (fun b => b < 128) (bytesOf path) -> String.length name = String.length path).
Proof.
  exists (stringOf (map asVarRune (toRunes (bytesOf path)))).
  split; [apply PathAsASVarName_spec|].
  rewrite bytesOf_stringOf by apply asVar_ascii.
  split; [apply length_map|]. split.
  - intros i c Hc. rewrite list_lookup_fmap, Hc. reflexivity.
  - split.
    + apply list.Forall_fmap, Forall_true. intros c. apply asVarRune_ascii.
    + intros Hascii. rewrite stringOf_length, length_map, toRunes_ascii.
      * apply bytesOf_length.
      * pose proof (bytesOf_range path) as Hr.
        apply Forall_forall. intros b Hb.
        pose proof (proj1 (Forall_forall _ _) Hascii b Hb).
        pose proof (proj1 (Forall_forall _ _) Hr b Hb). cbv beta in *. lia.
Qed.

(** X13: [PathAsASVarName] is idempotent: a name it returned comes back
    unchanged. *)
Theorem PathAsASVarName_idempotent (path name : String.string) :
  PathAsASVarName path = Ret name -> PathAsASVarName name = Ret name.
Proof.
  rewrite PathAsASVarName_spec. intros [= <-]. rewrite PathAsASVarName_spec.
  rewrite bytesOf_stringOf by apply asVar_ascii.
  rewrite toRunes_ascii by apply asVar_ascii.
  rewrite map_map. do 2 f_equal. apply map_ext. intros c. apply asVarRune_idem.
Qed.

Lemma PathAsASVarName_idempotent_witness :
  exists name, PathAsASVarName deepPath = Ret name /\ PathAsASVarName name = Ret name.
Proof.
  eexists. split; [vm_compute; reflexivity|].
  apply (PathAsASVarName_idempotent deepPath). vm_compute. reflexivity.
Defined.

Lemma stringOf_inj (l k : list Z) :
  Forall (fun c => 0 <= c <= 127) l -> Forall (fun c => 0 <= c <= 127) k ->
  stringOf l = stringOf k -> l = k.
Proof.
  intros Hl Hk E. rewrite <- (bytesOf_stringOf l Hl), <- (bytesOf_stringOf k Hk). now rewrite E.
Qed.

(** X14: two paths get the same name from [PathAsASVarName] exactly when
    they have the same number of runes and, place by place, hold the
    same ASCII letter or digit or both something else: paths that differ
    only in such other runes collide. *)
Theorem PathAsASVarName_collision (p q : String.string) :
  PathAsASVarName p = PathAsASVarName q <->
  Forall2 (fun c d => if isAlnum c then d = c else isAlnum d = false)
    (toRunes (bytesOf p)) (toRunes (bytesOf q)).
Proof.
  rewrite !PathAsASVarName_spec.
  generalize (toRunes (bytesOf p)) (toRunes (bytesOf q)). intros l k. split.
  - intros [= E]. apply stringOf_inj in E; [|apply asVar_ascii..].
    revert k E. induction l as [|c l IH]; intros [|d k] E; try discriminate; [constructor|].
    cbn [map] in E. injection E as E1 E2. constructor; [|apply IH, E2].
    unfold asVarRune in E1. destruct (isAlnum c) eqn:Ec, (isAlnum d) eqn:Ed; try congruence.
    + subst c. discriminate.
    + subst d. discriminate.
  - intros H. do 2 f_equal. induction H as [|c d l k Hcd _ IH]; [reflexivity|].
    cbn [map]. rewrite IH. f_equal. unfold asVarRune.
    destruct (isAlnum c) eqn:Ec; [subst d; now rewrite Ec|now rewrite Hcd].
Qed.

Lemma Replace_length (s : String.string) (old new : Ascii.ascii) :
  String.length (Replace s old new) = String.length s.
Proof. induction s as [|c s IH]; [reflexivity|]. simpl. now rewrite IH. Qed.

(** X15: [CleanASPath] turns every backslash of a path into a slash and
    leaves every other character as it is: the result has the length of
    the path, holds no backslash, and is the path itself when the path
    holds none. *)
Theorem CleanASPath_no_backslash (path : String.string) :
  String.length (CleanASPath path) = String.length path /\
  (forall i c, String.get i path = Some c ->
     String.get i (CleanASPath path) = Some (if Ascii.eqb c backslash then slash else c)) /\
  (forall i, String.get i (CleanASPath path) <> Some backslash) /\
  ((forall i, String.get i path <> Some backslash) -> CleanASPath path = path) /\
  CleanASPath (CleanASPath path) = CleanASPath path.
Proof.
  unfold CleanASPath. split; [apply Replace_length|].
  assert (Hget : forall i c, String.get i path = Some c ->
            String.get i (Replace path backslash slash) =
              Some (if Ascii.eqb c backslash then slash else c)).
  { induction path as [|c0 s IH]; intros i c; [discriminate|].
    destruct i as [|i]; simpl; [now intros [= ->]|apply IH]. }
  split; [exact Hget|]. split; [|split].
  - intros i Hi.
    destruct (String.get i path) as [c|] eqn:E.
    + rewrite (Hget i c E) in Hi. injection Hi as Hi.
      destruct (Ascii.eqb_spec c backslash); [discriminate|congruence].
    + clear Hget. revert i E Hi. induction path as [|c0 s IH]; intros i; [discriminate|].
      destruct i as [|i]; simpl; [discriminate|apply IH].
  - clear Hget. induction path as [|c0 s IH]; intros Hno; [reflexivity|]. simpl.
    destruct (Ascii.eqb_spec c0 backslash) as [->|_].
    + exfalso. apply (Hno 0%nat). reflexivity.
    + f_equal. apply IH. intros i. apply (Hno (S i)).
  - clear Hget. induction path as [|c0 s IH]; [reflexivity|]. simpl. rewrite IH. f_equal.
    destruct (Ascii.eqb_spec c0 backslash) as [->|Hne]; [reflexivity|].
    destruct (Ascii.eqb_spec c0 backslash); [contradiction|reflexivity].
Qed.

(** ** The name of the ActionScript class *)

Lemma Split_cons (s : String.string) (sep : Ascii.ascii) :
  exists p ps, Split s sep = p :: ps.
Proof.
  destruct s as [|c s]; simpl; [eauto|].
  destruct (Ascii.eqb c sep); [eauto|]. destruct (Split s sep); eauto.
Qed.

Lemma concat_cons (sep x : String.string) (y : String.string) (ys : list String.string) :
  String.concat sep (x :: y :: ys) =
  String.append x (String.append sep (String.concat sep (y :: ys))).
Proof. reflexivity. Qed.

(** Joining what [Split] made with the separator gives the string back. *)
Lemma Join_Split (s : String.string) (sep : Ascii.ascii) :
  Join (Split s sep) (String.String sep String.EmptyString) = s.
Proof.
  unfold Join. induction s as [|c s IH]; [reflexivity|]. cbn [Split].
  destruct (Split_cons s sep) as (p & ps & E). rewrite E in *.
  destruct (Ascii.eqb c sep) eqn:Ec.
  - apply Ascii.eqb_eq in Ec as ->. rewrite concat_cons, IH. reflexivity.
  - destruct ps as [|q ps].
    + simpl in *. now rewrite IH.
    + rewrite concat_cons. rewrite concat_cons in IH.
      change (String.append (String.String c p) ?x) with (String.String c (String.append p x)).
      now rewrite IH.
Qed.

Lemma Split_no_sep (s : String.string) (sep : Ascii.ascii) :
  Forall (fun p => separators p sep = 0%nat) (Split s sep).
Proof.
  induction s as [|c s IH]; [repeat constructor|]. cbn [Split].
  destruct (Split_cons s sep) as (p & ps & E). rewrite E in *.
  apply list.Forall_cons in IH as [Hp Hps].
  destruct (Ascii.eqb c sep) eqn:Ec.
  - constructor; [reflexivity|]. constructor; assumption.
  - constructor; [|assumption]. simpl. now rewrite Ec.
Qed.

Lemma append_assoc (s t u : String.string) :
  String.append (String.append s t) u = String.append s (String.append t u).
Proof.
  induction s as [|c s IH]; [reflexivity|].
  change (String.String c (String.append (String.append s t) u) =
          String.String c (String.append s (String.append t u))).
  now rewrite IH.
Qed.

Lemma as3Names_parts (name : String.string) :
  exists package class,
    Split name dot = package ++ [class] /\
    as3Names name = Ret (Join package dotString, class).
Proof.
  destruct (Split_cons name dot) as (p & ps & E).
  assert (Hne : Split name dot <> []) by (rewrite E; discriminate).
  destruct (exists_last Hne) as (package & class & El).
  exists package, class. split; [exact El|].
  unfold as3Names. rewrite El, length_app. cbn [length].
  replace (Z.of_nat (length package + 1) - 1) with (Z.of_nat (length package)) by lia.
  unfold partsUpTo, partAt. rewrite length_app. cbn [length].
  destruct (Z.ltb_spec (Z.of_nat (length package)) 0); [lia|].
  destruct (Z.ltb_spec (Z.of_nat (length package + 1)) (Z.of_nat (length package))); [lia|].
  cbn [orb mbind outcome_bind]. rewrite Nat2Z.id, take_app_length.
  rewrite list_lookup_middle by reflexivity. reflexivity.
Qed.

Lemma separators_app (s t : String.string) (sep : Ascii.ascii) :
  separators (String.append s t) sep = (separators s sep + separators t sep)%nat.
Proof. induction s as [|c s IH]; [reflexivity|]. simpl. rewrite IH. lia. Qed.

(** X16: [SaveAtlasMetaAsActionScript] splits the name it is given at
    its last dot: what follows it is the class name, which holds no
    dot, what precedes it is the package, and package, dot and class
    name make up the name again. A name without dot is the class name,
    with an empty package. The slices it takes never panic. *)
Theorem as3Names_last_dot (name : String.string) :
  exists package class,
    as3Names name = Ret (package, class) /\
    separators class dot = 0%nat /\
    (separators name dot = 0%nat ->
       package = String.EmptyString /\ class = name) /\
    (separators name dot <> 0%nat ->
       name = String.append package (String.append dotString class) /\
       S (separators package dot) = separators name dot).
Proof.
  destruct (as3Names_parts name) as (package & class & El & HA).
  exists (Join package dotString), class. split; [exact HA|].
  pose proof (Split_no_sep name dot) as Hno. rewrite El in Hno.
  apply Forall_app in Hno as [Hp Hc]. apply Forall_inv in Hc.
  pose proof (Join_Split name dot) as HJ. rewrite El in HJ.
  change (String.String dot String.EmptyString) with dotString in HJ.
  pose proof (Split_length name dot) as HL. rewrite El, length_app in HL. simpl in HL.
  split; [exact Hc|].
  assert (Hsnoc : package <> [] ->
            Join (package ++ [class]) dotString =
              String.append (Join package dotString) (String.append dotString class)).
  { clear. unfold Join. induction package as [|p ps IH]; [congruence|]. intros _.
    destruct ps as [|q ps].
    - reflexivity.
    - change ((p :: q :: ps) ++ [class]) with (p :: (q :: ps) ++ [class]).
      cbn [app]. rewrite !concat_cons. cbn [app] in IH. rewrite IH by discriminate.
      rewrite !append_assoc. reflexivity. }
  split.
  - intros H0. assert (package = []) as -> by (destruct package; [reflexivity|simpl in HL; lia]).
    split; [reflexivity|]. exact HJ.
  - intros Hn. assert (Hpk : package <> []) by (intros ->; simpl in HL; lia).
    rewrite (Hsnoc Hpk) in HJ. split; [now rewrite HJ|].
    rewrite <- HJ. rewrite !separators_app, Hc. simpl.
    destruct (Ascii.eqb_spec dot dot); [lia|congruence].
Qed.

(** ** Images without pixels *)

(** Of an image without pixels every sub-image is the empty image. *)
Lemma SubImage_noPixel (src : RGBA) (r : Rectangle) :
  canon (Bounds src) -> noPixel (Bounds src) -> SubImage src r = Ret (mkRGBA [] 0 ZR).
Proof.
  intros [Hcx Hcy] Hno. unfold SubImage, Intersect, noPixel in *.
  destruct (Bounds src) as [[a0 b0] [a1 b1]], r as [[x0 y0] [x1 y1]]. cbn [Min Max X Y] in *.
  set (r' := mkRectangle _ _).
  assert (E : Empty r' = true).
  { unfold r', Empty. cbn [Min Max X Y].
    destruct (Z.ltb_spec x0 a0), (Z.ltb_spec y0 b0), (Z.ltb_spec a1 x1), (Z.ltb_spec b1 y1);
      apply orb_true_iff; rewrite !Z.leb_le; lia. }
  rewrite E. reflexivity.
Qed.

(** So the guard of each loop of [TrimImage] only looks at the extent. *)
Lemma edgeGuard_noPixel (e : edge) (src : RGBA) (t : Rectangle) :
  canon (Bounds src) -> noPixel (Bounds src) -> smallRect t ->
  edgeGuard e src t = Ret (1 <? extentOf e t) /\
  (1 < extentOf e t -> smallRect (edgeBody e t) /\
                       extentOf e (edgeBody e t) = extentOf e t - 1).
Proof.
  intros Hc Hno (((Hx0 & Hy0) & (Hx1 & Hy1)) & (Hcx & Hcy) & Hsx & Hsy).
  destruct t as [[x0 y0] [x1 y1]]. cbn [Min Max X Y] in *.
  assert (E1 : isub x1 x0 = x1 - x0) by int_lia.
  assert (E2 : isub y1 y0 = y1 - y0) by int_lia.
  split.
  - destruct e; unfold edgeGuard, stripIsClear, extentOf; cbn [Min Max X Y];
      rewrite ?E1, ?E2; rewrite SubImage_noPixel by assumption;
      match goal with |- context [1 <? ?v] => destruct (1 <? v) end; reflexivity.
  - intros Hlt.
    destruct e; unfold smallRect, edgeBody, extentOf, setMaxX, setMinX, setMaxY, setMinY,
      int_rect, int_point, canon in *; cbn [Min Max X Y] in *;
      [assert (E : isub x1 1 = x1 - 1) by int_lia
      |assert (E : iadd x0 1 = x0 + 1) by int_lia
      |assert (E : isub y1 1 = y1 - 1) by int_lia
      |assert (E : iadd y0 1 = y0 + 1) by int_lia];
      rewrite E; unfold is_int, int_min, int_max in *; lia.
Qed.

Lemma trimEdge_noPixel (e : edge) (src : RGBA) (fuel : nat) (t0 : Rectangle) :
  canon (Bounds src) -> noPixel (Bounds src) -> smallRect t0 ->
  (1 <= fuel)%nat -> extentOf e t0 <= Z.of_nat fuel ->
  exists t, trimEdge e fuel src t0 = Ret t /\ smallRect t /\ inside t t0.
Proof.
  intros Hc Hno Hs0 Hf1 Hfuel. rewrite trimEdge_while.
  destruct (while_spec (fun t => smallRect t /\ inside t t0)
              (fun t => Z.to_nat (extentOf e t - 1)) (edgeGuard e src)
              (fun t => 1 <? extentOf e t) (edgeBody e)) with (fuel := fuel) (s := t0)
    as (t & Hw & (Hs & Hin) & _).
  - intros t [Hs _]. apply (edgeGuard_noPixel e src t Hc Hno Hs).
  - intros t [Hs Hin] Ht. apply Z.ltb_lt in Ht.
    destruct (edgeGuard_noPixel e src t Hc Hno Hs) as (_ & Hstep).
    destruct (Hstep Ht) as [Hs' He]. split; [split; [exact Hs'|]|lia].
    apply (inside_trans _ t); [|exact Hin].
    clear - Ht Hs. destruct Hs as (((Hx0 & Hy0) & (Hx1 & Hy1)) & (Hcx & Hcy) & Hsx & Hsy).
    destruct t as [[x0 y0] [x1 y1]]. cbn [Min Max X Y] in *.
    destruct e; unfold inside, edgeBody, extentOf, setMaxX, setMinX, setMaxY, setMinY in *;
      cbn [Min Max X Y] in *;
      [assert (E : isub x1 1 = x1 - 1) by int_lia
      |assert (E : iadd x0 1 = x0 + 1) by int_lia
      |assert (E : isub y1 1 = y1 - 1) by int_lia
      |assert (E : iadd y0 1 = y0 + 1) by int_lia];
      rewrite E; lia.
  - split; [exact Hs0|apply inside_refl].
  - lia.
  - exists t. auto.
Qed.

(** X17: [TrimImage] on an image without pixels, of no width or of no
    height, returns the empty image at the origin: the bounds it had
    are lost, and its extents are not raised to one pixel. *)
Theorem TrimImage_without_pixels (src : RGBA) (fuel : nat) :
  int_rect (Bounds src) -> canon (Bounds src) ->
  X (Max (Bounds src)) - X (Min (Bounds src)) <= int_max ->
  Y (Max (Bounds src)) - Y (Min (Bounds src)) <= int_max ->
  X (Max (Bounds src)) = X (Min (Bounds src)) \/ Y (Max (Bounds src)) = Y (Min (Bounds src)) ->
  (1 <= fuel)%nat ->
  X (Max (Bounds src)) - X (Min (Bounds src)) <= Z.of_nat fuel ->
  Y (Max (Bounds src)) - Y (Min (Bounds src)) <= Z.of_nat fuel ->
  TrimImage fuel src = Ret (mkRGBA [] 0 ZR).
Proof.
  intros Hi Hc Hsx Hsy Hno Hf1 Hfx Hfy.
  assert (Hs0 : smallRect (Bounds src)) by (repeat split; assumption || apply Hi || apply Hc).
  assert (Hext : forall e t, inside t (Bounds src) -> canon t -> extentOf e t <= Z.of_nat fuel).
  { intros e t (? & ? & ? & ?) [? ?]. destruct e; simpl; lia. }
  destruct (trimEdge_noPixel RightE src fuel _ Hc Hno Hs0 Hf1) as (t1 & H1 & Hs1 & Hi1).
  { apply Hext; [apply inside_refl|exact Hc]. }
  destruct (trimEdge_noPixel LeftE src fuel _ Hc Hno Hs1 Hf1) as (t2 & H2 & Hs2 & Hi2).
  { apply Hext; [exact Hi1|apply Hs1]. }
  destruct (trimEdge_noPixel BottomE src fuel _ Hc Hno Hs2 Hf1) as (t3 & H3 & Hs3 & Hi3).
  { apply Hext; [exact (inside_trans _ _ _ Hi2 Hi1)|apply Hs2]. }
  destruct (trimEdge_noPixel TopE src fuel _ Hc Hno Hs3 Hf1) as (t4 & H4 & _).
  { apply Hext; [exact (inside_trans _ _ _ Hi3 (inside_trans _ _ _ Hi2 Hi1))|apply Hs3]. }
  unfold TrimImage, trimRect. simpl in H1, H2, H3, H4.
  rewrite H1. cbn [mbind outcome_bind]. rewrite H2. cbn [mbind outcome_bind].
  rewrite H3. cbn [mbind outcome_bind]. rewrite H4. cbn [mbind outcome_bind].
  apply SubImage_noPixel; assumption.
Qed.

Lemma TrimImage_without_pixels_witness :
  TrimImage 5 (mkRGBA [] 0 (image.Rect 2 3 7 3)) = Ret (mkRGBA [] 0 ZR).
Proof.
  apply TrimImage_without_pixels.
  - concrete.
  - concrete.
  - concrete.
  - concrete.
  - right. reflexivity.
  - lia.
  - concrete.
  - concrete.
Defined.

(** ** The canvas before the sprites are drawn *)

Lemma forM_inv {S : Type} (I : S -> Prop) (vs : list Z) (body : Z -> S -> outcome S)
    (f : Z -> S -> S) (s : S) :
  (forall v s, v ∈ vs -> I s -> body v s = Ret (f v s) /\ I (f v s)) ->
  I s ->
  forM vs body s = Ret (fold_left (fun s v => f v s) vs s) /\
  I (fold_left (fun s v => f v s) vs s).
Proof.
  revert s. induction vs as [|v vs IH]; intros s H Hs; [split; [reflexivity|exact Hs]|].
  destruct (H v s ltac:(left) Hs) as [E Hs']. cbn [forM fold_left]. rewrite E.
  cbn [mbind outcome_bind]. apply IH; [|exact Hs']. intros v' s' Hv. apply H. now right.
Qed.

Lemma paint_length (g : nat -> Byte.byte) (ks : list nat) (pix : list Byte.byte) :
  length (paint g pix ks) = length pix.
Proof.
  revert pix. induction ks as [|i ks IH]; intros pix; [reflexivity|].
  unfold paint in *. cbn [fold_left]. rewrite IH. apply length_insert.
Qed.

Lemma paint_app (g : nat -> Byte.byte) (ks js : list nat) (pix : list Byte.byte) :
  paint g pix (ks ++ js) = paint g (paint g pix ks) js.
Proof. apply fold_left_app. Qed.

Lemma paint_other (g : nat -> Byte.byte) (ks : list nat) (pix : list Byte.byte) (i : nat) :
  i ∉ ks -> paint g pix ks !! i = pix !! i.
Proof.
  revert pix. induction ks as [|j ks IH]; intros pix Hi; [reflexivity|].
  apply not_elem_of_cons in Hi as [Hne Hi]. unfold paint in *. cbn [fold_left].
  rewrite IH by exact Hi. apply list_lookup_insert_ne. congruence.
Qed.

(** A painted place holds what [g] gives there. *)
Lemma paint_lookup (g : nat -> Byte.byte) (ks : list nat) (pix : list Byte.byte) (i : nat) :
  i ∈ ks -> (i < length pix)%nat -> paint g pix ks !! i = Some (g i).
Proof.
  revert pix. induction ks as [|j ks IH]; intros pix Hin Hlt; [now apply elem_of_nil in Hin|].
  change (paint g pix (j :: ks)) with (paint g (<[j := g j]> pix) ks).
  destruct (decide (i ∈ ks)) as [Hi|Hi].
  - apply IH; [exact Hi|]. now rewrite length_insert.
  - apply elem_of_cons in Hin as [->|Hin]; [|contradiction].
    rewrite paint_other by exact Hi. apply list_lookup_insert_eq. exact Hlt.
Qed.

(** Four bytes in a row. *)
Lemma take4_drop (l : list Byte.byte) (o : nat) (a b c d : Byte.byte) :
  l !! o = Some a -> l !! (o + 1)%nat = Some b ->
  l !! (o + 2)%nat = Some c -> l !! (o + 3)%nat = Some d ->
  take 4 (drop o l) = [a; b; c; d].
Proof.
  intros Ha Hb Hc Hd.
  rewrite (drop_S _ _ _ Ha). replace (S o) with (o + 1)%nat by lia.
  rewrite (drop_S _ _ _ Hb). replace (S (o + 1)) with (o + 2)%nat by lia.
  rewrite (drop_S _ _ _ Hc). replace (S (o + 2)) with (o + 3)%nat by lia.
  rewrite (drop_S _ _ _ Hd). reflexivity.
Qed.

Lemma channel_place (colour : list Byte.byte) (w x y : Z) (c : nat) :
  0 <= x -> 0 <= y -> 0 <= w -> (c < 4)%nat ->
  channel colour (Z.to_nat (x * 4 + y * (4 * w)) + c) = nth c colour Byte.x00.
Proof.
  intros Hx Hy Hw Hc. unfold channel. f_equal.
  assert (0 <= y * w) by (apply Z.mul_nonneg_nonneg; lia).
  replace (x * 4 + y * (4 * w)) with ((x + y * w) * 4) by ring.
  rewrite Z2Nat.inj_mul by lia. change (Z.to_nat 4) with 4%nat.
  rewrite Nat.add_comm, Nat.Div0.mod_add. apply Nat.mod_small. exact Hc.
Qed.

(** One turn of the inner loop paints the four places of a pixel. *)
Lemma fill_pixel (drawpadding : bool) (w h x y : Z) (pix : list Byte.byte) :
  0 <= x < w -> 0 <= y < h -> 4 * w * h <= int_max ->
  Z.of_nat (length pix) = 4 * w * h ->
  (let o := iadd (imul x 4) (imul y (4 * w)) in
   pix ← setByte pix (iadd o 0) (if drawpadding then Byte.xff else Byte.x00);
   pix ← setByte pix (iadd o 1) Byte.x00;
   pix ← setByte pix (iadd o 2) Byte.x00;
   setByte pix (iadd o 3) (if drawpadding then Byte.xff else Byte.x00)) =
  Ret (paint (channel (fillColour drawpadding)) pix (places (4 * w) y x)).
Proof.
  intros Hx Hy Hmax Hlen.
  assert (Hyw : 0 <= y * (4 * w)) by (apply Z.mul_nonneg_nonneg; lia).
  assert (Hrow : y * (4 * w) + 4 * w <= 4 * w * h) by nia.
  set (n := 4 * w * h) in *. set (yw := y * (4 * w)) in *.
  assert (Eo : iadd (imul x 4) (imul y (4 * w)) = x * 4 + yw).
  { unfold imul. fold yw. clearbody n yw. int_lia. }
  cbv zeta. rewrite Eo.
  assert (E0 : iadd (x * 4 + yw) 0 = x * 4 + yw) by (clearbody n yw; int_lia).
  assert (E1 : iadd (x * 4 + yw) 1 = x * 4 + yw + 1) by (clearbody n yw; int_lia).
  assert (E2 : iadd (x * 4 + yw) 2 = x * 4 + yw + 2) by (clearbody n yw; int_lia).
  assert (E3 : iadd (x * 4 + yw) 3 = x * 4 + yw + 3) by (clearbody n yw; int_lia).
  rewrite E0, E1, E2, E3.
  assert (Hset : forall (p : list Byte.byte) (c : Z) (v : Byte.byte),
            0 <= c < 4 -> Z.of_nat (length p) = n ->
            setByte p (x * 4 + yw + c) v =
              Ret (<[(Z.to_nat (x * 4 + yw) + Z.to_nat c)%nat := v]> p)).
  { intros p c v Hc Hp. unfold setByte.
    destruct (Z.ltb_spec (x * 4 + yw + c) 0); [lia|].
    destruct (Z.leb_spec (Z.of_nat (length p)) (x * 4 + yw + c)); [lia|].
    cbn [orb]. rewrite Z2Nat.inj_add by lia. reflexivity. }
  replace (x * 4 + yw) with (x * 4 + yw + 0) at 1 by lia.
  rewrite (Hset pix 0) by lia. cbn [mbind outcome_bind].
  rewrite (Hset _ 1) by (rewrite ?length_insert; lia). cbn [mbind outcome_bind].
  rewrite (Hset _ 2) by (rewrite ?length_insert; lia). cbn [mbind outcome_bind].
  rewrite (Hset _ 3) by (rewrite ?length_insert; lia). f_equal.
  unfold paint, places. cbn [fold_left]. fold yw.
  change (Z.to_nat 0) with 0%nat. change (Z.to_nat 1) with 1%nat.
  change (Z.to_nat 2) with 2%nat. change (Z.to_nat 3) with 3%nat.
  rewrite Nat.add_0_r.
  pose proof (channel_place (fillColour drawpadding) w x y 0 ltac:(lia) ltac:(lia) ltac:(lia)
                ltac:(lia)) as C0.
  pose proof (channel_place (fillColour drawpadding) w x y 1 ltac:(lia) ltac:(lia) ltac:(lia)
                ltac:(lia)) as C1.
  pose proof (channel_place (fillColour drawpadding) w x y 2 ltac:(lia) ltac:(lia) ltac:(lia)
                ltac:(lia)) as C2.
  pose proof (channel_place (fillColour drawpadding) w x y 3 ltac:(lia) ltac:(lia) ltac:(lia)
                ltac:(lia)) as C3.
  fold yw in C0, C1, C2, C3. rewrite Nat.add_0_r in C0. rewrite C0, C1, C2, C3.
  destruct drawpadding; reflexivity.
Qed.

Lemma fold_paint {A : Type} (g : nat -> Byte.byte) (q : A -> list nat) (vs : list A)
    (pix : list Byte.byte) :
  fold_left (fun pix v => paint g pix (q v)) vs pix = paint g pix (flat_map q vs).
Proof.
  revert pix. induction vs as [|v vs IH]; intros pix; [reflexivity|].
  cbn [fold_left flat_map]. rewrite IH, paint_app. reflexivity.
Qed.

Lemma fold_paint2 {A B : Type} (g : nat -> Byte.byte) (q : A -> B -> list nat)
    (ys : list A) (xs : list B) (pix : list Byte.byte) :
  fold_left (fun pix y => fold_left (fun pix x => paint g pix (q y x)) xs pix) ys pix =
  paint g pix (flat_map (fun y => flat_map (q y) xs) ys).
Proof.
  revert pix. induction ys as [|y ys IH]; intros pix; [reflexivity|].
  cbn [fold_left flat_map]. rewrite IH, paint_app, fold_paint. reflexivity.
Qed.

(** The canvas after the two loops. *)
Lemma fillCanvas_spec (atlasSize : Point) (drawpadding : bool) :
  0 < X atlasSize -> 0 < Y atlasSize -> 4 * X atlasSize * Y atlasSize <= int_max ->
  exists dst,
    fillCanvas atlasSize drawpadding = Ret dst /\
    Bounds dst = canvasRect atlasSize /\
    Stride dst = 4 * X atlasSize /\
    Z.of_nat (length (Pix dst)) = 4 * X atlasSize * Y atlasSize /\
    wfRGBA dst /\
    forall x y, inRect x y (canvasRect atlasSize) ->
      pixelAt dst x y = fillColour drawpadding.
Proof.
  destruct atlasSize as [w h]. cbn [X Y]. intros Hw Hh Hmax.
  assert (Hw4 : 4 * w <= 4 * w * h) by nia.
  assert (Hh4 : 4 * h <= 4 * w * h) by nia.
  assert (ER : image.Rect 0 0 w h = mkRectangle (Pt 0 0) (Pt w h)).
  { unfold image.Rect. destruct (Z.ltb_spec w 0); [lia|]. destruct (Z.ltb_spec h 0); [lia|].
    reflexivity. }
  unfold fillCanvas, canvasRect. cbn [X Y]. rewrite ER.
  destruct (NewRGBA_spec (mkRectangle (Pt 0 0) (Pt w h))) as (dstimg & -> & Hb & HS & Hlen).
  { unfold int_rect, int_point, is_int, int_min, int_max in *. cbn [Min Max X Y].
    set (n := 4 * w * h) in *. clearbody n. lia. }
  { cbn [Min Max X Y]. lia. }
  { cbn [Min Max X Y]. lia. }
  { cbn [Min Max X Y]. rewrite !Z.sub_0_r. exact Hmax. }
  cbn [Min Max X Y] in HS, Hlen. rewrite !Z.sub_0_r in HS. rewrite !Z.sub_0_r in Hlen.
  cbn [mbind outcome_bind]. rewrite HS, Hb.
  set (g := channel (fillColour drawpadding)).
  set (I := fun pix : list Byte.byte => Z.of_nat (length pix) = 4 * w * h).
  match goal with
  | |- context [forM (upto h) ?body (Pix dstimg)] =>
      destruct (forM_inv I (upto h) body
                  (fun y pix =>
                     fold_left (fun pix x => paint g pix (places (4 * w) y x)) (upto w) pix)
                  (Pix dstimg)) as [EF HI]
  end.
  { intros y pix Hy%elem_of_upto Hpix.
    match goal with
    | |- forM (upto w) ?body pix = _ /\ _ =>
        apply (forM_inv I (upto w) body (fun x pix => paint g pix (places (4 * w) y x)));
          [|exact Hpix]
    end.
    intros x pix' Hx%elem_of_upto Hpix'. split.
    - apply (fill_pixel drawpadding w h x y pix' Hx Hy Hmax Hpix').
    - unfold I. rewrite paint_length. exact Hpix'. }
  { exact Hlen. }
  rewrite EF. cbn [mbind outcome_bind]. eexists. split; [reflexivity|].
  cbn [Bounds Stride Pix]. split; [reflexivity|]. split; [reflexivity|].
  set (pixF := fold_left _ (upto h) (Pix dstimg)) in *. unfold I in HI.
  split; [exact HI|]. split.
  - unfold wfRGBA. cbn [Bounds Stride Pix Min Max X Y]. rewrite !Z.sub_0_r, HI.
    unfold int_rect, int_point, is_int, int_min, int_max in *. cbn [Min Max X Y].
    set (n := 4 * w * h) in *.
    assert ((h - 1) * (4 * w) + 4 * w = n) by (subst n; ring).
    clearbody n. lia.
  - intros x y [Hx Hy]. cbn [Min Max X Y] in Hx, Hy.
    unfold pixelAt, offsetOf. cbn [Bounds Stride Pix Min Max X Y]. rewrite !Z.sub_0_r.
    replace (y * (4 * w) + x * 4) with (x * 4 + y * (4 * w)) by ring.
    assert (EP : pixF = paint g (Pix dstimg)
                   (flat_map (fun y => flat_map (places (4 * w) y) (upto w)) (upto h))).
    { unfold pixF. apply fold_paint2. }
    assert (Hyw : 0 <= y * (4 * w)) by (apply Z.mul_nonneg_nonneg; lia).
    assert (Hrow : y * (4 * w) + 4 * w <= 4 * w * h) by nia.
    assert (Hat : forall c, (c < 4)%nat ->
              pixF !! (Z.to_nat (x * 4 + y * (4 * w)) + c)%nat =
                Some (nth c (fillColour drawpadding) Byte.x00)).
    { intros c Hc. rewrite EP, paint_lookup.
      - unfold g. rewrite channel_place by lia. reflexivity.
      - apply list_elem_of_In, in_flat_map. exists y. split.
        { apply list_elem_of_In, elem_of_upto. lia. }
        apply in_flat_map. exists x. split.
        { apply list_elem_of_In, elem_of_upto. lia. }
        unfold places. cbv zeta.
        destruct c as [|[|[|[|c]]]]; [rewrite Nat.add_0_r; now left| | | |lia];
          simpl; auto.
      - set (n := 4 * w * h) in *. set (yw := y * (4 * w)) in *. clearbody n yw. lia. }
    pose proof (Hat 0%nat ltac:(lia)) as H0. rewrite Nat.add_0_r in H0.
    rewrite (take4_drop pixF _ _ _ _ _ H0
               (Hat 1%nat ltac:(lia)) (Hat 2%nat ltac:(lia)) (Hat 3%nat ltac:(lia))).
    destruct drawpadding; reflexivity.
Qed.

(** X18: the canvas [SaveAtlasImage] starts from has the size of the
    atlas, a row of four bytes for each column and no gap between the
    rows, and the two loops that fill it never index outside its buffer
    and leave every pixel in the fill colour: transparent black, or
    opaque red when the padding is to be drawn. *)
Theorem SaveAtlasImage_fill (atlasSize : Point) (drawpadding : bool) :
  0 < X atlasSize -> 0 < Y atlasSize -> 4 * X atlasSize * Y atlasSize <= int_max ->
  exists dst,
    fillCanvas atlasSize drawpadding = Ret dst /\
    Bounds dst = mkRectangle (Pt 0 0) atlasSize /\
    Stride dst = 4 * X atlasSize /\
    Z.of_nat (length (Pix dst)) = 4 * X atlasSize * Y atlasSize /\
    forall x y, 0 <= x < X atlasSize -> 0 <= y < Y atlasSize ->
      pixelAt dst x y =
        if drawpadding then [Byte.xff; Byte.x00; Byte.x00; Byte.xff]
        else [Byte.x00; Byte.x00; Byte.x00; Byte.x00].
Proof.
  intros HW HH Hmax.
  destruct (fillCanvas_spec atlasSize drawpadding HW HH Hmax)
    as (dst & Hd & Hb & HS & Hlen & _ & Hpix).
  assert (ER : canvasRect atlasSize = mkRectangle (Pt 0 0) atlasSize).
  { unfold canvasRect, image.Rect. destruct atlasSize as [w h]. cbn [X Y] in *.
    destruct (Z.ltb_spec w 0); [lia|]. destruct (Z.ltb_spec h 0); [lia|]. reflexivity. }
  exists dst. split; [exact Hd|]. split; [now rewrite Hb|].
  split; [exact HS|]. split; [exact Hlen|].
  intros x y Hx Hy. rewrite Hpix; [destruct drawpadding; reflexivity|].
  rewrite ER. split; assumption.
Qed.

Lemma SaveAtlasImage_fill_witness :
  exists dst,
    fillCanvas (Pt 3 2) true = Ret dst /\
    forall x y, inRect x y (canvasRect (Pt 3 2)) ->
      pixelAt dst x y = [Byte.xff; Byte.x00; Byte.x00; Byte.xff].
Proof.
  destruct (SaveAtlasImage_fill (Pt 3 2) true) as (dst & Hd & _ & _ & _ & Hpix).
  - reflexivity.
  - reflexivity.
  - concrete.
  - exists dst. split; [exact Hd|]. intros x y [Hx Hy]. apply Hpix; assumption.
Defined.

(** ** The largest alpha *)

(** X19: on an image of at least one pixel [ImageMaxAlpha] returns the
    largest alpha of its pixels, a number from 0 to 255 that some pixel
    has; it returns 0 exactly when no pixel is visible. *)
Theorem ImageMaxAlpha_largest (p : RGBA) :
  wfRGBA p ->
  exists m,
    ImageMaxAlpha (ImageRGBA p) = Ret m /\ 0 <= m <= 255 /\
    (forall x y, inRect x y (Bounds p) -> alphaAt p x y <= m) /\
    (exists x y, inRect x y (Bounds p) /\ alphaAt p x y = m) /\
    (m = 0 <-> forall x y, ~ visible p x y).
Proof.
  intros Hwf. destruct (ImageMaxAlpha_spec p Hwf) as (m & Hm & Hle & (x & y & Hin & Hxy)).
  exists m. split; [exact Hm|].
  split; [rewrite <- Hxy; apply alphaAt_range|].
  split; [exact Hle|]. split; [eauto|]. split.
  - intros -> x' y' [Hin' Ha]. specialize (Hle x' y' Hin').
    pose proof (alphaAt_range p x' y'). lia.
  - intros Hno. destruct (decide (m = 0)) as [|Hne]; [assumption|].
    exfalso. apply (Hno x y). split; [exact Hin|congruence].
Qed.

Lemma ImageMaxAlpha_largest_witness :
  exists m, ImageMaxAlpha (ImageRGBA sampleRGBA) = Ret m /\ 0 <= m <= 255.
Proof.
  destruct (ImageMaxAlpha_largest sampleRGBA) as (m & Hm & Hr & _).
  - unfold wfRGBA. concrete.
  - exists m. auto.
Defined.

(** ** One sprite *)

Lemma round_shortens (a : Atlas) (atlasSize : Point) (fuel : nat) (s s' : packState) :
  (3 <= fuel)%nat -> Forall spriteOk (Images a) ->
  packInv a atlasSize s -> round fuel s = Ret (Some s') ->
  S (length (images s')) = length (images s).
Proof.
  intros Hfuel Hsprites Hinv Hr.
  destruct (round_spec a atlasSize fuel Hfuel Hsprites s Hinv)
    as [[_ H]|(b & p & img & leaf & s0 & _ & Hc & H)]; [congruence|].
  assert (s0 = s') by congruence. subst s0.
  destruct Hc as (Hp & _ & _ & _ & _ & _ & root' & last & _ & Hlast & ->). cbn [images].
  pose proof (swapRemove_perm _ _ _ _ Hp Hlast) as Hperm.
  apply Permutation_length in Hperm. exact Hperm.
Qed.

(** X20: [PackImages] places a single sprite exactly when it fits: on a
    canvas of positive size it returns without error if the sprite is
    no wider than the canvas less two columns and no higher than the
    canvas less two rows, and with the fit error if not. *)
Theorem PackImages_single (img : AtlasImage) (atlasSize : Point) (fuel : nat) :
  (3 <= fuel)%nat -> int_point atlasSize -> 0 < X atlasSize -> 0 < Y atlasSize ->
  spriteOk img ->
  exists a' err,
    PackImages fuel (mkAtlas [img]) atlasSize = Ret (a', err) /\
    (err = None <->
     Dx (Bounds (Image img)) <= X atlasSize - 2 /\ Dy (Bounds (Image img)) <= Y atlasSize - 2) /\
    (err <> None -> err = Some fitError).
Proof.
  intros Hfuel Hcanvas HW HH Hok.
  set (a := mkAtlas [img]).
  assert (Hsprites : Forall spriteOk (Images a)) by (constructor; [exact Hok|constructor]).
  assert (Hlen : (length (Images a) <= fuel)%nat) by (simpl; lia).
  destruct (PackImages_outcome a atlasSize fuel Hfuel Hlen Hcanvas Hsprites)
    as (s' & err & _ & HP & Hr & Hend).
  exists (mkAtlas (store s')), err. split; [exact HP|].
  split; [|destruct Hend as [(-> & _)|(-> & _)]; congruence].
  pose proof (initState_inv a atlasSize fuel Hfuel Hcanvas) as Hinit.
  destruct (padded_ok img Hok) as (Hsz & EX & EY).
  assert (ER : image.Rect 1 1 (X atlasSize) (Y atlasSize) =
               mkRectangle (Pt 1 1) (Pt (X atlasSize) (Y atlasSize))).
  { unfold image.Rect. destruct (Z.ltb_spec (X atlasSize) 1); [lia|].
    destruct (Z.ltb_spec (Y atlasSize) 1); [lia|]. reflexivity. }
  split.
  - intros ->. destruct Hend as [(_ & Himgs)|(? & _)]; [|discriminate].
    assert (HP' : PackImages fuel a atlasSize = Ret (mkAtlas (store s'), None)) by exact HP.
    assert (Hi : Images (mkAtlas (store s')) !! 0%nat = Some (setAtlasPos img (AtlasPos
                   (default img (store s' !! 0%nat))))).
    { pose proof (rounds_inv a atlasSize fuel Hfuel Hcanvas Hsprites s' Hr) as Hinv.
      pose proof (inv_store _ _ _ Hinv) as Hsame. cbn [Images a] in Hsame |- *.
      inversion Hsame as [|x y l k (E1 & E2 & E3) Hrest]; subst.
      inversion Hrest; subst. cbn [lookup list_lookup default].
      f_equal. destruct y. simpl in *. subst. reflexivity. }
    destruct (packed_inside a _ atlasSize fuel 0 _ Hfuel Hlen Hcanvas Hsprites HP' Hi)
      as (_ & Hin).
    set (pos := AtlasPos (default img (store s' !! 0%nat))) in *.
    change (paddedRect (setAtlasPos img pos)) with
      (cornerOf (mkRectangle pos pos) (paddedSize img)) in Hin.
    revert Hin. unfold usable, cornerOf, inside. rewrite ER.
    cbn [Min Max X Y]. rewrite EX, EY. lia.
  - intros [Hx Hy]. destruct Hend as [(-> & _)|(-> & Hne & Hnil & _)]; [reflexivity|].
    exfalso. apply rounds_split in Hr as [->|(s1 & Hr1 & Hrs)].
    + unfold roundPairs in Hnil. cbn [initState store root images a Images length seq pairsFrom
                                       lookup list_lookup] in Hnil.
      apply app_eq_nil in Hnil as [Hnil _]. apply fmap_nil_inv in Hnil.
      unfold candidatesOf in Hnil. cbn [leafPaths fresh Left omap list_omap] in Hnil.
      unfold candidateOf in Hnil. cbn [fst snd Used Rect negb andb] in Hnil.
      rewrite ER in Hnil. unfold Dx, Dy in Hnil. cbn [Min Max X Y] in Hnil.
      destruct Hcanvas as [HiX HiY].
      assert (E1 : isub (X atlasSize) 1 = X atlasSize - 1) by int_lia.
      assert (E2 : isub (Y atlasSize) 1 = Y atlasSize - 1) by int_lia.
      rewrite E1, E2, EX, EY in Hnil.
      destruct (Z.leb_spec (Dx (Bounds (Image img)) + 1) (X atlasSize - 1)); [|lia].
      destruct (Z.leb_spec (Dy (Bounds (Image img)) + 1) (Y atlasSize - 1)); [|lia].
      discriminate.
    + pose proof (round_shortens a atlasSize fuel _ _ Hfuel Hsprites Hinit Hr1) as HS.
      cbn [initState images a Images length seq] in HS.
      assert (Hrl : forall s2, rounds fuel s1 s2 -> packInv a atlasSize s1 ->
                (length (images s2) <= length (images s1))%nat).
      { intros s2 Hr2 Hinv1.
        destruct (rounds_keep a atlasSize fuel Hfuel Hsprites s1 s2 Hinv1 Hr2)
          as (_ & Hsub & _).
        pose proof (rounds_from_inv a atlasSize fuel Hfuel Hsprites _ _ Hinv1 Hr2) as Hinv2.
        apply submseteq_length, NoDup_submseteq; [apply (inv_nodup _ _ _ Hinv2)|exact Hsub]. }
      pose proof (round_inv a atlasSize fuel Hfuel Hsprites _ _ Hinit Hr1) as Hinv1.
      specialize (Hrl s' Hrs Hinv1).
      destruct (images s'); [congruence|simpl in Hrl; lia].
Qed.

Lemma PackImages_single_witness :
  exists a', PackImages 3 (mkAtlas [blankSprite 2 2]) (Pt 4 4) = Ret (a', None).
Proof.
  destruct (PackImages_single (blankSprite 2 2) (Pt 4 4) 3) as (a' & err & HP & [_ Hfit] & _).
  - lia.
  - concrete.
  - reflexivity.
  - reflexivity.
  - concrete.
  - exists a'. rewrite HP. f_equal. f_equal. apply Hfit. concrete.
Defined.

(** ** The atlas image *)

Lemma withPix_wf (p : RGBA) (pix : list Byte.byte) :
  wfRGBA p -> length pix = length (Pix p) -> wfRGBA (withPix p pix).
Proof. unfold wfRGBA, withPix. cbn [Pix Stride Bounds]. intros H ->. exact H. Qed.

Lemma inRect_dec (x y : Z) (r : Rectangle) : inRect x y r \/ ~ inRect x y r.
Proof. unfold inRect. lia. Qed.

Section CanvasProps.

Variable drawSrc : RGBA -> Rectangle -> drawSource -> Point -> list Byte.byte.
Hypothesis Hdraw : drawsSrc drawSrc.
Variable a : Atlas.
Variable atlasSize : Point.
Variable drawpadding : bool.
Hypothesis Hlaid : laidOut (Images a) atlasSize.
Hypothesis Hcanvas : canvasRect atlasSize = mkRectangle (Pt 0 0) atlasSize.
Hypothesis Hsmall : drawpadding = true -> X atlasSize <= 10^9 /\ Y atlasSize <= 10^9.

(** Drawing one more sprite. *)
Lemma drawSprite_drawn (k : nat) (img : AtlasImage) (c : RGBA) :
  Images a !! k = Some img -> drawn (Images a) atlasSize drawpadding k c ->
  drawn (Images a) atlasSize drawpadding (S k) (drawSprite drawSrc drawpadding img c).
Proof.
  intros Hk (Hwf & Hb & Hspr & Hrest).
  destruct Hdraw as (D1 & D2 & D3 & D4). destruct Hlaid as [Hone Hapart].
  destruct (Hone k img Hk) as (Hwfi & ED & Hdo & Hoc).
  unfold drawSprite.
  set (c1 := if drawpadding then withPix c _ else c).
  assert (Hwf1 : wfRGBA c1).
  { unfold c1. destruct drawpadding; [|exact Hwf]. apply withPix_wf; [exact Hwf|apply D1]. }
  assert (Hb1 : Bounds c1 = canvasRect atlasSize).
  { unfold c1. destruct drawpadding; exact Hb. }
  assert (Hin1 : forall x y, inRect x y (dstrect img) -> inRect x y (Bounds c1)).
  { intros x y Hr. rewrite Hb1. apply (inside_within _ _ Hoc), (inside_within _ _ Hdo), Hr. }
  (* the canvas after the outline is cleared *)
  assert (Hc1 : forall x y, inRect x y (canvasRect atlasSize) ->
            (drawpadding = true -> inRect x y (outline img) -> pixelAt c1 x y = transparent) /\
            (drawpadding = false \/ ~ inRect x y (outline img) -> pixelAt c1 x y = pixelAt c x y)).
  { intros x y Hxy. unfold c1. destruct drawpadding.
    - split.
      + intros _ Ho. destruct (Hsmall eq_refl) as [HsX HsY].
        pose proof Hoc as (Ho1 & Ho2 & Ho3 & Ho4). rewrite Hcanvas in Ho1, Ho2, Ho3, Ho4.
        cbn [Min Max X Y] in Ho1, Ho2, Ho3, Ho4.
        pose proof Ho as [Hox Hoy]. fold (outline img).
        apply D4; [exact Hwf|reflexivity|now rewrite Hb|exact Ho| |]; cbn [X Y]; lia.
      + intros [|Hno]; [discriminate|]. apply D2; [exact Hwf|now rewrite Hb|exact Hno].
    - split; [discriminate|reflexivity]. }
  split; [apply withPix_wf; [exact Hwf1|apply D1]|]. split; [exact Hb1|]. split.
  - intros j img' x y Hj Hj' Hr.
    destruct (decide (j = k)) as [->|Hne].
    + assert (img' = img) by congruence. subst img'.
      assert (Hsrc : inRect (spriteX img x) (spriteY img y) (Bounds (Image img))).
      { rewrite ED in Hr. destruct Hr as [Hx Hy]. cbn [Min Max X Y] in Hx, Hy.
        unfold spriteX, spriteY, inRect. lia. }
      assert (Emin : Min (dstrect img) = AtlasPos img) by (rewrite ED; reflexivity).
      pose proof (D3 c1 (dstrect img) (Image img) (Min (Bounds (Image img))) x y
                    Hwf1 Hwfi (Hin1 x y Hr) Hr) as H3.
      rewrite Emin in H3. apply H3. exact Hsrc.
    + assert (Hjk : (j < k)%nat) by lia.
      destruct (Hone j img' Hj') as (_ & _ & Hdo' & Hoc').
      assert (Hcan : inRect x y (canvasRect atlasSize)).
      { apply (inside_within _ _ Hoc'), (inside_within _ _ Hdo'), Hr. }
      assert (Hnr : ~ inRect x y (dstrect img)).
      { intros Hr'. apply (Hapart j k img' img Hne Hj' Hk x y). split; [|exact Hr'].
        apply (inside_within _ _ Hdo'), Hr. }
      assert (Hno : ~ inRect x y (outline img)).
      { intros Ho. apply (Hapart k j img img' ltac:(congruence) Hk Hj' x y). auto. }
      rewrite D2; [|exact Hwf1|now rewrite Hb1|exact Hnr].
      rewrite (proj2 (Hc1 x y Hcan)) by (right; exact Hno).
      apply (Hspr j img' x y Hjk Hj' Hr).
  - intros x y Hcan Hnone.
    assert (Hnr : ~ inRect x y (dstrect img)) by (apply (Hnone k img); [lia|exact Hk]).
    assert (Hnone' : forall j img', (j < k)%nat -> Images a !! j = Some img' ->
              ~ inRect x y (dstrect img')).
    { intros j img' Hj. apply Hnone. lia. }
    destruct (Hrest x y Hcan Hnone') as [Hred Hzero].
    rewrite D2; [|exact Hwf1|now rewrite Hb1|exact Hnr].
    destruct (Hc1 x y Hcan) as [Hclear Hkeep]. split.
    + intros Hp Hnoo. rewrite Hkeep.
      * apply Hred; [exact Hp|]. intros j img' Hj. apply Hnoo. lia.
      * right. apply (Hnoo k img); [lia|exact Hk].
    + intros [Hp|(j & img' & Hj & Hj' & Ho)].
      * rewrite Hkeep by (left; exact Hp). apply Hzero. left. exact Hp.
      * destruct drawpadding eqn:Ep.
        -- destruct (decide (j = k)) as [->|Hne].
           ++ assert (img' = img) by congruence. subst img'. apply Hclear; [reflexivity|exact Ho].
           ++ destruct (inRect_dec x y (outline img)) as [Hin|Hout].
              ** apply Hclear; [reflexivity|exact Hin].
              ** rewrite Hkeep by (right; exact Hout). apply Hzero. right.
                 exists j, img'. split; [lia|]. auto.
        -- rewrite Hkeep by (left; reflexivity). apply Hzero. left. reflexivity.
Qed.

(** The loop over the sprites, from the sprite [k] on. *)
Lemma drawSprites_drawn (n k : nat) (c : RGBA) :
  (k + n <= length (Images a))%nat -> drawn (Images a) atlasSize drawpadding k c ->
  exists c',
    forM (map Z.of_nat (seq k n))
      (fun i dstimg =>
         img ← load (Images a) (Z.to_nat i);
         Ret (drawSprite drawSrc drawpadding img dstimg)) c = Ret c' /\
    drawn (Images a) atlasSize drawpadding (k + n) c'.
Proof.
  revert k c. induction n as [|n IH]; intros k c Hk Hc.
  - exists c. split; [reflexivity|]. now rewrite Nat.add_0_r.
  - destruct (lookup_lt_is_Some_2 (Images a) k ltac:(lia)) as [img Himg].
    assert (Hload : load (Images a) (Z.to_nat (Z.of_nat k)) = Ret img).
    { unfold load. now rewrite Nat2Z.id, Himg. }
    cbn [seq map forM]. rewrite Hload. cbn [mbind outcome_bind].
    destruct (IH (S k) (drawSprite drawSrc drawpadding img c) ltac:(lia)
                (drawSprite_drawn k img c Himg Hc)) as (c' & Hc' & Hd).
    exists c'. split; [exact Hc'|]. now replace (k + S n)%nat with (S k + n)%nat by lia.
Qed.

End CanvasProps.

(** The sprites of a run of [PackImages] without error lie on the
    canvas, apart from one another. *)
Lemma packed_laidOut (a a' : Atlas) (atlasSize : Point) (fuel : nat) :
  (3 <= fuel)%nat -> (length (Images a) <= fuel)%nat ->
  int_point atlasSize -> 0 < X atlasSize -> 0 < Y atlasSize ->
  Forall loaded (Images a) ->
  PackImages fuel a atlasSize = Ret (a', None) ->
  laidOut (Images a') atlasSize.
Proof.
  intros Hfuel Hlen Hcanvas HW HH Hload HP.
  assert (Hsprites : Forall spriteOk (Images a)).
  { apply (list.Forall_impl _ _ _ Hload). apply loaded_spriteOk. }
  assert (Hrects : forall i img, Images a' !! i = Some img ->
            spriteOk img /\ inside (paddedRect img) (usable atlasSize)).
  { intros i img. apply (packed_inside a a' atlasSize fuel); assumption. }
  destruct (PackImages_placed a a' atlasSize fuel Hfuel Hlen Hcanvas Hsprites HP)
    as (s' & f & E & _ & Hinv & _).
  assert (ECR : canvasRect atlasSize = mkRectangle (Pt 0 0) atlasSize).
  { unfold canvasRect, image.Rect. destruct atlasSize as [w h]. cbn [X Y] in *.
    destruct (Z.ltb_spec w 0); [lia|]. destruct (Z.ltb_spec h 0); [lia|]. reflexivity. }
  split.
  - intros i img Hi. destruct (Hrects i img Hi) as [Hok Hin].
    destruct (placed_rects img atlasSize Hcanvas HW HH Hok Hin)
      as (Hx & Hy & Hw & Hh & HxW & HyH & _ & ED & EO).
    assert (Hwf : wfRGBA (Image img)).
    { rewrite E in Hi.
      destruct (Forall2_lookup_r _ _ _ _ _ (inv_store _ _ _ Hinv) Hi) as (img0 & Hi0 & (_ & _ & EI)).
      pose proof (proj1 (Forall_lookup _ _) Hload _ _ Hi0) as (_ & Hwf & _).
      now rewrite <- EI. }
    destruct (wf_extent _ Hwf) as [Ex Ey].
    split; [exact Hwf|]. rewrite EO, ED, ECR, <- Ex, <- Ey.
    split; [destruct (AtlasPos img); reflexivity|].
    unfold inside. cbn [Min Max X Y]. lia.
  - intros i j img_i img_j Hij Hi Hj.
    destruct (Hrects i img_i Hi) as [Hoki Hini].
    destruct (Hrects j img_j Hj) as [Hokj Hinj].
    pose proof (packed_disjoint a a' atlasSize fuel i j img_i img_j
                  Hfuel Hlen Hcanvas Hsprites HP Hij Hi Hj) as Hdis.
    destruct (placed_rects img_i atlasSize Hcanvas HW HH Hoki Hini)
      as (_ & _ & Hwi & Hhi & _ & _ & EPi & _ & EOi).
    destruct (placed_rects img_j atlasSize Hcanvas HW HH Hokj Hinj)
      as (_ & _ & Hwj & Hhj & _ & _ & EPj & EDj & _).
    rewrite EPi, EPj in Hdis. apply disjoint_apart in Hdis; cbn [Min Max X Y] in *; try lia.
    rewrite EOi, EDj. intros x y. unfold inRect. cbn [Min Max X Y]. lia.
Qed.

(** X21: for an atlas of loaded sprites that [PackImages] packed without
    error, a [draw.Draw] that copies the source into the rectangle
    and nothing else, and a canvas of at most 1e9 pixels a side if the
    padding is drawn, the image [SaveAtlasImage] encodes has the size of
    the canvas and shows every sprite unchanged at its position: the
    pixel at (x, y) of the rectangle of a sprite is the pixel of its
    trimmed image that lies as far from the corner. No sprite is
    overwritten by another or by the clearing of an outline; every
    other pixel is transparent, or, when the padding is drawn, red
    outside the outlines and transparent inside them. *)
Theorem SaveAtlasImage_shows_sprites
    (drawSrc : RGBA -> Rectangle -> drawSource -> Point -> list Byte.byte)
    (a a' : Atlas) (atlasSize : Point) (fuel : nat) (drawpadding : bool) :
  drawsSrc drawSrc ->
  (3 <= fuel)%nat -> (length (Images a) <= fuel)%nat ->
  0 < X atlasSize -> 0 < Y atlasSize -> 4 * X atlasSize * Y atlasSize <= int_max ->
  (drawpadding = true -> X atlasSize <= 10^9 /\ Y atlasSize <= 10^9) ->
  Forall loaded (Images a) ->
  PackImages fuel a atlasSize = Ret (a', None) ->
  exists dst,
    atlasCanvas drawSrc a' atlasSize drawpadding = Ret dst /\
    Bounds dst = canvasRect atlasSize /\
    (forall i img x y, Images a' !! i = Some img -> inRect x y (dstrect img) ->
       pixelAt dst x y = pixelAt (Image img) (spriteX img x) (spriteY img y)) /\
    (forall x y, inRect x y (canvasRect atlasSize) ->
       (forall i img, Images a' !! i = Some img -> ~ inRect x y (dstrect img)) ->
       (drawpadding = true ->
        (forall i img, Images a' !! i = Some img -> ~ inRect x y (outline img)) ->
        pixelAt dst x y = [Byte.xff; Byte.x00; Byte.x00; Byte.xff]) /\
       (drawpadding = false \/
        (exists i img, Images a' !! i = Some img /\ inRect x y (outline img)) ->
        pixelAt dst x y = [Byte.x00; Byte.x00; Byte.x00; Byte.x00])).
Proof.
  intros Hdraw Hfuel Hlen HW HH Hmax Hsmall Hload HP.
  assert (Hcanvas : int_point atlasSize).
  { assert (4 * X atlasSize <= 4 * X atlasSize * Y atlasSize) by nia.
    assert (4 * Y atlasSize <= 4 * X atlasSize * Y atlasSize) by nia.
    unfold int_point, is_int, int_min, int_max in *.
    set (n := 4 * X atlasSize * Y atlasSize) in *. clearbody n. lia. }
  pose proof (packed_laidOut a a' atlasSize fuel Hfuel Hlen Hcanvas HW HH Hload HP) as Hlaid.
  destruct (fillCanvas_spec atlasSize drawpadding HW HH Hmax)
    as (c0 & Hc0 & Hb0 & _ & _ & Hwf0 & Hpix0).
  assert (H0 : drawn (Images a') atlasSize drawpadding 0 c0).
  { split; [exact Hwf0|]. split; [exact Hb0|]. split; [intros; lia|].
    intros x y Hxy _. rewrite (Hpix0 x y Hxy). split.
    - intros ->. reflexivity.
    - intros [->|(j & _ & Hj & _)]; [reflexivity|lia]. }
  assert (ECR : canvasRect atlasSize = mkRectangle (Pt 0 0) atlasSize).
  { unfold canvasRect, image.Rect. destruct atlasSize as [w h]. cbn [X Y] in *.
    destruct (Z.ltb_spec w 0); [lia|]. destruct (Z.ltb_spec h 0); [lia|]. reflexivity. }
  destruct (drawSprites_drawn drawSrc Hdraw a' atlasSize drawpadding Hlaid ECR Hsmall
              (length (Images a')) 0 c0 ltac:(lia) H0) as (dst & Hdst & Hd).
  exists dst. split.
  { unfold atlasCanvas. rewrite Hc0. cbn [mbind outcome_bind]. unfold upto.
    rewrite Nat2Z.id. exact Hdst. }
  destruct Hd as (_ & Hb & Hspr & Hrest). cbn [Nat.add] in Hspr, Hrest.
  split; [exact Hb|]. split.
  - intros i img x y Hi. apply (Hspr i img x y); [|exact Hi].
    eapply lookup_lt_Some; eauto.
  - intros x y Hxy Hnone.
    destruct (Hrest x y Hxy) as [Hred Hzero].
    { intros j img _. apply Hnone. }
    split.
    + intros Hp Hno. apply Hred; [exact Hp|]. intros j img _. apply Hno.
    + intros [Hp|(i & img & Hi & Ho)]; apply Hzero; [left; exact Hp|right].
      exists i, img. split; [eapply lookup_lt_Some; eauto|]. auto.
Qed.

(** ** The sample [draw.Draw] keeps the contract *)

Lemma inRectb_spec (x y : Z) (r : Rectangle) : inRectb x y r = true <-> inRect x y r.
Proof. unfold inRectb, inRect. rewrite !andb_true_iff, !Z.leb_le, !Z.ltb_lt. lia. Qed.

(** The four bytes of a pixel. *)
Lemma pixel_bytes (p : RGBA) (x y : Z) :
  wfRGBA p -> inRect x y (Bounds p) ->
  exists b0 b1 b2 b3,
    Pix p !! (Z.to_nat (offsetOf p x y) + 0)%nat = Some b0 /\
    Pix p !! (Z.to_nat (offsetOf p x y) + 1)%nat = Some b1 /\
    Pix p !! (Z.to_nat (offsetOf p x y) + 2)%nat = Some b2 /\
    Pix p !! (Z.to_nat (offsetOf p x y) + 3)%nat = Some b3 /\
    pixelAt p x y = [b0; b1; b2; b3].
Proof.
  intros Hwf Hxy. destruct (wf_offset p x y Hwf Hxy) as [H0 H3].
  set (o := Z.to_nat (offsetOf p x y)).
  destruct (lookup_lt_is_Some_2 (Pix p) (o + 0) ltac:(lia)) as [b0 E0].
  destruct (lookup_lt_is_Some_2 (Pix p) (o + 1) ltac:(lia)) as [b1 E1].
  destruct (lookup_lt_is_Some_2 (Pix p) (o + 2) ltac:(lia)) as [b2 E2].
  destruct (lookup_lt_is_Some_2 (Pix p) (o + 3) ltac:(lia)) as [b3 E3].
  exists b0, b1, b2, b3. repeat (split; [assumption|]).
  unfold pixelAt. fold o. apply take4_drop; try assumption.
  now rewrite Nat.add_0_r in E0.
Qed.

(** A buffer rewritten byte by byte. *)
Lemma imap_pixel (f : nat -> Byte.byte -> Byte.byte) (p : RGBA) (x y : Z)
    (b0 b1 b2 b3 : Byte.byte) :
  Pix p !! (Z.to_nat (offsetOf p x y) + 0)%nat = Some b0 ->
  Pix p !! (Z.to_nat (offsetOf p x y) + 1)%nat = Some b1 ->
  Pix p !! (Z.to_nat (offsetOf p x y) + 2)%nat = Some b2 ->
  Pix p !! (Z.to_nat (offsetOf p x y) + 3)%nat = Some b3 ->
  pixelAt (withPix p (imap f (Pix p))) x y =
    [f (Z.to_nat (offsetOf p x y) + 0)%nat b0; f (Z.to_nat (offsetOf p x y) + 1)%nat b1;
     f (Z.to_nat (offsetOf p x y) + 2)%nat b2; f (Z.to_nat (offsetOf p x y) + 3)%nat b3].
Proof.
  intros E0 E1 E2 E3. unfold pixelAt, withPix, offsetOf. cbn [Pix Stride Bounds].
  fold (offsetOf p x y). set (o := Z.to_nat (offsetOf p x y)) in *.
  apply take4_drop; rewrite list_lookup_imap.
  - rewrite Nat.add_0_r in E0. rewrite E0. cbn. now rewrite Nat.add_0_r.
  - now rewrite E1.
  - now rewrite E2.
  - now rewrite E3.
Qed.

(** The byte [c] of the pixel [(x, y)] after the sample draws. *)
Lemma sampleDrawByte_at (dst : RGBA) (r : Rectangle) (src : drawSource) (sp : Point)
    (x y : Z) (c : nat) (b : Byte.byte) :
  wfRGBA dst -> inRect x y (Bounds dst) -> (c < 4)%nat ->
  sampleDrawByte dst r src sp (Z.to_nat (offsetOf dst x y) + c) b =
    if inRectb x y r then
      match src with
      | FromUniform colour => nth c colour b
      | FromRGBA p =>
          if inRectb (X sp + (x - X (Min r))) (Y sp + (y - Y (Min r))) (Bounds p)
          then nth (Z.to_nat (offsetOf p (X sp + (x - X (Min r))) (Y sp + (y - Y (Min r)))) + c)
                 (Pix p) b
          else b
      end
    else b.
Proof.
  intros Hwf Hxy Hc. destruct (wf_offset dst x y Hwf Hxy) as [H0 _].
  pose proof Hwf as (_ & Hw & Hh & _ & H4 & _). pose proof Hxy as [Hx Hy].
  unfold sampleDrawByte.
  set (k := Z.of_nat (Z.to_nat (offsetOf dst x y) + c)).
  set (dx := x - X (Min (Bounds dst))). set (dy := y - Y (Min (Bounds dst))).
  assert (Ek : k = Stride dst * dy + (dx * 4 + Z.of_nat c)).
  { unfold k, offsetOf, dx, dy in *. lia. }
  assert (Hr : 0 <= dx * 4 + Z.of_nat c < Stride dst) by (unfold dx; lia).
  assert (Ediv : k / Stride dst = dy).
  { symmetry. apply (Z.div_unique_pos k (Stride dst) dy (dx * 4 + Z.of_nat c) Hr Ek). }
  assert (Emod : k mod Stride dst = dx * 4 + Z.of_nat c).
  { symmetry. apply (Z.mod_unique_pos k (Stride dst) dy (dx * 4 + Z.of_nat c) Hr Ek). }
  rewrite Ediv, Emod.
  assert (E4 : (dx * 4 + Z.of_nat c) / 4 = dx).
  { symmetry. apply (Z.div_unique_pos _ 4 dx (Z.of_nat c)); lia. }
  assert (Ec : Z.to_nat ((dx * 4 + Z.of_nat c) mod 4) = c).
  { rewrite <- (Z.mod_unique_pos (dx * 4 + Z.of_nat c) 4 dx (Z.of_nat c)); lia. }
  rewrite E4, Ec.
  replace (X (Min (Bounds dst)) + dx) with x by (unfold dx; lia).
  replace (Y (Min (Bounds dst)) + dy) with y by (unfold dy; lia).
  rewrite (proj2 (inRectb_spec x y (Bounds dst)) Hxy). reflexivity.
Qed.

Lemma sampleDrawSrc_draws : drawsSrc sampleDrawSrc.
Proof.
  split; [|split; [|split]].
  - intros dst r src sp. unfold sampleDrawSrc. apply length_imap.
  - intros dst r src sp x y Hwf Hxy Hnr.
    destruct (pixel_bytes dst x y Hwf Hxy) as (b0 & b1 & b2 & b3 & E0 & E1 & E2 & E3 & ->).
    unfold sampleDrawSrc. rewrite (imap_pixel _ dst x y b0 b1 b2 b3 E0 E1 E2 E3).
    rewrite !sampleDrawByte_at by (assumption || lia).
    destruct (inRectb x y r) eqn:Er; [|reflexivity].
    exfalso. apply Hnr, inRectb_spec, Er.
  - intros dst r p sp x y Hwf Hwfp Hxy Hr Hs.
    destruct (pixel_bytes dst x y Hwf Hxy) as (b0 & b1 & b2 & b3 & E0 & E1 & E2 & E3 & _).
    destruct (pixel_bytes p _ _ Hwfp Hs) as (p0 & p1 & p2 & p3 & P0 & P1 & P2 & P3 & ->).
    unfold sampleDrawSrc. rewrite (imap_pixel _ dst x y b0 b1 b2 b3 E0 E1 E2 E3).
    rewrite !sampleDrawByte_at by (assumption || lia).
    rewrite (proj2 (inRectb_spec _ _ _) Hr), (proj2 (inRectb_spec _ _ _) Hs).
    rewrite !nth_lookup, P0, P1, P2, P3. reflexivity.
  - intros dst r colour sp x y Hwf Hcol Hxy Hr _ _.
    destruct (pixel_bytes dst x y Hwf Hxy) as (b0 & b1 & b2 & b3 & E0 & E1 & E2 & E3 & _).
    unfold sampleDrawSrc. rewrite (imap_pixel _ dst x y b0 b1 b2 b3 E0 E1 E2 E3).
    rewrite !sampleDrawByte_at by (assumption || lia).
    rewrite (proj2 (inRectb_spec _ _ _) Hr).
    destruct colour as [|c0 [|c1 [|c2 [|c3 [|]]]]]; try discriminate. reflexivity.
Qed.

Lemma SaveAtlasImage_shows_sprites_witness :
  exists a',
    PackImages 3 sampleAtlas (Pt 16 16) = Ret (a', None) /\
    exists dst,
      atlasCanvas sampleDrawSrc a' (Pt 16 16) true = Ret dst /\
      Bounds dst = canvasRect (Pt 16 16) /\
      (forall i img x y, Images a' !! i = Some img -> inRect x y (dstrect img) ->
         pixelAt dst x y = pixelAt (Image img) (spriteX img x) (spriteY img y)) /\
      (forall x y, inRect x y (canvasRect (Pt 16 16)) ->
         (forall i img, Images a' !! i = Some img -> ~ inRect x y (dstrect img)) ->
         (true = true ->
          (forall i img, Images a' !! i = Some img -> ~ inRect x y (outline img)) ->
          pixelAt dst x y = [Byte.xff; Byte.x00; Byte.x00; Byte.xff]) /\
         (true = false \/
          (exists i img, Images a' !! i = Some img /\ inRect x y (outline img)) ->
          pixelAt dst x y = [Byte.x00; Byte.x00; Byte.x00; Byte.x00])).
Proof.
  eexists. split; [vm_compute; reflexivity|].
  apply (SaveAtlasImage_shows_sprites sampleDrawSrc sampleAtlas _ (Pt 16 16) 3 true
           sampleDrawSrc_draws).
  - lia.
  - simpl. lia.
  - reflexivity.
  - reflexivity.
  - concrete.
  - intros _. simpl. lia.
  - repeat constructor; try (unfold wfRGBA; concrete); concrete.
  - vm_compute; reflexivity.
Defined.
